(** * Matchmaking core of the lobby server: a shallow embedding

    The development follows [server/ladder_service/ladder_service.py]
    (class [LadderService], [has_no_overlap], [NotConnectedError]) and
    [games/game.py] (class [Game]: options, connections, reported results,
    [permutations]).

    Conventions.
    - Python objects that are compared and hashed by identity or by id
      (players, searches, games) carry an explicit integer id.
    - Dictionaries whose iteration order is observable ([self.queues], the
      result of [get_violations]) are association lists in insertion order;
      the others are [gmap]s, sets are [gset]s.
    - Ratings that are only compared or passed on are exact rationals; the
      rating journal and the rating peak, on which the program does float
      arithmetic, are IEEE 754 binary64 numbers ([spec_float]).
    - Side effects on collaborators (messages written to a player, metrics,
      the violation service, the game object) are recorded as a list of
      events, in program order.  Answers of collaborators that are awaited
      (the store, the game's readiness futures) are read from an explicit
      environment. *)

From Stdlib Require Import ZArith QArith Lia SpecFloat.
From stdpp Require Import base gmap sets list strings sorting.

Open Scope string_scope.
Open Scope list_scope.
Open Scope Z_scope.

(** ** Players *)

Record Rating := { mean : Q; deviation : Q }.

Inductive PlayerState :=
| IDLE
| PLAYING
| SEARCHING_LADDER
| STARTING_AUTOMATCH.

#[global] Instance PlayerState_eq_dec : EqDecision PlayerState.
Proof. solve_decision. Defined.

Record Player := {
  player_id : Z;
  login : string;
  faction : Z;               (* [player.faction.value] *)
  ratings : string -> Rating  (* [player.ratings[rating_type]] *)
}.

(** ** [games/game.py]: per-player options of a game

    The launcher writes [game._player_options[player.id][key] = value]
    directly.  The class of the games it creates ([LadderGame]) is not among
    the sources; the write is taken to behave as [set_player_option] of
    [games/game.py] does, which creates the inner dictionary of a player on
    first use. *)

Module Game.

Record t := {
  id : Z;
  _player_options : gmap Z (gmap string Z);
  gameOptions : gmap string string;
  map_file_path : string;
  auto_lobby : bool;          (* [init_mode = InitMode.AUTO_LOBBY] *)
  name : string
}.

Definition with_player_options (g : t) (o : gmap Z (gmap string Z)) : t :=
  {| id := id g; _player_options := o; gameOptions := gameOptions g;
     map_file_path := map_file_path g; auto_lobby := auto_lobby g;
     name := name g |}.

(** [self._player_options[id][key] = value], the inner dictionary being
    created on first use. *)
Definition set_player_option (g : t) (pid : Z) (key : string) (value : Z) : t :=
  let inner := default ∅ (_player_options g !! pid) in
  with_player_options g (<[pid := <[key := value]> inner]> (_player_options g)).

(** [try: return self._player_options[id][key] except KeyError: return None] *)
Definition get_player_option (g : t) (pid : Z) (key : string) : option Z :=
  match _player_options g !! pid with
  | Some inner => inner !! key
  | None => None
  end.

End Game.

(** ** Messages, exceptions and events *)

(** A formatted string with the values that the program hands to a
    formatter left in place: [humanize.naturaldelta(d)] and the
    [f"{x:.0f}"] rendering of a float. *)
Inductive piece :=
| Lit (s : string)
| NaturalDelta (seconds : Z)
| Fixed0 (x : Q).

Record GameLaunchOptions := {
  mapname : string;
  expected_players : nat;
  game_options : option (list (string * string));
  team : option Z;
  launch_faction : option Z;
  map_position : option Z
}.

Inductive Message :=
| search_timeout (timeouts : list (Z * Z))
| search_info (queue_name : string) (state : string)
| notice (style : string) (text : list piece)
| match_found (queue_name : string)
| match_cancelled (game_id : option Z).

(** Subclasses of [Exception].  [asyncio.CancelledError] derives from
    [BaseException] and is kept apart (see the pop timer). *)
Inductive exn :=
| NotConnectedError (players : list Player)
| GameClosedError (player : Player)
| TimeoutError                       (* a bare [asyncio.TimeoutError] *)
| RuntimeError (msg : string)
| IndexError
| KeyError
| AttributeError
| UnboundLocalError
| AssertionError
| OtherError (msg : string).

(** [isinstance(e, asyncio.TimeoutError)]: [NotConnectedError] derives
    from it. *)
Definition is_TimeoutError (e : exn) : bool :=
  match e with
  | TimeoutError | NotConnectedError _ => true
  | _ => false
  end.

Inductive result (A : Type) :=
| Ok (a : A)
| Raise (e : exn).
Arguments Ok {A} a.
Arguments Raise {A} e.

Inductive MatchLaunch := SUCCESSFUL | TIMED_OUT | ABORTED_BY_PLAYER | ERRORED.

Inductive LogLevel := INFO | WARNING | ERROR.

(** ** Floats

    A Python [float] is an IEEE 754 binary64 number: a [spec_float] of
    precision 53 and [emax] 1024 in canonical form ([valid_binary]).  The
    operations round to nearest, ties to even. *)
Definition float : Type := spec_float.
Definition prec : Z := 53.
Definition emax : Z := 1024.

(** [float(n)] for an integer [n] *)
Definition float_of_int (n : Z) : float := binary_normalize prec emax n 0 false.

Definition float_add : float → float → float := SFadd prec emax.
Definition float_sub : float → float → float := SFsub prec emax.
Definition float_mul : float → float → float := SFmul prec emax.
Definition float_div : float → float → float := SFdiv prec emax.
Definition float_lt : float → float → bool := SFltb.

(** [math.isfinite] *)
Definition isfinite (x : float) : bool :=
  match x with
  | S754_zero _ | S754_finite _ _ _ => true
  | S754_infinity _ | S754_nan => false
  end.

(** [Fraction(x)] for a finite float: its exact value. *)
Definition Fraction (x : float) : Q :=
  match x with
  | S754_finite s m e =>
      let n := if s then Zneg m else Zpos m in
      match e with
      | Zneg k => n # 2 ^ k
      | _ => inject_Z (n * 2 ^ e)
      end
  | _ => 0%Q
  end.

(** An integer as a float that is not rounded yet. *)
Definition unrounded (n : Z) : float :=
  match n with
  | 0 => S754_zero false
  | Zpos m => S754_finite false m 0
  | Zneg m => S754_finite true m 0
  end.

(** [float(q)] for a fraction [q]: the true division of its numerator by
    its denominator, rounded once. *)
Definition float_of_Fraction (q : Q) : float :=
  float_div (unrounded (Qnum q)) (unrounded (Zpos (Qden q))).

Inductive Event :=
| EvWriteMessage (pid : Z) (m : Message)
| EvWriteLaunchGame (pid : Z) (game_id : Z) (is_host : bool)
                    (options : GameLaunchOptions)
| EvSetState (pid : Z) (s : PlayerState)
| EvSetGame (pid : Z) (game_id : Z)
| EvWaitHosted (game_id : Z) (timeout : Z)
| EvWaitLaunched (game_id : Z) (timeout : Z)
| EvMatches (queue_name : string) (label : MatchLaunch)
| EvRatingPeak (rating_type : string) (peak : float)
| EvOnGameFinish (game_id : Z)
| EvRegisterViolations (players : list Player)
| EvSearchCancel (search_id : Z)
| EvQueueSearch (queue_name : string) (search_id : Z)
| EvLog (level : LogLevel) (what : string).

(** ** Queues and map pools *)

Record MapPool := {
  pool_id : Z;
  pool_name : string;
  maps : list (Z * string * string * Z)  (* id, display name, path, weight *)
}.

Record MatchmakerQueue := {
  queue_name : string;
  queue_id : Z;
  featured_mod : string;
  rating_type : string;
  team_size : Z;
  params : option (list (string * string));
  (* [None]: never assigned by the service, still the constructor's value *)
  rating_peak : option float;
  map_pools : list (MapPool * option Q * option Q)
}.

(** Modelled from the spec: [MatchmakerQueue.get_map_pool_for_rating] is
    not part of the sources at hand; "pool lookup returns the first
    registered pool whose band contains r, or nil". *)
Fixpoint get_map_pool_for_rating
    (pools : list (MapPool * option Q * option Q)) (r : Q) : option MapPool :=
  match pools with
  | [] => None
  | (pool, lo, hi) :: rest =>
      let above := match lo with Some m => Qle_bool m r | None => true end in
      let below := match hi with Some m => Qle_bool r m | None => true end in
      if above && below then Some pool else get_map_pool_for_rating rest r
  end.

(** Modelled from the spec: [MatchmakerQueue.get_game_options] is not
    part of the sources at hand; "queue-scoped game-launch parameters drawn
    from params", possibly nil. *)
Definition get_game_options (q : MatchmakerQueue)
  : option (list (string * string)) := params q.

(** ** Launching a match: [_start_game] and [launch_match] *)

(** Answers of the collaborators of the launcher. *)
Record LaunchEnv := {
  LADDER_ANTI_REPETITION_LIMIT : Z;
  (* [await self.get_game_history(players, queue_id, limit)] *)
  get_game_history : list Player -> Z -> Z -> result (list Z);
  (* [pool.choose_map(played_map_ids)], third component *)
  choose_map : MapPool -> list Z -> result string;
  (* [self.game_service.create_game(...)]: mode, host, name, queue id,
     rating type, max_players *)
  create_game : string -> Player -> string -> Z -> string -> nat
                -> result Game.t;
  game_name : list Player -> list Player -> string;
  (* [random.shuffle] *)
  shuffle : list (Player * Player) -> list (Player * Player);
  (* [re.match("maps/(.+).zip", map_path)], group 1 *)
  re_match_mapname : string -> option string;
  (* [host.lobby_connection is not None] when the launch begins *)
  host_connected : Z -> bool;
  (* [await game.wait_hosted(60)] *)
  wait_hosted : Game.t -> Z -> option exn;
  (* [player.lobby_connection is not None] once [wait_hosted] is over *)
  guest_connected : Z -> bool;
  (* [await game.wait_launched(...)] and [game.get_connected_players()] *)
  wait_launched : Game.t -> Z -> option exn;
  get_connected_players : Game.t -> list Z;
  (* [player.state] when the failure handler runs *)
  player_state : gmap Z PlayerState
}.

(** [rating.displayed()] *)
Definition displayed (r : Rating) : Q := (mean r - 3 * deviation r)%Q.

Definition Qminimum (x : Q) (l : list Q) : Q :=
  fold_left (fun m y => if Qle_bool m y then m else y) l x.

(** [sorted(l, key=key)]: stable, ascending. *)
Fixpoint insert_by {A} (key : A -> Q) (x : A) (l : list A) : list A :=
  match l with
  | [] => [x]
  | y :: l' =>
      if Qle_bool (key x) (key y) then x :: y :: l'
      else y :: insert_by key x l'
  end.

Definition sorted {A} (key : A -> Q) (l : list A) : list A :=
  foldr (insert_by key) [] l.

Definition get_player_mean (rating_type : string) (player : Player) : Q :=
  mean (ratings player rating_type).

(** [player for pair in zipped_teams for player in pair] *)
Definition players_of_pairs (zipped_teams : list (Player * Player))
  : list Player :=
  flat_map (fun pair => [fst pair; snd pair]) zipped_teams.

(** The order in which players are enumerated into slots. *)
Definition slot_order (env : LaunchEnv) (rating_type : string)
    (team1 team2 : list Player) : list Player :=
  let team1 := sorted (get_player_mean rating_type) team1 in
  let team2 := sorted (get_player_mean rating_type) team2 in
  players_of_pairs (shuffle env (zip team1 team2)).

(** Body of [for i, player in enumerate(...)], from index [i] on. *)
Fixpoint assign_slots (game : Game.t) (i : nat) (players : list Player)
  : Game.t :=
  match players with
  | [] => game
  | player :: rest =>
      let slot := Z.of_nat i + 1 in
      let team := (Z.of_nat i mod 2) + 2 in
      let pid := player_id player in
      let game := Game.set_player_option game pid "Faction" (faction player) in
      let game := Game.set_player_option game pid "Team" team in
      let game := Game.set_player_option game pid "StartSpot" slot in
      let game := Game.set_player_option game pid "Army" slot in
      let game := Game.set_player_option game pid "Color" slot in
      assign_slots game (S i) rest
  end.

Definition make_game_options (game : Game.t) (mapname : string)
    (all_players : list Player)
    (game_options : option (list (string * string)))
    (player : Player) : GameLaunchOptions :=
  {| mapname := mapname;
     expected_players := length all_players;
     game_options := game_options;
     team := Game.get_player_option game (player_id player) "Team";
     launch_faction := Game.get_player_option game (player_id player) "Faction";
     map_position := Game.get_player_option game (player_id player) "StartSpot" |}.

(** [launch_match]: the events performed and the exception raised, if any. *)
Definition launch_match (env : LaunchEnv) (game : Game.t) (host : Player)
    (guests : list Player)
    (make_game_options : Player -> GameLaunchOptions)
  : list Event * option exn :=
  if negb (host_connected env (player_id host)) then
    ([], Some (NotConnectedError [host]))
  else
    let launch_host :=
      [EvWriteLaunchGame (player_id host) (Game.id game) true
                         (make_game_options host);
       EvWaitHosted (Game.id game) 60] in
    (* try / except asyncio.TimeoutError *)
    let pending :=
      match wait_hosted env game 60 with
      | Some e => if is_TimeoutError e then Some (NotConnectedError [host])
                  else Some e
      | None => None
      end in
    (* finally *)
    let not_connected_guests :=
      filter (fun player => guest_connected env (player_id player) = false)
             guests in
    match not_connected_guests with
    | _ :: _ => (launch_host, Some (NotConnectedError not_connected_guests))
    | [] =>
        let launch_guests :=
          map (fun guest =>
                 EvWriteLaunchGame (player_id guest) (Game.id game) false
                                   (make_game_options guest)) guests in
        match pending with
        | Some e => (launch_host ++ launch_guests, Some e)
        | None =>
            let timeout := 60 + 10 * Z.of_nat (length guests) in
            let evs := launch_host ++ launch_guests
                       ++ [EvWaitLaunched (Game.id game) timeout] in
            match wait_launched env game timeout with
            | Some e =>
                if is_TimeoutError e then
                  let connected_players := get_connected_players env game in
                  (evs,
                   Some (NotConnectedError
                           (filter (fun player =>
                                      player_id player ∉ connected_players)
                                   guests)))
                else (evs, Some e)
            | None => (evs, None)
            end
        end
    end.

(** What the [try] block of [_start_game] leaves behind: the events so
    far, the game if [create_game] returned, the exception if one was
    raised, and whether [all_players] was bound. *)
Record TryResult := {
  tr_events : list Event;
  tr_game : option Game.t;
  tr_error : option exn;
  tr_all_players : option (list Player)
}.

Definition start_game_try (env : LaunchEnv) (team1 team2 : list Player)
    (queue : MatchmakerQueue) : TryResult :=
  match team1 with
  | [] => {| tr_events := []; tr_game := None; tr_error := Some IndexError;
             tr_all_players := None |}
  | host :: _ =>
    let all_players := team1 ++ team2 in
    let all_guests := tail all_players in
    let failed evs game e :=
      {| tr_events := evs; tr_game := game; tr_error := Some e;
         tr_all_players := Some all_players |} in
    match get_game_history env all_players (queue_id queue)
                           (LADDER_ANTI_REPETITION_LIMIT env) with
    | Raise e => failed [] None e
    | Ok played_map_ids =>
      let rating :=
        Qminimum (displayed (ratings host (rating_type queue)))
                 (map (fun player => displayed (ratings player (rating_type queue)))
                      all_guests) in
      match get_map_pool_for_rating (map_pools queue) rating with
      | None => failed [] None (RuntimeError "No map pool available for rating")
      | Some pool =>
        match choose_map env pool played_map_ids with
        | Raise e => failed [] None e
        | Ok map_path =>
          match create_game env (featured_mod queue) host "Matchmaker Game"
                            (queue_id queue) (rating_type queue)
                            (length all_players) with
          | Raise e => failed [] None e
          | Ok game =>
            let game :=
              {| Game.id := Game.id game;
                 Game._player_options := Game._player_options game;
                 Game.gameOptions := Game.gameOptions game;
                 Game.map_file_path := map_path;
                 Game.auto_lobby := true;
                 Game.name := game_name env team1 team2 |} in
            let slots := slot_order env (rating_type queue) team1 team2 in
            let set_game :=
              map (fun player => EvSetGame (player_id player) (Game.id game))
                  slots in
            let game := assign_slots game 0 slots in
            let game_options := get_game_options queue in
            let game :=
              match game_options with
              | Some (o :: os) =>
                  {| Game.id := Game.id game;
                     Game._player_options := Game._player_options game;
                     Game.gameOptions :=
                       foldl (fun m kv => <[kv.1 := kv.2]> m)
                             (Game.gameOptions game) (o :: os);
                     Game.map_file_path := Game.map_file_path game;
                     Game.auto_lobby := Game.auto_lobby game;
                     Game.name := Game.name game |}
              | _ => game
              end in
            match re_match_mapname env map_path with
            | None => failed set_game (Some game) AttributeError
            | Some mapname =>
              let '(evs, r) :=
                launch_match env game host all_guests
                  (make_game_options game mapname all_players game_options) in
              match r with
              | Some e => failed (set_game ++ evs) (Some game) e
              | None =>
                  {| tr_events := set_game ++ evs
                                  ++ [EvMatches (queue_name queue) SUCCESSFUL];
                     tr_game := Some game; tr_error := None;
                     tr_all_players := Some all_players |}
              end
            end
          end
        end
      end
    end
  end.

(** Outcome of [_start_game]: all events, the players' states after the
    handler, and the exception that escapes the coroutine, if any. *)
Record StartResult := {
  sr_events : list Event;
  sr_player_state : gmap Z PlayerState;
  sr_raised : option exn
}.

(** The loop [for player in all_players] of the handler. *)
Fixpoint cancel_players (msg : Message) (st : gmap Z PlayerState)
    (players : list Player) : gmap Z PlayerState * list Event :=
  match players with
  | [] => (st, [])
  | player :: rest =>
      let pid := player_id player in
      let '(st, reset) :=
        match st !! pid with
        | Some STARTING_AUTOMATCH => (<[pid := IDLE]> st, [EvSetState pid IDLE])
        | _ => (st, [])
        end in
      let '(st, evs) := cancel_players msg st rest in
      (st, reset ++ EvWriteMessage pid msg :: evs)
  end.

(** The [isinstance] chain of the handler: the label counted in
    [metrics.matches] and [abandoning_players]; [None] when
    [assert not isinstance(e, asyncio.TimeoutError)] fails. *)
Definition classify (e : exn) : option (MatchLaunch * list Player) :=
  match e with
  | NotConnectedError players => Some (TIMED_OUT, players)
  | GameClosedError player => Some (ABORTED_BY_PLAYER, [player])
  | _ => if is_TimeoutError e then None else Some (ERRORED, [])
  end.

Definition _start_game (env : LaunchEnv) (team1 team2 : list Player)
    (queue : MatchmakerQueue) : StartResult :=
  let t := start_game_try env team1 team2 queue in
  match tr_error t with
  | None =>
      {| sr_events := tr_events t; sr_player_state := player_state env;
         sr_raised := None |}
  | Some e =>
      match classify e with
      | None =>
          {| sr_events := tr_events t; sr_player_state := player_state env;
             sr_raised := Some AssertionError |}
      | Some (label, abandoning_players) =>
          let evs := tr_events t ++ [EvMatches (queue_name queue) label] in
          let evs :=
            match tr_game t with
            | Some game => evs ++ [EvOnGameFinish (Game.id game)]
            | None => evs
            end in
          let msg := match_cancelled (Game.id <$> tr_game t) in
          match tr_all_players t with
          | None =>
              {| sr_events := evs; sr_player_state := player_state env;
                 sr_raised := Some UnboundLocalError |}
          | Some all_players =>
              let '(st, cancel) :=
                cancel_players msg (player_state env) all_players in
              {| sr_events :=
                   evs ++ cancel ++
                   match abandoning_players with
                   | [] => []
                   | _ => [EvRegisterViolations abandoning_players]
                   end;
                 sr_player_state := st;
                 sr_raised := None |}
          end
      end
  end.

(** ** Insertion-ordered dictionaries *)

Module Dict.
Section Ops.
Context {K V : Type} `{EqDecision K}.

Fixpoint get (d : list (K * V)) (k : K) : option V :=
  match d with
  | [] => None
  | (k', v) :: d' => if decide (k' = k) then Some v else get d' k
  end.

(** [d[k] = v]: an existing key keeps its position. *)
Fixpoint set (d : list (K * V)) (k : K) (v : V) : list (K * V) :=
  match d with
  | [] => [(k, v)]
  | (k', v') :: d' =>
      if decide (k' = k) then (k, v) :: d' else (k', v') :: set d' k v
  end.

(** [del d[k]] for a key that is present; no change otherwise. *)
Fixpoint del (d : list (K * V)) (k : K) : list (K * V) :=
  match d with
  | [] => []
  | (k', v') :: d' =>
      if decide (k' = k) then d' else (k', v') :: del d' k
  end.

Definition keys (d : list (K * V)) : list K := map fst d.
Definition values (d : list (K * V)) : list V := map snd d.
Definition mem (d : list (K * V)) (k : K) : bool :=
  match get d k with Some _ => true | None => false end.
End Ops.
End Dict.

(** ** Searches and the violation service *)

(** A [Search] object, with the arguments that [start_search] constructs
    it from (the callback apart) and its identity. *)
Record Search := {
  search_id : Z;
  search_players : list Player;
  search_rating_type : string;
  search_queue : string
}.

(** Modelled from the spec: the class [Violation] is not part of the
    sources at hand; "per-player record {time_offended, ban_expires_at}". *)
Record Violation := { time_offended : Z; ban_expires_at : Z }.

Definition get_ban_expiration (v : Violation) : Z := ban_expires_at v.

(** Modelled from the spec: the class [Violation] is not part of the
    sources at hand; the remaining ban time is what is left until
    [ban_expires_at]. *)
Definition get_remaining (now : Z) (v : Violation) : Z :=
  get_ban_expiration v - now.

(** Modelled from the spec: [ViolationService.get_violations] is not part
    of the sources at hand; "returns active violations (ban_expires_at in
    the future)", as a dictionary keyed by player, in the order of the
    request. *)
Fixpoint get_violations (violations : gmap Z Violation) (now : Z)
    (players : list Player) : list (Z * (Player * Violation)) :=
  match players with
  | [] => []
  | p :: rest =>
      let found := get_violations violations now rest in
      match violations !! player_id p with
      | Some v =>
          if bool_decide (now < get_ban_expiration v)
          then (player_id p, (p, v))
               :: Dict.del found (player_id p)
          else found
      | None => found
      end
  end.

(** ** The service *)

Record LadderService := {
  _is_running : bool;
  _informed_players : gset Z;
  queues : list (string * MatchmakerQueue);
  (* [defaultdict(dict)]: player -> queue name -> search *)
  _searches : gmap Z (list (string * Search));
  (* the [state] attribute of the players *)
  states : gmap Z PlayerState
}.

Definition with_informed (s : LadderService) (i : gset Z) : LadderService :=
  {| _is_running := _is_running s; _informed_players := i;
     queues := queues s; _searches := _searches s; states := states s |}.

Definition with_queues (s : LadderService)
    (q : list (string * MatchmakerQueue)) : LadderService :=
  {| _is_running := _is_running s; _informed_players := _informed_players s;
     queues := q; _searches := _searches s; states := states s |}.

Definition with_searches (s : LadderService)
    (m : gmap Z (list (string * Search))) : LadderService :=
  {| _is_running := _is_running s; _informed_players := _informed_players s;
     queues := queues s; _searches := m; states := states s |}.

Definition with_states (s : LadderService) (st : gmap Z PlayerState)
  : LadderService :=
  {| _is_running := _is_running s; _informed_players := _informed_players s;
     queues := queues s; _searches := _searches s; states := st |}.

(** [self._searches[player]]: reading a missing key creates it. *)
Definition searches_of (s : LadderService) (pid : Z)
  : list (string * Search) * LadderService :=
  match _searches s !! pid with
  | Some d => (d, s)
  | None => ([], with_searches s (<[pid := []]> (_searches s)))
  end.

Definition welcome_text : list piece :=
  [Lit ("<i>Welcome to the matchmaker</i><br><br><b>Until "
        +:+ "you've played enough games for the system to learn "
        +:+ "your skill level, you'll be matched randomly.</b><br>"
        +:+ "Afterwards, you'll be more reliably matched up with "
        +:+ "people of your skill level: so don't worry if your "
        +:+ "first few games are uneven. This will improve as you "
        +:+ "play!</b>")].

Definition calibration_text (progress : Q) : list piece :=
  [Lit ("The matchmaking system is calibrating your skill level; "
        +:+ "your first few games may be slightly more imbalanced "
        +:+ "as the system attempts to learn your capability as a player."
        +:+ "<br><br>"
        +:+ "<b>The learning phase is ");
   Fixed0 progress;
   Lit "% completed</b>"].

Definition Qlt_bool (x y : Q) : bool := negb (Qle_bool y x).

Definition write_rating_progress (s : LadderService) (player : Player)
    (rating_type : string) : LadderService * list Event :=
  if bool_decide (player_id player ∈ _informed_players s) then (s, [])
  else
    let s := with_informed s ({[player_id player]} ∪ _informed_players s) in
    let deviation := deviation (ratings player rating_type) in
    if Qlt_bool 490 deviation then
      (s, [EvWriteMessage (player_id player) (notice "info" welcome_text)])
    else if Qlt_bool 250 deviation then
      let progress := ((500 - deviation) / 2.5)%Q in
      (s, [EvWriteMessage (player_id player)
                          (notice "info" (calibration_text progress))])
    else (s, []).

(** [_clear_search]: the entry is removed for every player of the search.
    This is the loop on a registry where every [del] finds its key (a
    registered search is registered for each of its players, once);
    [clear_entries] below is the loop with the [KeyError] of a [del] that
    does not. *)
Definition _clear_search (s : LadderService) (initiator : Player)
    (queue_name : string) : option Search * LadderService :=
  let '(d, s) := searches_of s (player_id initiator) in
  match Dict.get d queue_name with
  | None => (None, s)
  | Some search =>
      let s :=
        foldl (fun s player =>
                 let '(d, s) := searches_of s (player_id player) in
                 with_searches s
                   (<[player_id player := Dict.del d queue_name]>
                      (_searches s)))
              s (search_players search) in
      (Some search, s)
  end.

(** [for player in search.players: del self._searches[player][queue_name]],
    where [del] raises [KeyError] when the player has no entry for the
    queue. *)
Fixpoint clear_entries (s : LadderService) (queue_name : string)
    (players : list Player) : LadderService * option exn :=
  match players with
  | [] => (s, None)
  | player :: rest =>
      let '(d, s) := searches_of s (player_id player) in
      match Dict.get d queue_name with
      | None => (s, Some KeyError)
      | Some _ =>
          clear_entries
            (with_searches s
               (<[player_id player := Dict.del d queue_name]> (_searches s)))
            queue_name rest
      end
  end.

Definition _cancel_search (s : LadderService) (initiator : Player)
    (queue_name : string) : LadderService * list Event :=
  match _clear_search s initiator queue_name with
  | (None, s) => (s, [])
  | (Some cancelled_search, s) =>
      foldl (fun '(s, evs) player =>
               let pid := player_id player in
               let '(d, s) := searches_of s pid in
               let s :=
                 match d, states s !! pid with
                 | [], Some SEARCHING_LADDER =>
                     with_states s (<[pid := IDLE]> (states s))
                 | _, _ => s
                 end in
               (s, evs ++ [EvWriteMessage pid (search_info queue_name "stop")]))
            (s, [EvSearchCancel (search_id cancelled_search)])
            (search_players cancelled_search)
  end.

Definition cancel_search (s : LadderService) (initiator : Player)
    (queue_name : option string) : LadderService * list Event :=
  let '(queue_names, s) :=
    match queue_name with
    | None => let '(d, s) := searches_of s (player_id initiator) in
              (Dict.keys d, s)
    | Some queue_name => ([queue_name], s)
    end in
  foldl (fun '(s, evs) queue_name =>
           let '(s, evs') := _cancel_search s initiator queue_name in
           (s, evs ++ evs'))
        (s, []) queue_names.

(** [", ".join(names)] *)
Fixpoint join (sep : string) (names : list string) : string :=
  match names with
  | [] => ""
  | [n] => n
  | n :: rest => n +:+ sep +:+ join sep rest
  end.

(** [max(vs, key=get_ban_expiration)] on a non-empty sequence: the first
    of the largest. *)
Definition max_by_expiration (v : Violation) (vs : list Violation)
  : Violation :=
  fold_left (fun m y =>
               if bool_decide (get_ban_expiration m < get_ban_expiration y)
               then y else m) vs v.

(** The three messages a player of the party receives when somebody in the
    party is timed out. *)
Definition timeout_messages (now : Z) (queue_name : string)
    (first : Player * Violation) (others : list (Player * Violation))
    (player : Player) : list Event :=
  let timeouts := first :: others in
  let times :=
    map (fun pv => (player_id pv.1, get_ban_expiration pv.2)) timeouts in
  let '(s, are) :=
    if bool_decide (length times = 1%nat) then ("", "is") else ("s", "are") in
  let names := join ", " (map (fun pv => login pv.1) timeouts) in
  let max_time :=
    get_remaining now (max_by_expiration first.2 (map snd others)) in
  [EvWriteMessage (player_id player) (search_timeout times);
   EvWriteMessage (player_id player) (search_info queue_name "stop");
   EvWriteMessage (player_id player)
     (notice "info"
        [Lit ("Player" +:+ s +:+ " " +:+ names +:+ " " +:+ are
              +:+ " timed out for ");
         NaturalDelta max_time])].

(** [start_search]; [fresh] is the identity of the [Search] object that the
    call creates.  The third component is the exception raised, if any. *)
Definition start_search (s : LadderService) (violations : gmap Z Violation)
    (now : Z) (fresh : Z) (players : list Player) (queue_name : string)
  : LadderService * list Event * option exn :=
  match Dict.values (get_violations violations now players) with
  | first :: others =>
      (s, flat_map (timeout_messages now queue_name first others) players,
       None)
  | [] =>
      (* Cancel any existing searches that players have for this queue *)
      let '(s, evs) :=
        foldl (fun '(s, evs) player =>
                 let '(d, s) := searches_of s (player_id player) in
                 if Dict.mem d queue_name then
                   let '(s, evs') := _cancel_search s player queue_name in
                   (s, evs ++ evs')
                 else (s, evs))
              (s, []) players in
      match Dict.get (queues s) queue_name with
      | None => (s, evs, Some KeyError)
      | Some queue =>
          let search :=
            {| search_id := fresh; search_players := players;
               search_rating_type := rating_type queue;
               search_queue := queue_name |} in
          let '(s, evs) :=
            foldl (fun '(s, evs) player =>
                     let pid := player_id player in
                     let s :=
                       with_states s (<[pid := SEARCHING_LADDER]> (states s)) in
                     let '(s, evs') :=
                       write_rating_progress s player (rating_type queue) in
                     let '(d, s) := searches_of s pid in
                     let s :=
                       with_searches s
                         (<[pid := Dict.set d queue_name search]>
                            (_searches s)) in
                     (s, evs ++ evs'
                         ++ [EvWriteMessage pid
                               (search_info queue_name "start")]))
                  (s, evs) players in
          (s, evs ++ [EvQueueSearch queue_name fresh], None)
      end
  end.

(** [on_connection_lost]; the argument is [conn.player]. *)
Definition on_connection_lost (s : LadderService) (player : option Player)
  : LadderService * list Event :=
  match player with
  | None => (s, [])
  | Some player =>
      let '(s, evs) := cancel_search s player None in
      let s := with_searches s (delete (player_id player) (_searches s)) in
      let s :=
        if bool_decide (player_id player ∈ _informed_players s)
        then with_informed s (_informed_players s ∖ {[player_id player]})
        else s in
      (s, evs)
  end.


(** ** Refreshing from the store: [update_data], [fetch_rating_peak] *)

Record JournalRow := {
  journal_id : Z;
  journal_leaderboard : string;   (* [leaderboard.technical_name] *)
  rating_mean_before : float;
  rating_deviation_before : float
}.

Record QueueInfo := {
  info_id : Z;
  info_mod : string;
  info_rating_type : string;
  info_team_size : Z;
  info_params : option (list (string * string));
  info_map_pools : list (Z * option Q * option Q)
}.

(** The store, as the two queries of [update_data] and the query of
    [fetch_rating_peak] see it. *)
Record Store := {
  (* result of [fetch_map_pools] *)
  map_pool_maps : list (Z * (string * list (Z * string * string * Z)));
  (* result of [fetch_matchmaker_queues] *)
  db_queues : list (string * QueueInfo);
  leaderboard_rating_journal : list JournalRow
}.

(** The query: rows of the rating type, newest first, at most 1000. *)
Definition rating_journal_rows (store : Store) (rating_type : string)
  : list JournalRow :=
  take 1000
    (sorted (fun row => inject_Z (- journal_id row))
       (filter (fun row => journal_leaderboard row = rating_type)
          (leaderboard_rating_journal store))).

Definition Qsum (l : list Q) : Q := foldr Qplus 0%Q l.

(** [statistics.mean] of floats, at least one.  The library adds the finite
    values as exact fractions and converts the quotient of the total by the
    count to a float, so that the mean is rounded once.  When a value is
    infinite or not a number the finite ones are ignored: the total is the
    float sum of the others, divided by the count as a float. *)
Definition statistics_mean (data : list float) : float :=
  let n := Z.of_nat (length data) in
  match filter (fun x => isfinite x = false) data with
  | [] => float_of_Fraction (Qsum (map Fraction data) / inject_Z n)
  | special =>
      float_div (foldl float_add (float_of_int 0) special) (float_of_int n)
  end.

(** [row.rating_mean_before - 3 * row.rating_deviation_before] *)
Definition displayed_before (row : JournalRow) : float :=
  float_sub (rating_mean_before row)
            (float_mul (float_of_int 3) (rating_deviation_before row)).

Definition fetch_rating_peak (store : Store) (rating_type : string)
  : float * list Event :=
  let rows := rating_journal_rows store rating_type in
  let rowcount := length rows in
  let rating_peak :=
    if bool_decide (0 < rowcount)%nat then
      statistics_mean (map displayed_before rows)
    else float_of_int 1000 in
  (rating_peak,
   [EvRatingPeak rating_type rating_peak]
   ++ (if bool_decide (rowcount < 100)%nat
       then [EvLog WARNING "Could only fetch ratings"] else [])
   ++ (if float_lt rating_peak (float_of_int 600)
          || float_lt (float_of_int 1200) rating_peak
       then [EvLog WARNING "Estimated rating peak could lead to issues"]
       else [EvLog INFO "Estimated rating peak"])).

(** The inner loop over [info["map_pools"]]; [map_pool_maps[map_pool_id]]
    raises [KeyError] for an unknown pool. *)
Fixpoint add_map_pools (store : Store) (queue : MatchmakerQueue)
    (pools : list (Z * option Q * option Q))
  : MatchmakerQueue * list Event * option exn :=
  match pools with
  | [] => (queue, [], None)
  | (map_pool_id, min_rating, max_rating) :: rest =>
      match Dict.get (map_pool_maps store) map_pool_id with
      | None => (queue, [], Some KeyError)
      | Some (map_pool_name, map_list) =>
          let warn := match map_list with
                      | [] => [EvLog WARNING "Map pool is empty"]
                      | _ => []
                      end in
          let queue :=
            {| queue_name := queue_name queue; queue_id := queue_id queue;
               featured_mod := featured_mod queue;
               rating_type := rating_type queue;
               team_size := team_size queue; params := params queue;
               rating_peak := rating_peak queue;
               map_pools :=
                 map_pools queue
                 ++ [({| pool_id := map_pool_id; pool_name := map_pool_name;
                         maps := map_list |}, min_rating, max_rating)] |} in
          let '(queue, evs, e) := add_map_pools store queue rest in
          (queue, warn ++ evs, e)
      end
  end.

(** One round of [for name, info in db_queues.items()]. *)
Definition update_queue (store : Store) (s : LadderService) (name : string)
    (info : QueueInfo) : LadderService * list Event * option exn :=
  let '(queue, evs) :=
    match Dict.get (queues s) name with
    | None =>
        ({| queue_name := name; queue_id := info_id info;
            featured_mod := info_mod info;
            rating_type := info_rating_type info;
            team_size := info_team_size info;
            params := info_params info;
            rating_peak := None;
            map_pools := [] |}, [])
    | Some queue =>
        let '(peak, evs) := fetch_rating_peak store (info_rating_type info) in
        ({| queue_name := queue_name queue; queue_id := queue_id queue;
            featured_mod := info_mod info;
            rating_type := info_rating_type info;
            team_size := info_team_size info;
            params := params queue;
            rating_peak := Some peak;
            map_pools := map_pools queue |}, evs)
    end in
  (* queue.map_pools.clear() *)
  let queue :=
    {| queue_name := queue_name queue; queue_id := queue_id queue;
       featured_mod := featured_mod queue; rating_type := rating_type queue;
       team_size := team_size queue; params := params queue;
       rating_peak := rating_peak queue; map_pools := [] |} in
  let '(queue, evs', e) := add_map_pools store queue (info_map_pools info) in
  (with_queues s (Dict.set (queues s) name queue), evs ++ evs', e).

Fixpoint update_queues (store : Store) (s : LadderService)
    (infos : list (string * QueueInfo))
  : LadderService * list Event * option exn :=
  match infos with
  | [] => (s, [], None)
  | (name, info) :: rest =>
      match update_queue store s name info with
      | (s, evs, Some e) => (s, evs, Some e)
      | (s, evs, None) =>
          let '(s, evs', e) := update_queues store s rest in
          (s, evs ++ evs', e)
      end
  end.

(** Remove queues that don't exist anymore. *)
Definition remove_absent_queues (store : Store) (s : LadderService)
  : LadderService :=
  foldl (fun s queue_name =>
           if Dict.mem (db_queues store) queue_name then s
           else with_queues s (Dict.del (queues s) queue_name))
        s (Dict.keys (queues s)).

Definition update_data (store : Store) (s : LadderService)
  : LadderService * list Event * option exn :=
  match update_queues store s (db_queues store) with
  | (s, evs, Some e) => (s, evs, Some e)
  | (s, evs, None) => (remove_absent_queues store s, evs, None)
  end.

(** ** Popping the queues *)

(** A team of a match: a search or a combination of searches, with its
    queue and [get_original_searches()]. *)
Record Team := {
  team_queue : string;
  get_original_searches : list Search
}.

Definition Match : Type := Team * Team.

(** [for team in match] *)
Definition teams_of (m : Match) : list Team := [m.1; m.2].

(** [set(search for team in match for search in team.get_original_searches())];
    searches are hashed by identity. *)
Definition searches_in_match (m : Match) : gset Z :=
  list_to_set (map search_id (flat_map get_original_searches (teams_of m))).

Definition searches_in_matches (ms : list Match) : gset Z :=
  list_to_set
    (map search_id
       (flat_map (fun m => flat_map get_original_searches (teams_of m)) ms)).

(** Modelled from the spec: [are_searches_disjoint] is not part of the
    sources at hand; "two matches collide iff they share at least one
    original Search". *)
Definition are_searches_disjoint (a b : gset Z) : bool :=
  bool_decide (a ## b).

Definition has_no_overlap (m : Match) (matches_tmm_searches : gset Z) : bool :=
  are_searches_disjoint (searches_in_match m) matches_tmm_searches.

(** Answers of the queues and of the team matchmaker during one pop. *)
Record PopEnv := {
  find_matches : string -> list Match;
  pick_noncolliding_games : list Match -> list Match;
  find_matches1v1 : string -> list Match
}.

Definition _queues_without1v1 (s : LadderService) : list MatchmakerQueue :=
  filter (fun queue => team_size queue ≠ 1) (Dict.values (queues s)).

Definition _1v1queues (s : LadderService) : list MatchmakerQueue :=
  filter (fun queue => team_size queue = 1) (Dict.values (queues s)).

(** The loop of [_add_matches_from1v1] over the given 1v1 queues. *)
Fixpoint add_matches_from (env : PopEnv) (matches_tmm : list Match)
    (queues1v1 : list MatchmakerQueue) : list Match :=
  match queues1v1 with
  | [] => matches_tmm
  | queue :: rest =>
      let matches_1v1 := find_matches1v1 env (queue_name queue) in
      let matches_tmm_searches := searches_in_matches matches_tmm in
      let matches_1v1 :=
        filter (fun m => has_no_overlap m matches_tmm_searches = true)
               matches_1v1 in
      add_matches_from env (matches_tmm ++ matches_1v1) rest
  end.

Definition _add_matches_from1v1 (env : PopEnv) (s : LadderService)
    (matches_tmm : list Match) : list Match :=
  add_matches_from env matches_tmm (_1v1queues s).

(** [_found_matches]: what each queue is handed, in the order of
    [self.queues] (each queue is also marked dirty, which is not recorded). *)
Definition _found_matches (s : LadderService) (matches : list Match)
  : list (string * list Match) :=
  map (fun queue =>
         (queue_name queue,
          filter (fun m => team_queue m.1 = queue_name queue) matches))
      (Dict.values (queues s)).

Definition _queue_pop_iteration (env : PopEnv) (s : LadderService)
  : list (string * list Match) :=
  let possible_games :=
    flat_map (fun queue => find_matches env (queue_name queue))
             (_queues_without1v1 s) in
  let matches_tmm := pick_noncolliding_games env possible_games in
  let matches_tmm := _add_matches_from1v1 env s matches_tmm in
  _found_matches s matches_tmm.

(** The players of a match. *)
Definition players_in_match (m : Match) : list Z :=
  map player_id
    (flat_map search_players (flat_map get_original_searches (teams_of m))).

(** *** The pop timer *)

(** What can be raised into the loop: [asyncio.CancelledError] or an
    [Exception]. *)
Inductive raised :=
| CancelledError
| Exception (e : exn).

(** What happens during one round of the loop: the outcome of
    [timer.next_pop()], of [_queue_pop_iteration()] if it is reached,
    whether the task is cancelled during [asyncio.sleep(1)] if that is
    reached, and the value of [_is_running] when the loop condition is
    evaluated next ([shutdown] may have run in between). *)
Record Round := {
  next_pop : option raised;
  pop_iteration : option raised;
  sleep_cancelled : bool;
  is_running_after : bool
}.

Inductive PopEvent :=
| PopNextPop
| PopIteration
| PopLogException
| PopSleep (seconds : Z)
| PopLogStopped.

#[global] Instance PopEvent_eq_dec : EqDecision PopEvent.
Proof. solve_decision. Defined.

Inductive LoopState :=
| Returned                (* the coroutine has returned *)
| Cancelled               (* [CancelledError] left the coroutine *)
| Looping.                (* still in the loop when the rounds end *)

(** The body of the [try]: events and what is raised. *)
Definition pop_round_body (r : Round) : list PopEvent * option raised :=
  match next_pop r with
  | Some x => ([PopNextPop], Some x)
  | None => ([PopNextPop; PopIteration], pop_iteration r)
  end.

Fixpoint _queue_pop_timer (is_running : bool) (rounds : list Round)
  : list PopEvent * LoopState :=
  if negb is_running then ([PopLogStopped], Returned)
  else
    match rounds with
    | [] => ([], Looping)
    | r :: rest =>
        let '(evs, x) := pop_round_body r in
        match x with
        | None =>
            let '(evs', st) := _queue_pop_timer (is_running_after r) rest in
            (evs ++ evs', st)
        | Some CancelledError => (evs ++ [PopLogStopped], Returned)
        | Some (Exception _) =>
            if sleep_cancelled r then
              (evs ++ [PopLogException; PopSleep 1], Cancelled)
            else
              let '(evs', st) := _queue_pop_timer (is_running_after r) rest in
              (evs ++ [PopLogException; PopSleep 1] ++ evs', st)
        end
    end.

(** ** Vocabulary of the statements, and sample data *)

(** The team that the slot loop gives to a 1-based slot. *)
Definition team_of_slot (slot : Z) : Z := if Z.odd slot then 2 else 3.

(** The spec's wording: "Team = 2 if slot even, 3 if odd". *)
Definition spec_team_of_slot (slot : Z) : Z := if Z.even slot then 2 else 3.

Module Sample.

Definition rating (m d : Z) : string -> Rating :=
  fun _ => {| mean := inject_Z m; deviation := inject_Z d |}.

Definition alice : Player :=
  {| player_id := 1; login := "alice"; faction := 1;
     ratings := rating 1500 100 |}.
Definition bob : Player :=
  {| player_id := 2; login := "bob"; faction := 2;
     ratings := rating 1400 100 |}.
Definition carol : Player :=
  {| player_id := 3; login := "carol"; faction := 3;
     ratings := rating 1600 100 |}.
Definition dave : Player :=
  {| player_id := 4; login := "dave"; faction := 4;
     ratings := rating 1300 100 |}.

Definition pool : MapPool :=
  {| pool_id := 1; pool_name := "ladder";
     maps := [(10, "Open Palms", "maps/scmp_007.zip", 1)] |}.

Definition ladder1v1 : MatchmakerQueue :=
  {| queue_name := "ladder1v1"; queue_id := 1; featured_mod := "ladder1v1";
     rating_type := "ladder_1v1"; team_size := 1; params := None;
     rating_peak := None; map_pools := [(pool, None, None)] |}.

Definition tmm2v2 : MatchmakerQueue :=
  {| queue_name := "tmm2v2"; queue_id := 2; featured_mod := "faf";
     rating_type := "tmm_2v2"; team_size := 2; params := None;
     rating_peak := None; map_pools := [(pool, None, None)] |}.

Definition new_game : Game.t :=
  {| Game.id := 42; Game._player_options := ∅; Game.gameOptions := ∅;
     Game.map_file_path := ""; Game.auto_lobby := false;
     Game.name := "Matchmaker Game" |}.

Definition starting (players : list Player) : gmap Z PlayerState :=
  list_to_map (map (fun p => (player_id p, STARTING_AUTOMATCH)) players).

(** Collaborators that all answer, but for the game history and the
    wait for the host, which are as given. *)
Definition make_env (history : result (list Z)) (hosted : option exn)
  : LaunchEnv :=
  {| LADDER_ANTI_REPETITION_LIMIT := 3;
     get_game_history := fun _ _ _ => history;
     choose_map := fun _ _ => Ok "maps/scmp_007.zip";
     create_game := fun _ _ _ _ _ _ => Ok new_game;
     game_name := fun _ _ => "alice Vs bob";
     shuffle := fun zipped => zipped;
     re_match_mapname := fun _ => Some "scmp_007";
     host_connected := fun _ => true;
     wait_hosted := fun _ _ => hosted;
     guest_connected := fun _ => true;
     wait_launched := fun _ _ => None;
     get_connected_players := fun _ => [];
     player_state := starting [alice; bob; carol; dave] |}.

(** Nobody times out. *)
Definition env : LaunchEnv := make_env (Ok []) None.

(** The host never reports the game as hosted. *)
Definition env_host_timeout : LaunchEnv :=
  make_env (Ok []) (Some TimeoutError).

(** Reading the game history ends in a bare [asyncio.TimeoutError]. *)
Definition env_history_timeout : LaunchEnv :=
  make_env (Raise TimeoutError) None.

End Sample.

Module SampleGames.
Import Sample.

(** The game of bob against alice after the slot loop. *)
Definition bob_vs_alice : Game.t :=
  assign_slots
    {| Game.id := 42; Game._player_options := ∅; Game.gameOptions := ∅;
       Game.map_file_path := "maps/scmp_007.zip"; Game.auto_lobby := true;
       Game.name := "alice Vs bob" |}
    0 [bob; alice].
End SampleGames.

(** The players an error identifies as having abandoned the launch. *)
Definition abandoning (e : exn) : list Player :=
  match e with
  | NotConnectedError players => players
  | GameClosedError player => [player]
  | _ => []
  end.

(** The players handed to [register_violations] in a run. *)
Definition registered_violations (evs : list Event) : list Player :=
  flat_map (fun ev => match ev with
                      | EvRegisterViolations players => players
                      | _ => []
                      end) evs.

(** The number of calls of [game.on_game_finish()] in a run, for a game. *)
Definition finished (gid : Z) (evs : list Event) : nat :=
  length (List.filter (fun ev => match ev with
                                 | EvOnGameFinish g => bool_decide (g = gid)
                                 | _ => false
                                 end) evs).

(** Events of the [try] block of [_start_game]. *)
Definition launcher_event (ev : Event) : Prop :=
  match ev with
  | EvSetGame _ _ | EvWriteLaunchGame _ _ _ _ | EvWaitHosted _ _
  | EvWaitLaunched _ _ | EvMatches _ _ => True
  | _ => False
  end.

(** *** Calls into the service *)

Inductive Call :=
| StartSearch (violations : gmap Z Violation) (now fresh : Z)
              (players : list Player) (queue_name : string)
| CancelSearch (initiator : Player) (queue_name : option string)
| WriteRatingProgress (player : Player) (rating_type : string)
| ConnectionLost (player : option Player)
| UpdateData (store : Store).

Definition call (s : LadderService) (c : Call) : LadderService * list Event :=
  match c with
  | StartSearch violations now fresh players queue_name =>
      (start_search s violations now fresh players queue_name).1
  | CancelSearch initiator queue_name => cancel_search s initiator queue_name
  | WriteRatingProgress player rating_type =>
      write_rating_progress s player rating_type
  | ConnectionLost player => on_connection_lost s player
  | UpdateData store => (update_data store s).1
  end.

(** A sequence of calls, one after the other. *)
Fixpoint run (s : LadderService) (calls : list Call)
  : LadderService * list Event :=
  match calls with
  | [] => (s, [])
  | c :: rest =>
      let '(s, evs) := call s c in
      let '(s, evs') := run s rest in
      (s, evs ++ evs')
  end.

(** The two notices of [write_rating_progress]. *)
Definition is_rating_progress (pid : Z) (ev : Event) : bool :=
  match ev with
  | EvWriteMessage pid' (notice _ [Lit _])
  | EvWriteMessage pid' (notice _ [Lit _; Fixed0 _; Lit _]) =>
      bool_decide (pid' = pid)
  | _ => false
  end.

Definition progress_notices (pid : Z) (evs : list Event) : nat :=
  length (List.filter (is_rating_progress pid) evs).

(** The call tells the service that the player's connection is lost. *)
Definition loses_connection (pid : Z) (c : Call) : Prop :=
  match c with
  | ConnectionLost (Some player) => player_id player = pid
  | _ => False
  end.

Module SampleService.
Import Sample.

Definition service : LadderService :=
  {| _is_running := true; _informed_players := ∅;
     queues := [("ladder1v1", ladder1v1); ("tmm2v2", tmm2v2)];
     _searches := ∅; states := ∅ |}.

(** carol is banned until 240. *)
Definition violations : gmap Z Violation :=
  {[ 3 := {| time_offended := 0; ban_expires_at := 240 |} ]}.

(** A newcomer, and the same player once calibrated. *)
Definition erin : Player :=
  {| player_id := 5; login := "erin"; faction := 1;
     ratings := rating 1500 500 |}.
Definition erin_calibrated : Player :=
  {| player_id := 5; login := "erin"; faction := 1;
     ratings := rating 1500 200 |}.
End SampleService.

(** 1 when the player has been told about the rating progress, else 0. *)
Definition informed (pid : Z) (s : LadderService) : nat :=
  if bool_decide (pid ∈ _informed_players s) then 1%nat else 0%nat.

(** Events of a refresh: the gauge and the log. *)
Definition refresh_event (ev : Event) : Prop :=
  match ev with
  | EvRatingPeak _ _ | EvLog _ _ => True
  | _ => False
  end.

(** The searches cancelled in a run. *)
Definition cancelled_searches (evs : list Event) : list Z :=
  flat_map (fun ev => match ev with
                      | EvSearchCancel sid => [sid]
                      | _ => []
                      end) evs.

(** Everything of the service but its queues. *)
Definition same_but_queues (s s' : LadderService) : Prop :=
  _is_running s' = _is_running s ∧
  _informed_players s' = _informed_players s ∧
  _searches s' = _searches s ∧
  states s' = states s.

Module SampleStore.
Import Sample.

Definition ladder1v1_info : QueueInfo :=
  {| info_id := 1; info_mod := "ladder1v1";
     info_rating_type := "ladder_1v1"; info_team_size := 1;
     info_params := None; info_map_pools := [(1, None, None)] |}.

(** The store lists the 1v1 queue only; its rating journal is empty. *)
Definition store : Store :=
  {| map_pool_maps := [(1, ("ladder", maps pool))];
     db_queues := [("ladder1v1", ladder1v1_info)];
     leaderboard_rating_journal := [] |}.

Definition alice_and_bob : Search :=
  {| search_id := 9; search_players := [alice; bob];
     search_rating_type := "tmm_2v2"; search_queue := "tmm2v2" |}.

(** Both queues are known and alice and bob are searching 2v2. *)
Definition service : LadderService :=
  {| _is_running := true; _informed_players := {[1; 2]};
     queues := [("ladder1v1", ladder1v1); ("tmm2v2", tmm2v2)];
     _searches := {[ 1 := [("tmm2v2", alice_and_bob)];
                     2 := [("tmm2v2", alice_and_bob)] ]};
     states := {[ 1 := SEARCHING_LADDER; 2 := SEARCHING_LADDER ]} |}.

(** A service that has not seen the store yet. *)
Definition fresh_service : LadderService :=
  {| _is_running := true; _informed_players := ∅; queues := [];
     _searches := ∅; states := ∅ |}.
End SampleStore.

Module SampleJournal.
Import Sample.

Definition row (i : Z) (m d : Q) : JournalRow :=
  {| journal_id := i; journal_leaderboard := "ladder_1v1";
     rating_mean_before := float_of_Fraction m;
     rating_deviation_before := float_of_Fraction d |}.

(** Two journal rows for the 1v1 ladder: displayed ratings 1200 and 600. *)
Definition store : Store :=
  {| map_pool_maps := [(1, ("ladder", maps pool))];
     db_queues := [("ladder1v1", SampleStore.ladder1v1_info)];
     leaderboard_rating_journal := [row 1 1500 100; row 2 1200 200] |}.

(** One journal row: the floats 1200.3 and 200.1. *)
Definition rounding : Store :=
  {| map_pool_maps := [(1, ("ladder", maps pool))];
     db_queues := [("ladder1v1", SampleStore.ladder1v1_info)];
     leaderboard_rating_journal := [row 1 (12003 # 10) (2001 # 10)] |}.
End SampleJournal.

(** *** Matches that do not collide *)

(** The two matches share no original search. *)
Definition disjoint_matches (m m' : Match) : Prop :=
  searches_in_match m ## searches_in_match m'.

(** The two matches share no player. *)
Definition disjoint_players (m m' : Match) : Prop :=
  ∀ pid, pid ∈ players_in_match m → pid ∉ players_in_match m'.

(** Any two entries of the list are related, the earlier to the later. *)
Fixpoint pairwise {A} (R : A → A → Prop) (l : list A) : Prop :=
  match l with
  | [] => True
  | x :: rest => Forall (R x) rest ∧ pairwise R rest
  end.

(** The matches picked in a pop: what [_found_matches] is called with. *)
Definition picked_matches (env : PopEnv) (s : LadderService) : list Match :=
  _add_matches_from1v1 env s
    (pick_noncolliding_games env
       (flat_map (fun queue => find_matches env (queue_name queue))
                 (_queues_without1v1 s))).

Module SamplePop.
Import Sample.

Definition search (i : Z) (players : list Player) (queue : string) : Search :=
  {| search_id := i; search_players := players;
     search_rating_type := ""; search_queue := queue |}.

Definition single (s : Search) : Team :=
  {| team_queue := search_queue s; get_original_searches := [s] |}.

(** alice searches the 1v1 queue alone and the 2v2 queue with carol. *)
Definition alice_1v1 : Search := search 11 [alice] "ladder1v1".
Definition bob_1v1 : Search := search 12 [bob] "ladder1v1".
Definition alice_carol : Search := search 13 [alice; carol] "tmm2v2".
Definition dave_erin : Search :=
  search 14 [dave; SampleService.erin] "tmm2v2".

Definition match_1v1 : Match := (single alice_1v1, single bob_1v1).
Definition match_2v2 : Match := (single alice_carol, single dave_erin).

Definition env : PopEnv :=
  {| find_matches := fun name =>
       if decide (name = "tmm2v2") then [match_2v2] else [];
     pick_noncolliding_games := fun games => games;
     find_matches1v1 := fun name =>
       if decide (name = "ladder1v1") then [match_1v1] else [] |}.
End SamplePop.

(** *** Rounds of the pop timer *)

(** Nothing cancels the task in the round and the service is not shut
    down; the round may raise any [Exception]. *)
Definition undisturbed (r : Round) : Prop :=
  next_pop r ≠ Some CancelledError ∧
  (next_pop r = None → pop_iteration r ≠ Some CancelledError) ∧
  sleep_cancelled r = false ∧
  is_running_after r = true.

(** The number of pops that were waited for. *)
Definition pops (evs : list PopEvent) : nat :=
  length (filter (fun ev => ev = PopNextPop) evs).

(** What is raised inside the [try] of a round: by [timer.next_pop()], or
    else by [_queue_pop_iteration()], which is only reached when the wait
    returned. *)
Definition raises (r : Round) : option raised :=
  match next_pop r with
  | Some x => Some x
  | None => pop_iteration r
  end.




(** The loop goes on after the round: nothing in it raised
    [CancelledError], the sleep after an exception was not cancelled, and
    the service is still running when the loop condition is tested. *)
Definition continues (r : Round) : Prop :=
  match raises r with
  | None => is_running_after r = true
  | Some CancelledError => False
  | Some (Exception _) => sleep_cancelled r = false ∧ is_running_after r = true
  end.

Module SampleRounds.
Definition fine : Round :=
  {| next_pop := None; pop_iteration := None; sleep_cancelled := false;
     is_running_after := true |}.
Definition failing : Round :=
  {| next_pop := None;
     pop_iteration := Some (Exception (RuntimeError "boom"));
     sleep_cancelled := false; is_running_after := true |}.
Definition cancelled : Round :=
  {| next_pop := Some CancelledError; pop_iteration := None;
     sleep_cancelled := false; is_running_after := true |}.
End SampleRounds.

(** Ascending order of the sort keys. *)
Definition key_le {A} (key : A → Q) (a b : A) : Prop := (key a <= key b)%Q.

(** *** Vocabulary for the launcher *)

(** The counters of [metrics.matches] incremented in a run. *)
Definition matches_counted (evs : list Event) : list (string * MatchLaunch) :=
  flat_map (fun ev => match ev with
                      | EvMatches name label => [(name, label)]
                      | _ => []
                      end) evs.

(** The players that [launch_game] was written to, with [is_host]. *)
Definition launched (evs : list Event) : list (Z * bool) :=
  flat_map (fun ev => match ev with
                      | EvWriteLaunchGame pid _ is_host _ => [(pid, is_host)]
                      | _ => []
                      end) evs.

(** The label that the handler of [_start_game] counts for the outcome of
    the [try] block. *)
Definition outcome_label (error : option exn) : MatchLaunch :=
  match error with
  | None => SUCCESSFUL
  | Some (NotConnectedError _) => TIMED_OUT
  | Some (GameClosedError _) => ABORTED_BY_PLAYER
  | Some _ => ERRORED
  end.

Module SampleLaunch.
Import Sample.

(** bob, the guest, has lost his connection; the host may time out or not. *)
Definition env_guest_gone (hosted : option exn) : LaunchEnv :=
  {| LADDER_ANTI_REPETITION_LIMIT := 3;
     get_game_history := fun _ _ _ => Ok [];
     choose_map := fun _ _ => Ok "maps/scmp_007.zip";
     create_game := fun _ _ _ _ _ _ => Ok new_game;
     game_name := fun _ _ => "alice Vs bob";
     shuffle := fun zipped => zipped;
     re_match_mapname := fun _ => Some "scmp_007";
     host_connected := fun _ => true;
     wait_hosted := fun _ _ => hosted;
     guest_connected := fun pid => negb (bool_decide (pid = 2));
     wait_launched := fun _ _ => None;
     get_connected_players := fun _ => [];
     player_state := starting [alice; bob] |}.

(** Everybody is connected and the game is hosted, but only carol joins
    it before the launch times out. *)
Definition env_launch_timeout : LaunchEnv :=
  {| LADDER_ANTI_REPETITION_LIMIT := 3;
     get_game_history := fun _ _ _ => Ok [];
     choose_map := fun _ _ => Ok "maps/scmp_007.zip";
     create_game := fun _ _ _ _ _ _ => Ok new_game;
     game_name := fun _ _ => "alice Vs bob";
     shuffle := fun zipped => zipped;
     re_match_mapname := fun _ => Some "scmp_007";
     host_connected := fun _ => true;
     wait_hosted := fun _ _ => None;
     guest_connected := fun _ => true;
     wait_launched := fun _ _ => Some TimeoutError;
     get_connected_players := fun _ => [1; 3];
     player_state := starting [alice; bob; carol; dave] |}.

(** The queue has no map pool. *)
Definition queue_without_pool : MatchmakerQueue :=
  {| queue_name := "ladder1v1"; queue_id := 1; featured_mod := "ladder1v1";
     rating_type := "ladder_1v1"; team_size := 1; params := None;
     rating_peak := None; map_pools := [] |}.

Definition options (p : Player) : GameLaunchOptions :=
  make_game_options new_game "scmp_007" [] None p.
End SampleLaunch.

(** Events of [launch_match] and of the slot loop: everything the [try]
    block of [_start_game] does before it counts a success. *)
Definition setup_event (ev : Event) : Prop :=
  match ev with
  | EvSetGame _ _ | EvWriteLaunchGame _ _ _ _ | EvWaitHosted _ _
  | EvWaitLaunched _ _ => True
  | _ => False
  end.

(** The messages written to players in a run. *)
Definition messages (evs : list Event) : list (Z * Message) :=
  flat_map (fun ev => match ev with
                      | EvWriteMessage pid m => [(pid, m)]
                      | _ => []
                      end) evs.

(** *** Matches found by a queue: [start_game], [on_match_found] *)

(** [start_game]: the assertion is checked when the coroutine is created,
    not when it runs. *)
Definition start_game (env : LaunchEnv) (team1 team2 : list Player)
    (queue : MatchmakerQueue) : result StartResult :=
  if bool_decide (length team1 = length team2)
  then Ok (_start_game env team1 team2 queue)
  else Raise AssertionError.

(** One round of [for player in s1.players + s2.players]. *)
Definition match_found_player (queue : MatchmakerQueue)
    (acc : LadderService * list Event) (player : Player)
  : LadderService * list Event :=
  let '(s, evs) := acc in
  let pid := player_id player in
  let s := with_states s (<[pid := STARTING_AUTOMATCH]> (states s)) in
  let evs := evs ++ [EvWriteMessage pid (match_found (queue_name queue))] in
  (* Cancel any other searches *)
  let '(d, s) := searches_of s pid in
  let queue_names :=
    filter (fun name => name ≠ queue_name queue) (Dict.keys d) in
  let '(s, evs) :=
    foldl (fun '(s, evs) name =>
             let '(s, evs') := _cancel_search s player name in
             (s, evs ++ evs'))
          (s, evs) queue_names in
  let '(_, s) := _clear_search s player (queue_name queue) in
  (s, evs).

(** [on_match_found]: the service and the events afterwards, and the teams
    of the [start_game] task that was created, if it was. *)
Definition on_match_found (s : LadderService) (s1 s2 : Search)
    (queue : MatchmakerQueue)
  : LadderService * list Event * option (list Player * list Player) :=
  let '(s, evs) :=
    foldl (match_found_player queue) (s, [])
          (search_players s1 ++ search_players s2) in
  if bool_decide (length (search_players s1) = length (search_players s2))
  then (s, evs, Some (search_players s1, search_players s2))
  else (* the assertion of [start_game] fails; [except Exception] logs it *)
    (s, evs ++ [EvLog ERROR "Error processing match between searches"], None).

(** *** The registry of searches *)

(** The search that a player has registered for a queue. *)
Definition reg (s : LadderService) (pid : Z) (queue_name : string)
  : option Search :=
  Dict.get (default [] (_searches s !! pid)) queue_name.

(** No dictionary of the registry lists a queue twice. *)
Definition nodup_keys (s : LadderService) : Prop :=
  ∀ pid d, _searches s !! pid = Some d → NoDup (Dict.keys d).

(** The registry is consistent: a search is registered under its own
    players only, and then under every one of them, for the same queue, and
    it lists no player twice.  On a consistent registry every
    [del self._searches[player][queue_name]] of [_clear_search] finds its
    key. *)
Definition consistent (s : LadderService) : Prop :=
  nodup_keys s ∧
  ∀ pid queue_name search,
    reg s pid queue_name = Some search →
    pid ∈ map player_id (search_players search) ∧
    NoDup (map player_id (search_players search)) ∧
    ∀ p, p ∈ search_players search →
         reg s (player_id p) queue_name = Some search.

(** The service but for its registry and the states of the players. *)
Definition same_but_searches (s s' : LadderService) : Prop :=
  _is_running s' = _is_running s ∧
  _informed_players s' = _informed_players s ∧
  queues s' = queues s.

(** [not self._searches[player]]: the player has no search at all. *)
Definition no_searches (s : LadderService) (pid : Z) : bool :=
  match default [] (_searches s !! pid) with
  | [] => true
  | _ => false
  end.

(** The players of a search, by id. *)
Definition search_pids (search : Search) : list Z :=
  map player_id (search_players search).

(** The body of the loop of [_cancel_search] over the players of the
    cancelled search. *)
Definition notify_cancelled (queue_name : string)
  : LadderService * list Event → Player → LadderService * list Event :=
  fun '(s, evs) player =>
  let pid := player_id player in
  let '(d, s) := searches_of s pid in
  let s :=
    match d, states s !! pid with
    | [], Some SEARCHING_LADDER => with_states s (<[pid := IDLE]> (states s))
    | _, _ => s
    end in
  (s, evs ++ [EvWriteMessage pid (search_info queue_name "stop")]).

(** The body of the loops that cancel several searches of one player. *)
Definition cancel_named (initiator : Player)
  : LadderService * list Event → string → LadderService * list Event :=
  fun '(s, evs) queue_name =>
    let '(s, evs') := _cancel_search s initiator queue_name in
    (s, evs ++ evs').

(** The registry shrinks: what is registered afterwards was registered
    before. *)
Definition shrinks (s s' : LadderService) : Prop :=
  ∀ pid q search, reg s' pid q = Some search → reg s pid q = Some search.

(** Only players that were searching change state, and only to idle. *)
Definition only_idles (s s' : LadderService) : Prop :=
  ∀ pid, states s' !! pid = states s !! pid ∨
         (states s !! pid = Some SEARCHING_LADDER ∧ states s' !! pid = Some IDLE).

(** What the bookkeeping of searches emits: messages to players and
    cancellations of searches. *)
Definition search_event (ev : Event) : Prop :=
  match ev with
  | EvWriteMessage _ _ | EvSearchCancel _ => True
  | _ => False
  end.

(** The bodies of the two loops of [start_search] over the players. *)
Definition cancel_existing (queue_name : string)
  : LadderService * list Event → Player → LadderService * list Event :=
  fun '(s, evs) player =>
    let '(d, s) := searches_of s (player_id player) in
    if Dict.mem d queue_name then
      let '(s, evs') := _cancel_search s player queue_name in
      (s, evs ++ evs')
    else (s, evs).

Definition register_search (queue : MatchmakerQueue) (queue_name : string)
    (search : Search)
  : LadderService * list Event → Player → LadderService * list Event :=
  fun '(s, evs) player =>
    let pid := player_id player in
    let s := with_states s (<[pid := SEARCHING_LADDER]> (states s)) in
    let '(s, evs') := write_rating_progress s player (rating_type queue) in
    let '(d, s) := searches_of s pid in
    let s :=
      with_searches s (<[pid := Dict.set d queue_name search]> (_searches s)) in
    (s, evs ++ evs' ++ [EvWriteMessage pid (search_info queue_name "start")]).

(** The search that [start_search] creates. *)
Definition new_search (fresh : Z) (players : list Player)
    (queue : MatchmakerQueue) (queue_name : string) : Search :=
  {| search_id := fresh; search_players := players;
     search_rating_type := rating_type queue; search_queue := queue_name |}.

(** A cancellation, or a stop message for the queue. *)
Definition stop_event (queue_name : string) (ev : Event) : Prop :=
  match ev with
  | EvSearchCancel _ => True
  | EvWriteMessage _ m => m = search_info queue_name "stop"
  | _ => False
  end.

(** The states agree with the registry: the players that are searching are
    those that have a search registered. *)
Definition coherent (s : LadderService) : Prop :=
  consistent s ∧
  ∀ pid, states s !! pid = Some SEARCHING_LADDER ↔ no_searches s pid = false.

(** A party lists no player twice. *)
Definition well_formed (c : Call) : Prop :=
  match c with
  | StartSearch _ _ _ players _ => NoDup (map player_id players)
  | _ => True
  end.

(** An entry of [queue.map_pools] is the pool of the store for an
    association [(map_pool_id, min_rating, max_rating)] of the queue. *)
Definition loaded (store : Store) (entry : MapPool * option Q * option Q)
    (assoc : Z * option Q * option Q) : Prop :=
  ∃ map_pool_name map_list,
    Dict.get (map_pool_maps store) assoc.1.1 = Some (map_pool_name, map_list) ∧
    entry = ({| pool_id := assoc.1.1; pool_name := map_pool_name;
                maps := map_list |}, assoc.1.2, assoc.2).

(** Every map pool that the queues of the store refer to is in the store. *)
Definition pools_known (store : Store) (infos : list (string * QueueInfo))
  : Prop :=
  ∀ name info assoc,
    (name, info) ∈ infos → assoc ∈ info_map_pools info →
    is_Some (Dict.get (map_pool_maps store) assoc.1.1).

(** ** The game object: [src/games/game.py] *)

Module Games.

Inductive GameState := INITIALIZING | LOBBY | LIVE | ENDED.

#[global] Instance GameState_eq_dec : EqDecision GameState.
Proof. solve_decision. Defined.

(** [GameState.from_gpgnet_state]; a value that is none of the three is
    answered with [None]. *)
Definition from_gpgnet_state (value : string) : option GameState :=
  if decide (value = "Idle") then Some INITIALIZING
  else if decide (value = "Lobby") then Some LOBBY
  else if decide (value = "Launching") then Some LIVE
  else None.

(** A game connection: its identity, its player, and whether its state is
    [GameConnectionState.CONNECTED_TO_HOST]. *)
Record GameConnection := {
  conn_id : Z;
  conn_player : Z;
  connected_to_host : bool
}.

#[global] Instance GameConnection_eq_dec : EqDecision GameConnection.
Proof. solve_decision. Defined.

(** What the methods raise. *)
Inductive error :=
| GameError (msg : string)
| AssertionError
| KeyError.

(** A reported result: [(reporter, result_type, score)]. *)
Definition Report : Type := Z * string * Z.

(** The attributes of [Game] that the methods below read or write.  Option
    values and armies are integers; [None] is Python's [None]. *)
Record t := {
  uuid : Z;
  state : GameState;
  _players : gset Z;
  _connections : gmap Z GameConnection;        (* player -> connection *)
  _player_options : gmap Z (gmap string Z);
  _army_options : gmap Z (gmap string Z);
  _results : gmap (option Z) (list Report);    (* army -> reports *)
  gameFaResult : gmap Z string;
  gameResult : gmap Z Z
}.

(** [Game.__init__], as far as these attributes go. *)
Definition new (uuid : Z) : t :=
  {| uuid := uuid; state := INITIALIZING; _players := ∅; _connections := ∅;
     _player_options := ∅; _army_options := ∅; _results := ∅;
     gameFaResult := ∅; gameResult := ∅ |}.

Definition with_state (g : t) (st : GameState) : t :=
  {| uuid := uuid g; state := st; _players := _players g;
     _connections := _connections g; _player_options := _player_options g;
     _army_options := _army_options g; _results := _results g;
     gameFaResult := gameFaResult g; gameResult := gameResult g |}.

Definition with_players (g : t) (ps : gset Z) : t :=
  {| uuid := uuid g; state := state g; _players := ps;
     _connections := _connections g; _player_options := _player_options g;
     _army_options := _army_options g; _results := _results g;
     gameFaResult := gameFaResult g; gameResult := gameResult g |}.

Definition with_connections (g : t) (c : gmap Z GameConnection) : t :=
  {| uuid := uuid g; state := state g; _players := _players g;
     _connections := c; _player_options := _player_options g;
     _army_options := _army_options g; _results := _results g;
     gameFaResult := gameFaResult g; gameResult := gameResult g |}.

Definition with_player_options (g : t) (o : gmap Z (gmap string Z)) : t :=
  {| uuid := uuid g; state := state g; _players := _players g;
     _connections := _connections g; _player_options := o;
     _army_options := _army_options g; _results := _results g;
     gameFaResult := gameFaResult g; gameResult := gameResult g |}.

Definition with_army_options (g : t) (o : gmap Z (gmap string Z)) : t :=
  {| uuid := uuid g; state := state g; _players := _players g;
     _connections := _connections g; _player_options := _player_options g;
     _army_options := o; _results := _results g;
     gameFaResult := gameFaResult g; gameResult := gameResult g |}.

Definition with_results (g : t) (r : gmap (option Z) (list Report)) : t :=
  {| uuid := uuid g; state := state g; _players := _players g;
     _connections := _connections g; _player_options := _player_options g;
     _army_options := _army_options g; _results := r;
     gameFaResult := gameFaResult g; gameResult := gameResult g |}.

Definition with_fa_results (g : t) (fa : gmap Z string) (res : gmap Z Z) : t :=
  {| uuid := uuid g; state := state g; _players := _players g;
     _connections := _connections g; _player_options := _player_options g;
     _army_options := _army_options g; _results := _results g;
     gameFaResult := fa; gameResult := res |}.

(** [self._player_options[id][key] = value], the inner dictionary being
    created on first use. *)
Definition set_player_option (g : t) (pid : Z) (key : string) (value : Z) : t :=
  let inner := default ∅ (_player_options g !! pid) in
  with_player_options g (<[pid := <[key := value]> inner]> (_player_options g)).

(** [try: return self._player_options[id][key] except KeyError: return None] *)
Definition get_player_option (g : t) (pid : Z) (key : string) : option Z :=
  match _player_options g !! pid with
  | Some inner => inner !! key
  | None => None
  end.

Definition set_army_option (g : t) (army : Z) (key : string) (value : Z) : t :=
  let inner := default ∅ (_army_options g !! army) in
  with_army_options g (<[army := <[key := value]> inner]> (_army_options g)).

Definition get_army_option (g : t) (army : Z) (key : string) : option Z :=
  match _army_options g !! army with
  | Some inner => inner !! key
  | None => None
  end.

(** The property [players]: a frozenset that depends on the state. *)
Definition players (g : t) : gset Z :=
  match state g with
  | LIVE => _players g
  | LOBBY => dom (_connections g)
  | _ => ∅
  end.

(** The properties [armies] and [teams]: the option of every player, [None]
    for a player without it. *)
Definition armies (g : t) : gset (option Z) :=
  set_map (fun pid => get_player_option g pid "Army") (players g).

Definition teams (g : t) : gset (option Z) :=
  set_map (fun pid => get_player_option g pid "Team") (players g).

(** [add_result] *)
Definition add_result (g : t) (reporter : Z) (army : option Z)
    (result_type : string) (score : Z) : error + t :=
  if bool_decide (army ∈ armies g) then
    let reports := default [] (_results g !! army) in
    inr (with_results g
           (<[army := reports ++ [(reporter, result_type, score)]]>
              (_results g)))
  else inl AssertionError.

(** [get_army_result]: the highest reported score, and at least 0. *)
Definition get_army_result (g : t) (army : option Z) : error + Z :=
  match _results g !! army with
  | None => inl KeyError
  | Some reports =>
      inr (foldl (fun score (result : Report) => Z.max score result.2)
                 0 reports)
  end.

(** The fold of [get_army_result] over the reports of an army. *)
Definition highest (reports : list Report) : Z :=
  foldl (fun score (result : Report) => Z.max score result.2) 0 reports.

(** [add_game_connection] *)
Definition add_game_connection (g : t) (game_connection : GameConnection)
  : error + t :=
  if negb (connected_to_host game_connection) then
    inl (GameError "Invalid GameConnectionState")
  else if bool_decide (state g ≠ LOBBY) then
    inl (GameError "Invalid GameState")
  else
    inr (with_connections g
           (<[conn_player game_connection := game_connection]>
              (_connections g))).

(** What [on_game_end] does to the outside: the end time is written, the
    scores are written as one batch of [(playerId, score)], and the game is
    rated. *)
Inductive GameEvent :=
| EvSetEndTime (game_id : Z)
| EvPersistScores (game_id : Z) (rows : list (Z * Z))
| EvLogCritical
| EvRateGame.

(** [persist_results]; [batch_ok] is the answer of [query.execBatch()].
    The score of each player is that of its army; a missing result list
    raises [KeyError] before anything is written. *)
Fixpoint collect_results (g : t) (players : list Z) : error + list (Z * Z) :=
  match players with
  | [] => inr []
  | pid :: rest =>
      match get_army_result g (get_player_option g pid "Army") with
      | inl e => inl e
      | inr score =>
          match collect_results g rest with
          | inl e => inl e
          | inr rows => inr ((pid, score) :: rows)
          end
      end
  end.

Definition persist_results (batch_ok : bool) (g : t) : error + list GameEvent :=
  match collect_results g (elements (players g)) with
  | inl e => inl e
  | inr rows =>
      inr (EvPersistScores (uuid g) rows
           :: if batch_ok then [] else [EvLogCritical])
  end.

(** [on_game_end] *)
Definition on_game_end (batch_ok : bool) (g : t)
  : error + (t * list GameEvent) :=
  let g := with_state g ENDED in
  match persist_results batch_ok g with
  | inl e => inl e
  | inr evs => inr (g, [EvSetEndTime (uuid g)] ++ evs ++ [EvRateGame])
  end.

(** [remove_game_connection]; the connection is looked for among the values
    and deleted under the key of its player. *)
Definition remove_game_connection (batch_ok : bool) (g : t)
    (game_connection : GameConnection) : error + (t * list GameEvent) :=
  if bool_decide (game_connection ∈ (map_to_list (_connections g)).*2) then
    match _connections g !! conn_player game_connection with
    | None => inl KeyError
    | Some _ =>
        let g :=
          with_connections g
            (delete (conn_player game_connection) (_connections g)) in
        if bool_decide (size (_connections g) = 0%nat)
        then on_game_end batch_ok g
        else inr (g, [])
    end
  else inl AssertionError.

(** [launch] *)
Definition launch (g : t) : error + t :=
  if bool_decide (state g = LOBBY) then
    inr (with_state (with_players g (players g)) LIVE)
  else inl AssertionError.

(** [addResultPlayer] *)
Definition addResultPlayer (g : t) (player : Z) (faresult : string)
    (score : Z) : t :=
  match gameFaResult g !! player with
  | Some old =>
      if bool_decide (old ≠ "victory") then
        with_fa_results g (<[player := faresult]> (gameFaResult g))
                          (<[player := score]> (gameResult g))
      else g
  | None =>
      with_fa_results g (<[player := faresult]> (gameFaResult g))
                        (<[player := score]> (gameResult g))
  end.

(** [checkScore]: a player without a score gets -1. *)
Definition checkScore (g : t) (player : Z) : t :=
  match gameResult g !! player with
  | Some _ => g
  | None => with_fa_results g (gameFaResult g) (<[player := -1]> (gameResult g))
  end.

(** [checkNoScore]: the same for every player of the game. *)
Definition checkNoScore (g : t) : t :=
  foldl checkScore g (elements (players g)).

(** [items[:i] + items[i + 1:]] *)
Definition without {A} (items : list A) (i : nat) : list A :=
  take i items ++ drop (S i) items.

(** [permutations], as the list of what the generator yields, in order.
    The recursion is on a list one shorter; [n] bounds its length. *)
Fixpoint permutations_upto {A} (n : nat) (items : list A) : list (list A) :=
  match items with
  | [] => [[]]
  | _ :: _ =>
      match n with
      | O => []
      | S n =>
          flat_map
            (fun i =>
               match items !! i with
               | Some x =>
                   map (cons x) (permutations_upto n (without items i))
               | None => []
               end)
            (seq 0 (length items))
      end
  end.

Definition permutations {A} (items : list A) : list (list A) :=
  permutations_upto (length items) items.

End Games.

(** ** Reading the store: [fetch_matchmaker_queues], [fetch_map_pools] *)

(** The column [matchmaker_queue.params] of a row: empty, JSON that
    [json.loads] parses, or text on which it raises. *)
Inductive ParamsColumn :=
| NoParams
| Params (parsed : list (string * string))
| BadParams.

#[global] Instance ParamsColumn_eq_dec : EqDecision ParamsColumn.
Proof. solve_decision. Defined.

(** A row of the query of [fetch_matchmaker_queues]. *)
Record QueueRow := {
  row_id : Z;
  row_technical_name : string;
  row_team_size : Z;
  row_params : ParamsColumn;
  row_map_pool_id : Z;
  row_min_rating : option Q;
  row_max_rating : option Q;
  row_gamemod : string;
  row_rating_type : string
}.

(** [(row.map_pool_id, row.min_rating, row.max_rating)] *)
Definition row_map_pool (row : QueueRow) : Z * option Q * option Q :=
  (row_map_pool_id row, row_min_rating row, row_max_rating row).

(** One round of [for row in result]; the state is [errored], the
    dictionary [matchmaker_queues] and the log. *)
Definition fetch_queue_row
    (acc : gset string * list (string * QueueInfo) * list Event)
    (row : QueueRow) : gset string * list (string * QueueInfo) * list Event :=
  let '(errored, matchmaker_queues, evs) := acc in
  let name := row_technical_name row in
  if bool_decide (name ∈ errored) then acc
  else
    (* info = matchmaker_queues[name] *)
    let map_pools :=
      match Dict.get matchmaker_queues name with
      | Some info => info_map_pools info
      | None => []
      end in
    match row_params row with
    | BadParams =>
        ({[name]} ∪ errored, Dict.del matchmaker_queues name,
         evs ++ [EvLog WARNING "Unable to load queue"])
    | params =>
        (errored,
         Dict.set matchmaker_queues name
           {| info_id := row_id row; info_mod := row_gamemod row;
              info_rating_type := row_rating_type row;
              info_team_size := row_team_size row;
              info_params := match params with
                             | Params parsed => Some parsed
                             | _ => None
                             end;
              info_map_pools := map_pools ++ [row_map_pool row] |},
         evs)
    end.

Definition fetch_matchmaker_queues (rows : list QueueRow)
  : list (string * QueueInfo) * list Event :=
  let '(_, matchmaker_queues, evs) := foldl fetch_queue_row (∅, [], []) rows in
  (matchmaker_queues, evs).

(** The rows of a queue, and whether [json.loads] raises on one of them. *)
Definition rows_of (name : string) (rows : list QueueRow) : list QueueRow :=
  filter (fun row => row_technical_name row = name) rows.

Definition unloadable (name : string) (rows : list QueueRow) : Prop :=
  Exists (fun row => row_technical_name row = name ∧ row_params row = BadParams)
         rows.

(** The entry built from the rows of one queue: the values of the last row
    and the map pools of all rows. *)
Definition info_of_rows (rows : list QueueRow) : option QueueInfo :=
  match last rows with
  | None => None
  | Some row =>
      Some {| info_id := row_id row; info_mod := row_gamemod row;
              info_rating_type := row_rating_type row;
              info_team_size := row_team_size row;
              info_params := match row_params row with
                             | Params parsed => Some parsed
                             | _ => None
                             end;
              info_map_pools := map row_map_pool rows |}
  end.

(** A map as the pools list it: id, display name, path, weight. *)
Definition Map : Type := Z * string * string * Z.

(** What becomes of the column [map_params] of a row without a map: the
    JSON parses and has the type neroxis, with the generated map that
    [NeroxisGeneratedMap.of] answers; it parses and has another type; or
    something in the [try] raises. *)
Inductive MapParams :=
| Neroxis (generated : Map)
| OtherType (map_type : string)
| Unreadable.

(** A row of the query of [fetch_map_pools]; [mp_map_id] and
    [mp_map_params] are [None] for SQL's NULL. *)
Record MapPoolRow := {
  mp_id : Z;
  mp_name : string;
  mp_weight : Z;
  mp_map_params : option MapParams;
  mp_map_id : option Z;
  mp_filename : string;
  mp_display_name : string
}.

(** One round of [for row in result]. *)
Definition fetch_pool_row
    (acc : list (Z * (string * list Map)) * list Event) (row : MapPoolRow)
  : list (Z * (string * list Map)) * list Event :=
  let '(map_pool_maps, evs) := acc in
  let id_ := mp_id row in
  let map_pool_maps :=
    if Dict.mem map_pool_maps id_ then map_pool_maps
    else Dict.set map_pool_maps id_ (mp_name row, []) in
  (* [_, map_list = map_pool_maps[id_]]; the key is there *)
  let '(name, map_list) :=
    default (mp_name row, []) (Dict.get map_pool_maps id_) in
  match mp_map_id row with
  | Some map_id =>
      (Dict.set map_pool_maps id_
         (name, map_list ++ [(map_id, mp_display_name row, mp_filename row,
                              mp_weight row)]),
       evs)
  | None =>
      match mp_map_params row with
      | None => (map_pool_maps, evs)
      | Some (Neroxis generated) =>
          (Dict.set map_pool_maps id_ (name, map_list ++ [generated]), evs)
      | Some (OtherType _) =>
          (map_pool_maps, evs ++ [EvLog WARNING "Unsupported map type"])
      | Some Unreadable =>
          (map_pool_maps, evs ++ [EvLog WARNING "Failed to load map"])
      end
  end.

Definition fetch_map_pools (rows : list MapPoolRow)
  : list (Z * (string * list Map)) * list Event :=
  foldl fetch_pool_row ([], []) rows.

(** The rows of a pool, the maps that a row adds, and the rows that only
    leave a warning. *)
Definition pool_rows (id : Z) (rows : list MapPoolRow) : list MapPoolRow :=
  filter (fun row => mp_id row = id) rows.

Definition maps_of_row (row : MapPoolRow) : list Map :=
  match mp_map_id row, mp_map_params row with
  | Some map_id, _ =>
      [(map_id, mp_display_name row, mp_filename row, mp_weight row)]
  | None, Some (Neroxis generated) => [generated]
  | None, _ => []
  end.

Definition warned (row : MapPoolRow) : bool :=
  match mp_map_id row, mp_map_params row with
  | None, Some (OtherType _) | None, Some Unreadable => true
  | _, _ => false
  end.

(** The entry built from the rows of one pool: the name of the first row
    and the maps of all rows. *)
Definition pool_of_rows (rows : list MapPoolRow)
  : option (string * list Map) :=
  match rows with
  | [] => None
  | first :: _ => Some (mp_name first, flat_map maps_of_row rows)
  end.

(** ** The game history: [get_game_history] *)

Module Db.

(** A row of [game_player_stats] joined with [game_stats] and
    [matchmaker_queue_game]; times are in seconds. *)
Record GameRow := {
  playerId : Z;
  game_id : Z;
  startTime : Z;
  mapId : Z;
  matchmaker_queue_id : Z
}.

(** [DATE_SUB(now(), interval 1 day)] *)
Definition one_day_before (now : Z) : Z := now - 86400.

(** The query for one player: the player's games of the queue that started
    within the last day, the latest first (by start time, then by id), at
    most [limit] of them. *)
Definition query (table : list GameRow) (now : Z) (player_id queue_id : Z)
    (limit : Z) : list GameRow :=
  take (Z.to_nat limit)
    (sorted (fun row => inject_Z (- startTime row))
       (sorted (fun row => inject_Z (- game_id row))
          (filter (fun row => playerId row = player_id
                              ∧ one_day_before now ≤ startTime row
                              ∧ matchmaker_queue_id row = queue_id)
                  table))).

(** [get_game_history]: the map ids of the rows of each player, one player
    after the other. *)
Definition get_game_history (table : list GameRow) (now : Z)
    (players : list Player) (queue_id : Z) (limit : Z) : list Z :=
  flat_map (fun player =>
              map mapId (query table now (player_id player) queue_id limit))
           players.

End Db.

Module SampleHistory.
(** alice and bob played game 100 together on map 7; alice played map 5
    before, and map 3 more than a day ago. *)
Definition table : list Db.GameRow :=
  [ {| Db.playerId := 1; Db.game_id := 80; Db.startTime := -100000;
       Db.mapId := 3; Db.matchmaker_queue_id := 1 |};
    {| Db.playerId := 1; Db.game_id := 90; Db.startTime := 500;
       Db.mapId := 5; Db.matchmaker_queue_id := 1 |};
    {| Db.playerId := 1; Db.game_id := 100; Db.startTime := 1000;
       Db.mapId := 7; Db.matchmaker_queue_id := 1 |};
    {| Db.playerId := 2; Db.game_id := 100; Db.startTime := 1000;
       Db.mapId := 7; Db.matchmaker_queue_id := 1 |} ].
End SampleHistory.

(** * Properties *)

(** ** Player options *)

Lemma get_set_player_option_eq g pid key v :
  Game.get_player_option (Game.set_player_option g pid key v) pid key = Some v.
Proof.
  unfold Game.get_player_option, Game.set_player_option; simpl.
  rewrite lookup_insert_eq. apply lookup_insert_eq.
Qed.

Lemma get_set_player_option_ne g pid key v pid' key' :
  pid ≠ pid' ∨ key ≠ key' →
  Game.get_player_option (Game.set_player_option g pid key v) pid' key'
  = Game.get_player_option g pid' key'.
Proof.
  intros H. unfold Game.get_player_option, Game.set_player_option; simpl.
  destruct (decide (pid = pid')) as [->|Hp].
  - rewrite lookup_insert_eq.
    destruct H as [H|H]; [done|]. rewrite lookup_insert_ne by done.
    by destruct (Game._player_options g !! pid').
  - by rewrite lookup_insert_ne.
Qed.

Lemma assign_slots_other players : ∀ game i pid key,
  pid ∉ map player_id players →
  Game.get_player_option (assign_slots game i players) pid key
  = Game.get_player_option game pid key.
Proof.
  induction players as [|p players IH]; intros game i pid key Hnot; [done|].
  simpl in Hnot. apply not_elem_of_cons in Hnot as [Hne Hnot].
  simpl. rewrite IH by done.
  rewrite !get_set_player_option_ne by (left; congruence). done.
Qed.

(** The five options of the player enumerated at index [i + k]. *)
Lemma assign_slots_lookup players : ∀ game i k player,
  NoDup (map player_id players) →
  players !! k = Some player →
  let game' := assign_slots game i players in
  let slot := Z.of_nat (i + k) + 1 in
  Game.get_player_option game' (player_id player) "Faction"
    = Some (faction player) ∧
  Game.get_player_option game' (player_id player) "Team"
    = Some (Z.of_nat (i + k) mod 2 + 2) ∧
  Game.get_player_option game' (player_id player) "StartSpot" = Some slot ∧
  Game.get_player_option game' (player_id player) "Army" = Some slot ∧
  Game.get_player_option game' (player_id player) "Color" = Some slot.
Proof.
  induction players as [|p players IH]; intros game i k player Hnd Hk; [done|].
  simpl in Hnd. apply NoDup_cons in Hnd as [Hnot Hnd].
  destruct k as [|k]; simpl in Hk.
  - injection Hk as ->. simpl. rewrite Nat.add_0_r.
    rewrite !assign_slots_other by done.
    repeat split;
      repeat (first [ apply get_set_player_option_eq
                    | rewrite get_set_player_option_ne by (right; done) ]).
  - simpl. replace (i + S k)%nat with (S i + k)%nat by lia.
    by apply IH.
Qed.

(** ** The launcher *)

Ltac unfold_try :=
  unfold start_game_try; repeat case_match; simplify_eq/=.

(** The player options of a game that [_start_game] created are those
    written by the slot loop. *)
Lemma start_game_try_game env team1 team2 queue game :
  tr_game (start_game_try env team1 team2 queue) = Some game →
  ∃ game0,
    Game._player_options game
    = Game._player_options
        (assign_slots game0 0
           (slot_order env (rating_type queue) team1 team2)).
Proof. unfold_try; intros; simplify_eq/=; eauto. Qed.

Lemma launch_match_launches env game host guests mk evs r pid gid h o :
  launch_match env game host guests mk = (evs, r) →
  EvWriteLaunchGame pid gid h o ∈ evs →
  ∃ p, p ∈ host :: guests ∧ pid = player_id p ∧ o = mk p.
Proof.
  unfold launch_match. intros Hl Hin.
  assert (Hg : ∀ l, EvWriteLaunchGame pid gid h o ∈
                 map (λ guest, EvWriteLaunchGame (player_id guest)
                                 (Game.id game) false (mk guest)) l →
               ∃ p, p ∈ l ∧ pid = player_id p ∧ o = mk p).
  { intros l Hl'. apply list_elem_of_In, in_map_iff in Hl' as (p & Hp & Hpl).
    exists p. apply list_elem_of_In in Hpl. by simplify_eq. }
  repeat case_match; simplify_eq/=;
    repeat (rewrite ?elem_of_cons, ?elem_of_app, ?elem_of_nil in Hin);
    repeat match goal with
      | H : _ ∨ _ |- _ => destruct H
      | H : False |- _ => destruct H
      | H : EvWriteLaunchGame _ _ _ _ = _ |- _ => simplify_eq
      | H : _ ∈ map _ _ |- _ =>
          apply Hg in H as (p & ? & ? & ?); exists p; set_solver
      end;
    try (exists host; set_solver).
Qed.

Lemma start_game_try_launches env team1 team2 queue pid gid h o :
  EvWriteLaunchGame pid gid h o ∈ tr_events (start_game_try env team1 team2 queue) →
  ∃ game mapname p,
    tr_game (start_game_try env team1 team2 queue) = Some game ∧
    p ∈ team1 ++ team2 ∧ pid = player_id p ∧
    o = make_game_options game mapname (team1 ++ team2)
          (get_game_options queue) p.
Proof.
  assert (Hs : ∀ g l, EvWriteLaunchGame pid gid h o ∉
                 map (λ player, EvSetGame (player_id player) g) l).
  { intros g l Hin. apply list_elem_of_In, in_map_iff in Hin as (? & ? & ?).
    done. }
  unfold start_game_try. repeat case_match; simplify_eq/=;
    rewrite ?elem_of_app, ?elem_of_cons, ?elem_of_nil;
    intros Hin; try done;
    repeat match goal with
      | H : _ ∨ _ |- _ => destruct H
      | H : False |- _ => destruct H
      | H : _ ∈ map (λ player, EvSetGame _ _) _ |- _ => by apply Hs in H
      | H : EvWriteLaunchGame _ _ _ _ = _ |- _ => simplify_eq
      end;
    match goal with
    | Hl : launch_match _ _ _ _ _ = _, H : _ ∈ _ |- _ =>
        destruct (launch_match_launches _ _ _ _ _ _ _ _ _ _ _ Hl H)
          as (? & ? & -> & ->);
        do 3 eexists; split_and!; [done | done | done |];
        by repeat match goal with
             | E : get_game_options _ = _ |- _ => rewrite E
             end
    end.
Qed.

Lemma team_of_index (i : nat) :
  Z.of_nat i mod 2 + 2 = team_of_slot (Z.of_nat i + 1).
Proof.
  unfold team_of_slot. rewrite Z.add_1_r, Z.odd_succ, Zmod_even.
  by destruct (Z.even (Z.of_nat i)).
Qed.

(** C1 (as amended).  In every game that [_start_game] creates, the player
    enumerated at 1-based slot [i + 1] of the two sorted, pair-shuffled
    teams has StartSpot = Army = Color = slot, Faction = the player's
    faction, and Team = 2 when the slot is odd, 3 when it is even; every
    [launch_game] sent to that player carries the Team, Faction and
    StartSpot so assigned.  Players are told apart by their id. *)
Theorem slot_assignment env team1 team2 queue game (i : nat) player :
  let slots := slot_order env (rating_type queue) team1 team2 in
  let t := start_game_try env team1 team2 queue in
  let slot := Z.of_nat i + 1 in
  tr_game t = Some game →
  NoDup (map player_id slots) →
  slots !! i = Some player →
  Game.get_player_option game (player_id player) "StartSpot" = Some slot ∧
  Game.get_player_option game (player_id player) "Army" = Some slot ∧
  Game.get_player_option game (player_id player) "Color" = Some slot ∧
  Game.get_player_option game (player_id player) "Team"
    = Some (team_of_slot slot) ∧
  Game.get_player_option game (player_id player) "Faction"
    = Some (faction player) ∧
  ∀ gid is_host o,
    EvWriteLaunchGame (player_id player) gid is_host o ∈ tr_events t →
    team o = Some (team_of_slot slot) ∧
    launch_faction o = Some (faction player) ∧
    map_position o = Some slot.
Proof.
  intros slots t slot Hgame Hnd Hi.
  destruct (start_game_try_game _ _ _ _ _ Hgame) as [game0 Hopts].
  destruct (assign_slots_lookup slots game0 0 i player Hnd Hi)
    as (Hf & Ht & Hs & Ha & Hc).
  simpl in Ht. rewrite team_of_index in Ht.
  unfold Game.get_player_option in *. rewrite Hopts.
  split_and!; try done.
  intros gid is_host o Hin.
  apply start_game_try_launches in Hin
    as (game' & mapname' & p & Hgame' & _ & Hpid & ->).
  fold t in Hgame'. rewrite Hgame in Hgame'. injection Hgame' as <-.
  unfold make_game_options, Game.get_player_option; simpl.
  rewrite <- Hpid, Hopts. done.
Qed.

Lemma slot_assignment_witness :
  Game.get_player_option SampleGames.bob_vs_alice (player_id Sample.bob) "Team"
  = Some (team_of_slot (Z.of_nat 0 + 1)).
Proof.
  refine (proj1 (proj2 (proj2 (proj2
            (slot_assignment Sample.env [Sample.bob] [Sample.alice]
               Sample.ladder1v1 SampleGames.bob_vs_alice 0%nat Sample.bob
               _ _ _))))).
  - vm_compute; reflexivity.
  - apply (bool_decide_unpack _). vm_compute. exact I.
  - vm_compute; reflexivity.
Defined.

(** C1, counterexample.  In the 1v1 game of bob against alice, bob is
    enumerated at slot 1 and his Team is 2, not the 3 that "Team = 3 when
    the slot is odd" asks for. *)
Lemma slot_team_counterexample :
  ¬ (∀ env team1 team2 queue game (i : nat) player,
        tr_game (start_game_try env team1 team2 queue) = Some game →
        NoDup (map player_id (slot_order env (rating_type queue) team1 team2)) →
        slot_order env (rating_type queue) team1 team2 !! i = Some player →
        Game.get_player_option game (player_id player) "Team"
        = Some (spec_team_of_slot (Z.of_nat i + 1))).
Proof.
  intros H.
  specialize (H Sample.env [Sample.bob] [Sample.alice] Sample.ladder1v1
                SampleGames.bob_vs_alice 0%nat Sample.bob).
  assert (H1 : tr_game (start_game_try Sample.env [Sample.bob] [Sample.alice]
                          Sample.ladder1v1) = Some SampleGames.bob_vs_alice)
    by (vm_compute; reflexivity).
  assert (H2 : NoDup (map player_id
                        (slot_order Sample.env (rating_type Sample.ladder1v1)
                           [Sample.bob] [Sample.alice])))
    by (apply (bool_decide_unpack _); vm_compute; exact I).
  assert (H3 : slot_order Sample.env (rating_type Sample.ladder1v1)
                 [Sample.bob] [Sample.alice] !! 0%nat = Some Sample.bob)
    by (vm_compute; reflexivity).
  specialize (H H1 H2 H3). vm_compute in H. discriminate H.
Qed.

Lemma filter_not_connected_nil env (guests : list Player) :
  (∀ g, g ∈ guests → guest_connected env (player_id g) = true) →
  filter (λ player, guest_connected env (player_id player) = false) guests = [].
Proof.
  induction guests as [|g guests IH]; intros Hall; [done|].
  rewrite filter_cons. rewrite decide_False.
  - apply IH. intros g' Hg'. apply Hall. by right.
  - rewrite (Hall g) by left. done.
Qed.

(** C3.  When the host is connected, [game.wait_hosted(60)] times out and
    every guest has a connection, [launch_match] raises
    [NotConnectedError([host])], having sent [launch_game] with
    [is_host = False] to every guest after the wait, and nothing else. *)
Theorem hosted_timeout env game host guests mk :
  host_connected env (player_id host) = true →
  wait_hosted env game 60 = Some TimeoutError →
  (∀ g, g ∈ guests → guest_connected env (player_id g) = true) →
  launch_match env game host guests mk
  = ([EvWriteLaunchGame (player_id host) (Game.id game) true (mk host);
      EvWaitHosted (Game.id game) 60]
     ++ map (λ guest, EvWriteLaunchGame (player_id guest) (Game.id game)
                        false (mk guest)) guests,
     Some (NotConnectedError [host])).
Proof.
  intros Hhost Hwait Hguests. unfold launch_match.
  rewrite Hhost, Hwait, (filter_not_connected_nil _ _ Hguests). done.
Qed.

(** X1.  The [raise] in the [finally] block wins over the pending
    exception: with a guest that has no connection the error names the
    guests that are not connected, whatever the outcome of the wait for the
    host, and no guest is launched. *)
Lemma guest_not_connected env game host guests mk g :
  host_connected env (player_id host) = true →
  g ∈ guests → guest_connected env (player_id g) = false →
  launch_match env game host guests mk
  = ([EvWriteLaunchGame (player_id host) (Game.id game) true (mk host);
      EvWaitHosted (Game.id game) 60],
     Some (NotConnectedError
             (filter (λ player, guest_connected env (player_id player) = false)
                     guests))).
Proof.
  intros Hhost Hg Hnc. unfold launch_match. rewrite Hhost. simpl.
  assert (Hin : g ∈ filter (λ player, guest_connected env (player_id player)
                                      = false) guests)
    by (by apply list_elem_of_filter).
  destruct (filter _ guests) as [|x l] eqn:E; [by apply elem_of_nil in Hin|].
  done.
Qed.

Lemma hosted_timeout_witness :
  launch_match Sample.env_host_timeout Sample.new_game Sample.alice
    [Sample.bob] (λ _, make_game_options Sample.new_game "scmp_007" [] None
                         Sample.alice)
  = ([EvWriteLaunchGame (player_id Sample.alice) (Game.id Sample.new_game) true
        (make_game_options Sample.new_game "scmp_007" [] None Sample.alice);
      EvWaitHosted (Game.id Sample.new_game) 60]
     ++ map (λ guest, EvWriteLaunchGame (player_id guest)
                        (Game.id Sample.new_game) false
                        (make_game_options Sample.new_game "scmp_007" [] None
                           Sample.alice)) [Sample.bob],
     Some (NotConnectedError [Sample.alice])).
Proof.
  apply (hosted_timeout Sample.env_host_timeout Sample.new_game Sample.alice
           [Sample.bob]).
  - reflexivity.
  - reflexivity.
  - intros g _. reflexivity.
Defined.

(** ** Failure of a launch *)

Lemma launch_match_events env game host guests mk :
  Forall launcher_event (launch_match env game host guests mk).1.
Proof.
  assert (Hg : ∀ l, Forall launcher_event
                 (map (λ guest, EvWriteLaunchGame (player_id guest)
                                  (Game.id game) false (mk guest)) l)).
  { intros l. apply Forall_forall. intros ev Hin.
    apply list_elem_of_In, in_map_iff in Hin as (? & <- & ?). done. }
  unfold launch_match. repeat case_match; simpl;
    repeat first [ apply Forall_nil_2 | apply Forall_cons_2; [done|]
                 | apply Forall_app_2 | apply Hg ].
Qed.

Lemma start_game_try_events env team1 team2 queue :
  Forall launcher_event (tr_events (start_game_try env team1 team2 queue)).
Proof.
  assert (Hs : ∀ g l, Forall launcher_event
                 (map (λ player, EvSetGame (player_id player) g) l)).
  { intros g l. apply Forall_forall. intros ev Hin.
    apply list_elem_of_In, in_map_iff in Hin as (? & <- & ?). done. }
  unfold start_game_try. repeat case_match; simpl;
    repeat first [ apply Forall_nil_2 | apply Forall_cons_2; [done|]
                 | apply Forall_app_2 | apply Hs
                 | match goal with
                   | H : launch_match ?e ?g ?h ?gs ?mk = (?evs, _)
                     |- Forall launcher_event ?evs =>
                       pose proof (launch_match_events e g h gs mk) as Hl;
                       rewrite H in Hl; exact Hl
                   end ].
Qed.

Lemma start_game_try_all_players env host team1 team2 queue :
  tr_all_players (start_game_try env (host :: team1) team2 queue)
  = Some ((host :: team1) ++ team2).
Proof. unfold start_game_try. by repeat case_match. Qed.

Lemma registered_violations_app evs evs' :
  registered_violations (evs ++ evs')
  = registered_violations evs ++ registered_violations evs'.
Proof. unfold registered_violations. apply flat_map_app. Qed.

Lemma finished_app gid evs evs' :
  finished gid (evs ++ evs') = (finished gid evs + finished gid evs')%nat.
Proof. unfold finished. by rewrite List.filter_app, length_app. Qed.

Lemma launcher_events_quiet evs gid :
  Forall launcher_event evs →
  registered_violations evs = [] ∧ finished gid evs = 0%nat.
Proof.
  induction 1 as [|ev evs Hev _ [IH1 IH2]]; [done|].
  unfold registered_violations, finished in *. simpl.
  destruct ev; try done; simpl; by rewrite ?IH1, ?IH2.
Qed.

(** The loop of the handler: a message for every player, the players that
    were starting made idle, no other effect. *)
Lemma cancel_players_spec msg players : ∀ st st' evs,
  cancel_players msg st players = (st', evs) →
  (∀ p, p ∈ players → EvWriteMessage (player_id p) msg ∈ evs) ∧
  (∀ pid, st' !! pid
          = if bool_decide (pid ∈ map player_id players
                            ∧ st !! pid = Some STARTING_AUTOMATCH)
            then Some IDLE else st !! pid) ∧
  registered_violations evs = [] ∧
  (∀ gid, finished gid evs = 0%nat).
Proof.
  induction players as [|p players IH]; intros st st' evs Hc; simpl in Hc.
  - simplify_eq. split_and!; try done.
    intros p Hp. by apply elem_of_nil in Hp.
  - destruct (decide (st !! player_id p = Some STARTING_AUTOMATCH)) as [Es|Es].
    + rewrite Es in Hc.
      destruct (cancel_players msg (<[player_id p:=IDLE]> st) players)
        as [st1 evs1] eqn:E.
      simplify_eq/=. destruct (IH _ _ _ E) as (H1 & H2 & H3 & H4).
      split_and!; [| |done|apply H4].
      * intros q [->|Hq]%elem_of_cons; [right; left|right; right; auto].
      * intros pid. rewrite H2.
        destruct (decide (pid = player_id p)) as [->|Hne].
        -- rewrite lookup_insert_eq, Es.
           repeat case_bool_decide; try done; exfalso;
             set_unfold; intuition congruence.
        -- rewrite lookup_insert_ne by done.
           repeat case_bool_decide; try done; exfalso;
             set_unfold; intuition congruence.
    + assert (Hc' : (let '(st0, evs0) := cancel_players msg st players in
                     (st0, EvWriteMessage (player_id p) msg :: evs0))
                    = (st', evs)).
      { destruct (st !! player_id p) as [[]|]; try done. }
      clear Hc.
      destruct (cancel_players msg st players) as [st1 evs1] eqn:E.
      simplify_eq/=. destruct (IH _ _ _ E) as (H1 & H2 & H3 & H4).
      split_and!; [| |done|apply H4].
      * intros q [->|Hq]%elem_of_cons; [left|right; auto].
      * intros pid. rewrite H2.
        repeat case_bool_decide; try done; exfalso;
             set_unfold; intuition congruence.
Qed.

Lemma classify_abandoning e :
  e ≠ TimeoutError → ∃ label, classify e = Some (label, abandoning e).
Proof. destruct e; intros He; try done; simpl; eauto. Qed.

(** The cleanup of the handler.  For every failure raised in [_start_game]
    other than a bare [asyncio.TimeoutError]: [game.on_game_finish()] is
    called once if a game was created and not at all otherwise; every player
    of both teams is sent [match_cancelled] with the game's id (null without
    a game); every player of the teams who is in the starting state is idle
    afterwards; and the players handed to [register_violations] are exactly
    those the error names. *)
Theorem start_game_failure env team1 team2 queue e :
  let t := start_game_try env team1 team2 queue in
  let r := _start_game env team1 team2 queue in
  length team1 = length team2 →
  tr_error t = Some e →
  e ≠ TimeoutError →
  (∀ gid, finished gid (sr_events r)
          = if bool_decide (Game.id <$> tr_game t = Some gid)
            then 1%nat else 0%nat) ∧
  (∀ p, p ∈ team1 ++ team2 →
        EvWriteMessage (player_id p) (match_cancelled (Game.id <$> tr_game t))
        ∈ sr_events r) ∧
  (∀ p, p ∈ team1 ++ team2 →
        player_state env !! player_id p = Some STARTING_AUTOMATCH →
        sr_player_state r !! player_id p = Some IDLE) ∧
  registered_violations (sr_events r) = abandoning e.
Proof.
  intros t r Hlen Herr Hne. subst r. unfold _start_game. fold t.
  rewrite Herr. destruct (classify_abandoning e Hne) as [label ->].
  pose proof (start_game_try_events env team1 team2 queue) as Hev. fold t in Hev.
  assert (Hq : ∀ gid,
    registered_violations
      (match tr_game t with
       | Some game => (tr_events t ++ [EvMatches (queue_name queue) label])
                      ++ [EvOnGameFinish (Game.id game)]
       | None => tr_events t ++ [EvMatches (queue_name queue) label]
       end) = [] ∧
    finished gid
      (match tr_game t with
       | Some game => (tr_events t ++ [EvMatches (queue_name queue) label])
                      ++ [EvOnGameFinish (Game.id game)]
       | None => tr_events t ++ [EvMatches (queue_name queue) label]
       end) = if bool_decide (Game.id <$> tr_game t = Some gid)
              then 1%nat else 0%nat).
  { intros gid.
    destruct (launcher_events_quiet _ gid Hev) as [Hr Hf].
    destruct (tr_game t) as [game|]; simpl;
      rewrite ?registered_violations_app, ?finished_app, Hr, Hf; simpl.
    - split; [done|]. unfold finished; simpl.
      repeat case_bool_decide; simplify_eq; done.
    - done. }
  destruct team1 as [|host team1].
  - (* [all_players] is not bound: there is no player to tell *)
    destruct team2; [|done].
    assert (Ht : t = {| tr_events := []; tr_game := None;
                        tr_error := Some IndexError;
                        tr_all_players := None |}) by done.
    rewrite Ht in *. simplify_eq/=. split_and!; try done.
    + intros p Hp. by apply elem_of_nil in Hp.
    + intros p Hp. by apply elem_of_nil in Hp.
  - assert (Hall : tr_all_players t = Some ((host :: team1) ++ team2))
      by apply start_game_try_all_players.
    rewrite Hall.
    destruct (cancel_players (match_cancelled (Game.id <$> tr_game t))
                (player_state env) ((host :: team1) ++ team2))
      as [st cancel] eqn:Hc.
    destruct (cancel_players_spec _ _ _ _ _ Hc) as (Hmsg & Hst & Hr & Hf).
    simpl sr_events. simpl sr_player_state.
    split_and!.
    + intros gid. destruct (Hq gid) as [_ Hq2].
      rewrite !finished_app, Hq2, Hf.
      replace (finished gid _) with 0%nat; [lia|].
      by destruct (abandoning e).
    + intros p Hp. rewrite !elem_of_app. right; left. by apply Hmsg.
    + intros p Hp Hs. rewrite Hst, bool_decide_eq_true_2; [done|].
      split; [|done]. apply list_elem_of_In, in_map, list_elem_of_In, Hp.
    + destruct (Hq 0) as [Hq1 _].
      rewrite !registered_violations_app, Hq1, Hr. simpl.
      destruct (abandoning e); simpl; [done|]. by rewrite app_nil_r.
Qed.

Lemma start_game_failure_witness :
  registered_violations
    (sr_events (_start_game Sample.env_host_timeout [Sample.alice]
                  [Sample.bob] Sample.ladder1v1))
  = abandoning (NotConnectedError [Sample.alice]).
Proof.
  refine (proj2 (proj2 (proj2
            (start_game_failure Sample.env_host_timeout [Sample.alice]
               [Sample.bob] Sample.ladder1v1
               (NotConnectedError [Sample.alice]) _ _ _)))).
  - reflexivity.
  - vm_compute; reflexivity.
  - discriminate.
Defined.

(** The cleanup does not cover every failure: when reading the game history
    ends in a bare [asyncio.TimeoutError], the assertion of the handler
    fails and nobody is sent [match_cancelled]. *)
Lemma start_game_failure_counterexample :
  ¬ (∀ env team1 team2 queue e,
        length team1 = length team2 →
        tr_error (start_game_try env team1 team2 queue) = Some e →
        ∀ p, p ∈ team1 ++ team2 →
          EvWriteMessage (player_id p)
            (match_cancelled
               (Game.id <$> tr_game (start_game_try env team1 team2 queue)))
          ∈ sr_events (_start_game env team1 team2 queue)).
Proof.
  intros H.
  specialize (H Sample.env_history_timeout [Sample.alice] [Sample.bob]
                Sample.ladder1v1 TimeoutError eq_refl).
  assert (Hs : sr_events (_start_game Sample.env_history_timeout
                            [Sample.alice] [Sample.bob] Sample.ladder1v1) = [])
    by (vm_compute; reflexivity).
  rewrite Hs in H.
  assert (He : tr_error (start_game_try Sample.env_history_timeout
                           [Sample.alice] [Sample.bob] Sample.ladder1v1)
               = Some TimeoutError) by (vm_compute; reflexivity).
  specialize (H He Sample.alice).
  apply (elem_of_nil (A:=Event)) in H; [done|]. left.
Qed.

(** C4.  The handler of [_start_game] asserts that no bare
    [asyncio.TimeoutError] reaches it (All timeout errors should be
    transformed by the match starter), but [get_game_history] is awaited
    inside the same [try] and nothing transforms its errors.  When it ends
    in a bare [asyncio.TimeoutError] for alice against bob, no game has been
    created, the assertion fails and [AssertionError] leaves the coroutine
    before the cleanup: no metric is counted, nobody is sent
    [match_cancelled], no violation is registered, and both players stay in
    the starting state. *)
Lemma start_game_bare_timeout :
  let t := start_game_try Sample.env_history_timeout [Sample.alice]
             [Sample.bob] Sample.ladder1v1 in
  let r := _start_game Sample.env_history_timeout [Sample.alice] [Sample.bob]
             Sample.ladder1v1 in
  tr_error t = Some TimeoutError ∧
  tr_game t = None ∧
  classify TimeoutError = None ∧
  sr_raised r = Some AssertionError ∧
  sr_events r = [] ∧
  registered_violations (sr_events r) = [] ∧
  sr_player_state r !! player_id Sample.alice = Some STARTING_AUTOMATCH ∧
  sr_player_state r !! player_id Sample.bob = Some STARTING_AUTOMATCH.
Proof. cbv zeta. split_and!; vm_compute; reflexivity. Qed.

(** ** Timed-out players *)

Lemma dict_del_subset {V} (d : list (Z * V)) k x :
  x ∈ Dict.del d k → x ∈ d.
Proof.
  induction d as [|[k' v'] d IH]; simpl; [done|].
  case_decide; [by right|].
  intros [->|Hx]%elem_of_cons; [left|right; auto].
Qed.

Lemma dict_del_other {V} (d : list (Z * V)) k x :
  x ∈ d → x.1 ≠ k → x ∈ Dict.del d k.
Proof.
  induction d as [|[k' v'] d IH]; simpl; [done|].
  intros [->|Hx]%elem_of_cons Hk.
  - rewrite decide_False by done. left.
  - case_decide; [done|]. right. auto.
Qed.

(** Every entry of [get_violations] is an active violation of a player of
    the request. *)
Lemma get_violations_sound violations now players pid p v :
  (pid, (p, v)) ∈ get_violations violations now players →
  pid = player_id p ∧ p ∈ players ∧
  violations !! player_id p = Some v ∧ now < ban_expires_at v.
Proof.
  induction players as [|p0 players IH]; simpl; [by intros ?%elem_of_nil|].
  destruct (violations !! player_id p0) as [v0|] eqn:E.
  - case_bool_decide as Hact.
    + intros [Heq|Hin%dict_del_subset]%elem_of_cons.
      * simplify_eq. split_and!; [done|left|done|done].
      * destruct (IH Hin) as (? & ? & ? & ?). split_and!; try done. by right.
    + intros Hin. destruct (IH Hin) as (? & ? & ? & ?).
      split_and!; try done. by right.
  - intros Hin. destruct (IH Hin) as (? & ? & ? & ?).
    split_and!; try done. by right.
Qed.

(** Every player of the request with an active violation is listed. *)
Lemma get_violations_complete violations now players p v :
  p ∈ players → violations !! player_id p = Some v → now < ban_expires_at v →
  ∃ p', (player_id p, (p', v)) ∈ get_violations violations now players.
Proof.
  intros Hp Hv Hact.
  induction players as [|p0 players IH]; [by apply elem_of_nil in Hp|].
  simpl. destruct (decide (player_id p0 = player_id p)) as [Heq|Hne].
  - rewrite Heq, Hv. unfold get_ban_expiration.
    rewrite bool_decide_eq_true_2 by done. exists p0. left.
  - apply elem_of_cons in Hp as [->|Hp]; [done|].
    destruct (IH Hp) as [p' Hin]. exists p'.
    destruct (violations !! player_id p0) as [v0|]; [|done].
    case_bool_decide; [|done].
    right. by apply dict_del_other.
Qed.

Lemma max_by_expiration_spec vs : ∀ v,
  let m := max_by_expiration v vs in
  m ∈ v :: vs ∧ ∀ y, y ∈ v :: vs → ban_expires_at y ≤ ban_expires_at m.
Proof.
  unfold max_by_expiration, get_ban_expiration.
  induction vs as [|y vs IH]; intros v; simpl.
  - split; [left|]. intros y [->|[]%elem_of_nil]%elem_of_cons. lia.
  - case_bool_decide as Hlt.
    + destruct (IH y) as [Hin Hmax]. split.
      * right. exact Hin.
      * intros z [->|Hz]%elem_of_cons; [|by apply Hmax].
        specialize (Hmax y (list_elem_of_here _ _)). lia.
    + destruct (IH v) as [Hin Hmax]. split.
      * apply elem_of_cons in Hin as [->|Hin]; [left|right; right; done].
      * intros z [->|[->|Hz]%elem_of_cons]%elem_of_cons.
        -- apply Hmax. left.
        -- specialize (Hmax v (list_elem_of_here _ _)). lia.
        -- apply Hmax. by right.
Qed.

Lemma values_elem_of {V} (d : list (Z * V)) x :
  x ∈ Dict.values d ↔ ∃ k, (k, x) ∈ d.
Proof.
  unfold Dict.values. rewrite list_elem_of_In, in_map_iff. split.
  - intros ([k y] & <- & Hin). exists k. by apply list_elem_of_In.
  - intros [k Hin]. exists (k, x). split; [done|]. by apply list_elem_of_In.
Qed.

(** C5.  When a player of the party has an active violation, [start_search]
    leaves the service as it is (no search is created or registered, nothing
    is enqueued) and writes to every player of the party, in this order: a
    [search_timeout] listing every active violation of the party, a
    [search_info] with state "stop" for the queue, and a notice that names
    the timed-out players and the longest remaining ban. *)
Theorem start_search_timed_out s violations now fresh players queue_name p0 v0 :
  p0 ∈ players →
  violations !! player_id p0 = Some v0 →
  now < ban_expires_at v0 →
  let timeouts := Dict.values (get_violations violations now players) in
  let times := map (λ pv, (player_id pv.1, ban_expires_at pv.2)) timeouts in
  let names := join ", " (map (λ pv, login pv.1) timeouts) in
  let one := bool_decide (length timeouts = 1%nat) in
  ∃ max_time,
    (∀ p v, (p, v) ∈ timeouts →
            p ∈ players ∧ violations !! player_id p = Some v
            ∧ now < ban_expires_at v) ∧
    (∀ p v, p ∈ players → violations !! player_id p = Some v →
            now < ban_expires_at v →
            (player_id p, ban_expires_at v) ∈ times) ∧
    (∃ pv, pv ∈ timeouts ∧ max_time = get_remaining now pv.2) ∧
    (∀ pv, pv ∈ timeouts → get_remaining now pv.2 ≤ max_time) ∧
    start_search s violations now fresh players queue_name
    = (s,
       flat_map
         (λ player,
            [EvWriteMessage (player_id player) (search_timeout times);
             EvWriteMessage (player_id player) (search_info queue_name "stop");
             EvWriteMessage (player_id player)
               (notice "info"
                  [Lit ("Player" +:+ (if one then "" else "s") +:+ " "
                        +:+ names +:+ " " +:+ (if one then "is" else "are")
                        +:+ " timed out for ");
                   NaturalDelta max_time])])
         players,
       None).
Proof.
  intros Hp0 Hv0 Hact timeouts times names one.
  destruct (get_violations_complete _ _ _ _ _ Hp0 Hv0 Hact) as [p' Hin].
  assert (Hne : (p', v0) ∈ timeouts) by (apply values_elem_of; eauto).
  destruct timeouts as [|first others] eqn:Et; [by apply elem_of_nil in Hne|].
  destruct (max_by_expiration_spec (map snd others) first.2) as [Hmem Hmax].
  exists (get_remaining now (max_by_expiration first.2 (map snd others))).
  split_and!.
  - intros p v Hpv. rewrite <- Et in Hpv.
    apply values_elem_of in Hpv as [k Hk].
    apply get_violations_sound in Hk as (_ & ? & ? & ?). done.
  - intros p v Hp Hv Ha.
    destruct (get_violations_complete _ _ _ _ _ Hp Hv Ha) as [q Hq].
    pose proof Hq as (Hid & _)%get_violations_sound.
    assert (Hq' : (q, v) ∈ first :: others).
    { rewrite <- Et. apply values_elem_of. eauto. }
    subst times. apply list_elem_of_In, in_map_iff. exists (q, v).
    split; [by simpl; rewrite Hid|]. by apply list_elem_of_In.
  - change (first.2 :: map snd others) with (map snd (first :: others)) in Hmem.
    apply list_elem_of_In, in_map_iff in Hmem as (pv & Hpv & Hin').
    exists pv. split; [by apply list_elem_of_In|]. by rewrite Hpv.
  - intros pv Hpv. unfold get_remaining, get_ban_expiration.
    assert (ban_expires_at pv.2
            ≤ ban_expires_at (max_by_expiration first.2 (map snd others))).
    { apply Hmax.
      change (first.2 :: map snd others) with (map snd (first :: others)).
      apply list_elem_of_In, in_map, list_elem_of_In, Hpv. }
    lia.
  - unfold start_search. fold timeouts. rewrite Et.
    f_equal. f_equal. apply flat_map_ext. intros player.
    unfold timeout_messages. subst times one. simpl length.
    rewrite length_map. unfold get_ban_expiration.
    by case_bool_decide.
Qed.

Lemma start_search_timed_out_witness :
  (start_search SampleService.service SampleService.violations 0 7
     [Sample.carol] "ladder1v1").1.1 = SampleService.service.
Proof.
  destruct (start_search_timed_out SampleService.service
              SampleService.violations 0 7 [Sample.carol] "ladder1v1"
              Sample.carol {| time_offended := 0; ban_expires_at := 240 |})
    as (max_time & _ & _ & _ & _ & ->).
  - left.
  - vm_compute; reflexivity.
  - reflexivity.
  - reflexivity.
Defined.

(** ** Rating-progress notices *)

Lemma progress_notices_app pid evs evs' :
  progress_notices pid (evs ++ evs')
  = (progress_notices pid evs + progress_notices pid evs')%nat.
Proof. unfold progress_notices. by rewrite List.filter_app, length_app. Qed.

Lemma foldl_invariant {A B} (P : B → Prop) (f : B → A → B) (l : list A) :
  ∀ b, P b → (∀ b x, P b → P (f b x)) → P (foldl f b l).
Proof. induction l as [|x l IH]; intros b Hb Hf; simpl; auto. Qed.

Lemma searches_of_informed s pid :
  _informed_players (searches_of s pid).2 = _informed_players s.
Proof. unfold searches_of. by destruct (_searches s !! pid). Qed.

Lemma _clear_search_informed s initiator queue_name :
  _informed_players (_clear_search s initiator queue_name).2
  = _informed_players s.
Proof.
  unfold _clear_search.
  pose proof (searches_of_informed s (player_id initiator)) as H0.
  destruct (searches_of s (player_id initiator)) as [d s1]. simpl in H0.
  destruct (Dict.get d queue_name) as [search|]; [|done]. simpl.
  rewrite <- H0.
  apply (foldl_invariant (λ s', _informed_players s' = _informed_players s1));
    [done|].
  intros s2 player <-.
  pose proof (searches_of_informed s2 (player_id player)) as H2.
  by destruct (searches_of s2 (player_id player)).
Qed.

(** Cancelling a search neither informs anybody nor writes a notice. *)
Lemma _cancel_search_quiet pid s initiator queue_name :
  _informed_players (_cancel_search s initiator queue_name).1
  = _informed_players s ∧
  progress_notices pid (_cancel_search s initiator queue_name).2 = 0%nat.
Proof.
  unfold _cancel_search.
  pose proof (_clear_search_informed s initiator queue_name) as H0.
  destruct (_clear_search s initiator queue_name) as [[search|] s1];
    simpl in H0; [|done].
  rewrite <- H0.
  apply (foldl_invariant
           (λ acc : LadderService * list Event,
              _informed_players acc.1 = _informed_players s1
              ∧ progress_notices pid acc.2 = 0%nat)); [done|].
  intros [s2 evs] player [H1 H2]. simpl in *.
  pose proof (searches_of_informed s2 (player_id player)) as H3.
  destruct (searches_of s2 (player_id player)) as [d s3]. simpl in *.
  rewrite progress_notices_app, H2. split; [|done].
  rewrite <- H1, <- H3. by repeat case_match.
Qed.

Lemma cancel_search_quiet pid s initiator queue_name :
  _informed_players (cancel_search s initiator queue_name).1
  = _informed_players s ∧
  progress_notices pid (cancel_search s initiator queue_name).2 = 0%nat.
Proof.
  unfold cancel_search.
  assert (H0 : ∀ names s1, _informed_players s1 = _informed_players s →
    let r := foldl (λ '(s, evs) queue_name,
                      let '(s, evs') := _cancel_search s initiator queue_name in
                      (s, evs ++ evs')) (s1, []) names in
    _informed_players r.1 = _informed_players s
    ∧ progress_notices pid r.2 = 0%nat).
  { intros names s1 Hs1.
    apply (foldl_invariant
             (λ acc : LadderService * list Event,
                _informed_players acc.1 = _informed_players s
                ∧ progress_notices pid acc.2 = 0%nat)); [done|].
    intros [s2 evs] name [H1 H2]. simpl in *.
    destruct (_cancel_search_quiet pid s2 initiator name) as [H3 H4].
    destruct (_cancel_search s2 initiator name) as [s3 evs3]. simpl in *.
    rewrite progress_notices_app, H2, H4. split; [congruence|done]. }
  destruct queue_name as [name|].
  - by apply H0.
  - pose proof (searches_of_informed s (player_id initiator)) as H1.
    destruct (searches_of s (player_id initiator)) as [d s1]. by apply H0.
Qed.

Lemma Qlt_bool_iff x y : Qlt_bool x y = true ↔ (x < y)%Q.
Proof.
  unfold Qlt_bool. rewrite negb_true_iff, <- not_true_iff_false, Qle_bool_iff.
  split; [apply Qnot_le_lt | apply Qlt_not_le].
Qed.

(** What [write_rating_progress] does for a player met for the first time. *)
Lemma write_rating_progress_first s player rating_type :
  player_id player ∉ _informed_players s →
  let d := deviation (ratings player rating_type) in
  _informed_players (write_rating_progress s player rating_type).1
  = {[player_id player]} ∪ _informed_players s ∧
  (write_rating_progress s player rating_type).2
  = if Qlt_bool 490 d then
      [EvWriteMessage (player_id player) (notice "info" welcome_text)]
    else if Qlt_bool 250 d then
      [EvWriteMessage (player_id player)
         (notice "info" (calibration_text ((500 - d) / 2.5)%Q))]
    else [].
Proof.
  intros Hnot d. unfold write_rating_progress.
  rewrite bool_decide_eq_false_2 by done. fold d.
  by destruct (Qlt_bool 490 d), (Qlt_bool 250 d).
Qed.

Lemma write_rating_progress_known s player rating_type :
  player_id player ∈ _informed_players s →
  write_rating_progress s player rating_type = (s, []).
Proof.
  intros Hin. unfold write_rating_progress.
  by rewrite bool_decide_eq_true_2.
Qed.

(** Each notice is paid for by the player entering the informed set. *)
Lemma write_rating_progress_potential pid s player rating_type :
  (progress_notices pid (write_rating_progress s player rating_type).2
   + informed pid s
   ≤ informed pid (write_rating_progress s player rating_type).1)%nat.
Proof.
  destruct (decide (player_id player ∈ _informed_players s)) as [Hin|Hnot].
  - rewrite write_rating_progress_known by done. simpl. lia.
  - destruct (write_rating_progress_first s player rating_type Hnot)
      as [Hs Hevs].
    unfold informed. rewrite Hs, Hevs.
    destruct (decide (pid = player_id player)) as [->|Hne].
    + rewrite bool_decide_eq_false_2 by done.
      rewrite bool_decide_eq_true_2
        by (apply elem_of_union_l, elem_of_singleton; done).
      unfold progress_notices.
      repeat case_match; simpl; rewrite ?bool_decide_eq_true_2 by done;
        simpl; lia.
    + assert (Hiff : bool_decide (pid ∈ {[player_id player]}
                                        ∪ _informed_players s)
                     = bool_decide (pid ∈ _informed_players s))
        by (apply bool_decide_ext;
            rewrite elem_of_union, elem_of_singleton; tauto).
      rewrite Hiff. unfold progress_notices.
      repeat case_match; simpl;
        rewrite ?bool_decide_eq_false_2 by congruence; simpl; lia.
Qed.

Lemma timeout_messages_quiet pid now queue_name first others players :
  progress_notices pid
    (flat_map (timeout_messages now queue_name first others) players) = 0%nat.
Proof.
  induction players as [|p players IH]; [done|].
  simpl. rewrite progress_notices_app, IH.
  unfold timeout_messages. by case_bool_decide.
Qed.

Lemma start_search_potential pid s violations now fresh players queue_name :
  let r := (start_search s violations now fresh players queue_name).1 in
  (progress_notices pid r.2 + informed pid s ≤ informed pid r.1)%nat.
Proof.
  unfold start_search.
  destruct (Dict.values (get_violations violations now players))
    as [|first others].
  2: { simpl. rewrite timeout_messages_quiet. lia. }
  set (cancelled :=
         foldl (λ '(s, evs) player,
                  let '(d, s) := searches_of s (player_id player) in
                  if Dict.mem d queue_name then
                    let '(s, evs') := _cancel_search s player queue_name in
                    (s, evs ++ evs')
                  else (s, evs)) (s, []) players).
  assert (Hc : _informed_players cancelled.1 = _informed_players s
               ∧ progress_notices pid cancelled.2 = 0%nat).
  { apply (foldl_invariant
             (λ acc : LadderService * list Event,
                _informed_players acc.1 = _informed_players s
                ∧ progress_notices pid acc.2 = 0%nat)); [done|].
    intros [s2 evs] player [H1 H2]. simpl in *.
    pose proof (searches_of_informed s2 (player_id player)) as H3.
    destruct (searches_of s2 (player_id player)) as [d s3]. simpl in *.
    destruct (Dict.mem d queue_name); [|simpl; split; [congruence|done]].
    destruct (_cancel_search_quiet pid s3 player queue_name) as [H4 H5].
    destruct (_cancel_search s3 player queue_name) as [s4 evs4]. simpl in *.
    rewrite progress_notices_app, H2, H5. split; [congruence|done]. }
  destruct cancelled as [s1 evs1]. destruct Hc as [Hc1 Hc2]. simpl in *.
  assert (Hi : informed pid s = informed pid s1)
    by (unfold informed; by rewrite Hc1).
  rewrite Hi.
  destruct (Dict.get (queues s1) queue_name) as [queue|]; simpl; [|lia].
  set (search := {| search_id := fresh; search_players := players;
                    search_rating_type := rating_type queue;
                    search_queue := queue_name |}).
  match goal with
  | |- context [foldl ?f (s1, evs1) players] =>
      assert (Hf : (progress_notices pid (foldl f (s1, evs1) players).2
                    + informed pid s1
                    ≤ informed pid (foldl f (s1, evs1) players).1)%nat)
  end.
  { apply (foldl_invariant
             (λ acc : LadderService * list Event,
                (progress_notices pid acc.2 + informed pid s1
                 ≤ informed pid acc.1)%nat)); [simpl; lia|].
    intros [s2 evs] player H1. simpl in *.
    set (s3 := with_states s2 (<[player_id player:=SEARCHING_LADDER]> (states s2))).
    pose proof (write_rating_progress_potential pid s3 player
                  (rating_type queue)) as H2.
    destruct (write_rating_progress s3 player (rating_type queue))
      as [s4 evs4]. simpl in *.
    pose proof (searches_of_informed s4 (player_id player)) as H3.
    destruct (searches_of s4 (player_id player)) as [d s5]. simpl in *.
    rewrite !progress_notices_app.
    change (informed pid s3) with (informed pid s2) in H2.
    assert (informed pid s5 = informed pid s4)
      by (unfold informed; by rewrite H3).
    unfold informed at 2. simpl. fold (informed pid s5).
    unfold progress_notices at 3. simpl. lia. }
  match goal with
  | |- context [foldl ?f (s1, evs1) players] =>
      destruct (foldl f (s1, evs1) players) as [s6 evs6]
  end.
  simpl in *. rewrite progress_notices_app.
  unfold progress_notices at 2. simpl. lia.
Qed.

(** ** A refresh touches the queues only *)

Lemma fetch_rating_peak_events store rating_type :
  Forall refresh_event (fetch_rating_peak store rating_type).2.
Proof.
  unfold fetch_rating_peak. simpl.
  repeat case_match; repeat constructor.
Qed.

Lemma add_map_pools_events store pools : ∀ queue,
  Forall refresh_event (add_map_pools store queue pools).1.2.
Proof.
  induction pools as [|[[map_pool_id lo] hi] pools IH]; intros queue; simpl.
  - constructor.
  - destruct (Dict.get (map_pool_maps store) map_pool_id) as [[name l]|];
      [|constructor].
    match goal with
    | |- context [add_map_pools store ?q pools] =>
        specialize (IH q); destruct (add_map_pools store q pools) as [[q' evs] e]
    end.
    simpl in *. destruct l; simpl; [constructor|]; done.
Qed.

Lemma update_queue_frame store s name info :
  same_but_queues s (update_queue store s name info).1.1 ∧
  Forall refresh_event (update_queue store s name info).1.2.
Proof.
  unfold update_queue.
  destruct (Dict.get (queues s) name) as [queue|].
  - pose proof (fetch_rating_peak_events store (info_rating_type info)) as Hf.
    destruct (fetch_rating_peak store (info_rating_type info)) as [peak evs].
    match goal with
    | |- context [add_map_pools store ?q ?ps] =>
        pose proof (add_map_pools_events store ps q) as Ha;
        destruct (add_map_pools store q ps) as [[q' evs'] e]
    end.
    simpl in *. split; [done|]. by apply Forall_app_2.
  - match goal with
    | |- context [add_map_pools store ?q ?ps] =>
        pose proof (add_map_pools_events store ps q) as Ha;
        destruct (add_map_pools store q ps) as [[q' evs'] e]
    end.
    simpl in *. split; [done|]. done.
Qed.

Lemma same_but_queues_trans s1 s2 s3 :
  same_but_queues s1 s2 → same_but_queues s2 s3 → same_but_queues s1 s3.
Proof. unfold same_but_queues. intros (?&?&?&?) (?&?&?&?). split_and!; congruence. Qed.

Lemma update_queues_frame store infos : ∀ s,
  same_but_queues s (update_queues store s infos).1.1 ∧
  Forall refresh_event (update_queues store s infos).1.2.
Proof.
  induction infos as [|[name info] infos IH]; intros s; simpl.
  - split; [done|constructor].
  - destruct (update_queue_frame store s name info) as [H1 H2].
    destruct (update_queue store s name info) as [[s1 evs1] [e|]]; [done|].
    specialize (IH s1).
    destruct (update_queues store s1 infos) as [[s2 evs2] e]. simpl in *.
    destruct IH as [H3 H4]. split.
    + by eapply same_but_queues_trans.
    + by apply Forall_app_2.
Qed.

Lemma remove_absent_queues_frame store s :
  same_but_queues s (remove_absent_queues store s).
Proof.
  unfold remove_absent_queues.
  apply (foldl_invariant (same_but_queues s)); [done|].
  intros s' name Hs'. by destruct (Dict.mem (db_queues store) name).
Qed.

Lemma update_data_frame store s :
  same_but_queues s (update_data store s).1.1 ∧
  Forall refresh_event (update_data store s).1.2.
Proof.
  unfold update_data.
  destruct (update_queues_frame store (db_queues store) s) as [H1 H2].
  destruct (update_queues store s (db_queues store)) as [[s1 evs1] [e|]];
    [done|].
  simpl in *. split; [|done].
  eapply same_but_queues_trans; [done|]. apply remove_absent_queues_frame.
Qed.

Lemma refresh_events_quiet pid evs :
  Forall refresh_event evs →
  progress_notices pid evs = 0%nat ∧ cancelled_searches evs = [].
Proof.
  induction 1 as [|ev evs Hev _ [IH1 IH2]]; [done|].
  unfold progress_notices, cancelled_searches in *.
  destruct ev; try done; simpl; by rewrite ?IH1, ?IH2.
Qed.

Lemma on_connection_lost_potential pid s player :
  ¬ loses_connection pid (ConnectionLost player) →
  (progress_notices pid (on_connection_lost s player).2 + informed pid s
   ≤ informed pid (on_connection_lost s player).1)%nat.
Proof.
  intros Hne. unfold on_connection_lost.
  destruct player as [player|]; [|simpl; lia]. simpl in Hne.
  destruct (cancel_search_quiet pid s player None) as [H1 H2].
  destruct (cancel_search s player None) as [s1 evs1]. simpl in *.
  rewrite H2. unfold informed. simpl. rewrite H1.
  match goal with
  | |- (_ ≤ if bool_decide ?P then _ else _)%nat =>
      assert (Hiff : P ↔ pid ∈ _informed_players s)
  end.
  { case_bool_decide; simpl; rewrite ?H1; [|done].
    rewrite elem_of_difference, elem_of_singleton.
    split; [tauto|]. intros; split; [done|congruence]. }
  rewrite (bool_decide_ext _ _ Hiff). lia.
Qed.

Lemma call_potential pid s c :
  ¬ loses_connection pid c →
  (progress_notices pid (call s c).2 + informed pid s
   ≤ informed pid (call s c).1)%nat.
Proof.
  intros Hne.
  destruct c as [violations now fresh players name | initiator name
                | player rating_type | player | store]; simpl.
  - apply start_search_potential.
  - destruct (cancel_search_quiet pid s initiator name) as [H1 H2].
    rewrite H2. unfold informed. rewrite H1. lia.
  - apply write_rating_progress_potential.
  - by apply on_connection_lost_potential.
  - destruct (update_data_frame store s) as [(_ & H1 & _) H2].
    apply (refresh_events_quiet pid) in H2 as [H2 _].
    rewrite H2. unfold informed. rewrite H1. lia.
Qed.

(** As long as the player's connection is not lost, the notices written
    to the player are paid for by the informed set. *)
Lemma run_potential pid calls : ∀ s,
  Forall (λ c, ¬ loses_connection pid c) calls →
  (progress_notices pid (run s calls).2 + informed pid s
   ≤ informed pid (run s calls).1)%nat.
Proof.
  induction calls as [|c calls IH]; intros s Hall; simpl; [lia|].
  apply Forall_cons in Hall as [Hc Hall].
  pose proof (call_potential pid s c Hc) as H1.
  destruct (call s c) as [s1 evs1].
  specialize (IH s1 Hall).
  destruct (run s1 calls) as [s2 evs2]. simpl in *.
  rewrite progress_notices_app. lia.
Qed.

Lemma informed_le_1 pid s : (informed pid s ≤ 1)%nat.
Proof. unfold informed. case_bool_decide; lia. Qed.

(** C7 (as amended).  A player met for the first time is sent the welcome
    notice when the deviation is above 490 and otherwise, when it is above
    250, the calibration notice with (500 - deviation) / 2.5 percent; and
    in any sequence of calls into the service in which the player's
    connection is not lost, at most one such notice is written to the
    player. *)
Theorem rating_progress_once s player rating_type calls :
  let d := deviation (ratings player rating_type) in
  (player_id player ∉ _informed_players s →
   (490 < d)%Q →
   (write_rating_progress s player rating_type).2
   = [EvWriteMessage (player_id player) (notice "info" welcome_text)]) ∧
  (player_id player ∉ _informed_players s →
   ¬ (490 < d)%Q → (250 < d)%Q →
   (write_rating_progress s player rating_type).2
   = [EvWriteMessage (player_id player)
        (notice "info" (calibration_text ((500 - d) / 2.5)%Q))]) ∧
  (Forall (λ c, ¬ loses_connection (player_id player) c) calls →
   (progress_notices (player_id player) (run s calls).2 ≤ 1)%nat).
Proof.
  intros d. split_and!.
  - intros Hnot Hd.
    destruct (write_rating_progress_first s player rating_type Hnot) as [_ ->].
    fold d. apply Qlt_bool_iff in Hd. by rewrite Hd.
  - intros Hnot Hd1 Hd2.
    destruct (write_rating_progress_first s player rating_type Hnot) as [_ ->].
    fold d. apply Qlt_bool_iff in Hd2. rewrite Hd2.
    destruct (Qlt_bool 490 d) eqn:E; [|done].
    by apply Qlt_bool_iff in E.
  - intros Hall.
    pose proof (run_potential (player_id player) calls s Hall).
    pose proof (informed_le_1 (player_id player) (run s calls).1). lia.
Qed.

Lemma rating_progress_once_witness :
  (progress_notices (player_id SampleService.erin)
     (run SampleService.service
        [WriteRatingProgress SampleService.erin "ladder_1v1";
         WriteRatingProgress SampleService.erin "ladder_1v1"]).2 ≤ 1)%nat.
Proof.
  refine (proj2 (proj2
            (rating_progress_once SampleService.service SampleService.erin
               "ladder_1v1"
               [WriteRatingProgress SampleService.erin "ladder_1v1";
                WriteRatingProgress SampleService.erin "ladder_1v1"])) _).
  repeat constructor; simpl; tauto.
Defined.

(** C7, counterexample.  erin, a newcomer, starts a search, loses the
    connection and starts a search again: the welcome notice is written
    twice in the lifetime of the process. *)
Lemma rating_progress_twice_counterexample :
  ¬ (∀ s calls pid, (progress_notices pid (run s calls).2 ≤ 1)%nat).
Proof.
  intros H.
  specialize (H SampleService.service
                [StartSearch ∅ 0 7 [SampleService.erin] "ladder1v1";
                 ConnectionLost (Some SampleService.erin);
                 StartSearch ∅ 0 8 [SampleService.erin] "ladder1v1"]
                5).
  vm_compute in H. lia.
Qed.

(** C10.  For a player who is not marked as informed and whose deviation
    is at most 250, [write_rating_progress] writes nothing and marks the
    player; from then on, whatever is called and whatever deviation is seen,
    no rating-progress notice is written to the player as long as the
    player's connection is not lost. *)
Theorem calibrated_player_never_told s player rating_type calls :
  player_id player ∉ _informed_players s →
  (deviation (ratings player rating_type) <= 250)%Q →
  Forall (λ c, ¬ loses_connection (player_id player) c) calls →
  let r := write_rating_progress s player rating_type in
  r.2 = [] ∧
  player_id player ∈ _informed_players r.1 ∧
  progress_notices (player_id player) (run r.1 calls).2 = 0%nat.
Proof.
  intros Hnot Hd Hall r.
  destruct (write_rating_progress_first s player rating_type Hnot) as [Hs Hevs].
  assert (H250 : Qlt_bool 250 (deviation (ratings player rating_type)) = false).
  { apply not_true_iff_false. rewrite Qlt_bool_iff. by apply Qle_not_lt. }
  assert (H490 : Qlt_bool 490 (deviation (ratings player rating_type)) = false).
  { apply not_true_iff_false. rewrite Qlt_bool_iff. apply Qle_not_lt.
    eapply Qle_trans; [exact Hd|]. by vm_compute. }
  rewrite H250, H490 in Hevs.
  assert (Hin : player_id player ∈ _informed_players r.1).
  { subst r. rewrite Hs. apply elem_of_union_l, elem_of_singleton. done. }
  split_and!; [done|done|].
  pose proof (run_potential (player_id player) calls r.1 Hall) as Hp.
  pose proof (informed_le_1 (player_id player) (run r.1 calls).1) as H1.
  assert (informed (player_id player) r.1 = 1%nat)
    by (unfold informed; by rewrite bool_decide_eq_true_2).
  lia.
Qed.

Lemma calibrated_player_never_told_witness :
  progress_notices (player_id SampleService.erin_calibrated)
    (run (write_rating_progress SampleService.service
            SampleService.erin_calibrated "ladder_1v1").1
         [StartSearch ∅ 0 7 [SampleService.erin] "ladder1v1"]).2 = 0%nat.
Proof.
  refine (proj2 (proj2
            (calibrated_player_never_told SampleService.service
               SampleService.erin_calibrated "ladder_1v1"
               [StartSearch ∅ 0 7 [SampleService.erin] "ladder1v1"]
               _ _ _))).
  - vm_compute. intros H. set_solver.
  - by vm_compute.
  - repeat constructor; simpl; tauto.
Defined.

(** ** Queues after a refresh *)

Lemma dict_get_app_None {V} (d d' : list (string * V)) k :
  Dict.get d k = None → Dict.get (d ++ d') k = Dict.get d' k.
Proof.
  induction d as [|[k' v'] d IH]; simpl; [done|].
  case_decide; [done|]. exact IH.
Qed.

Lemma dict_del_app_None {V} (d d' : list (string * V)) k :
  Dict.get d k = None → Dict.del (d ++ d') k = d ++ Dict.del d' k.
Proof.
  induction d as [|[k' v'] d IH]; simpl; [done|].
  case_decide; [done|]. intros H'. by rewrite IH.
Qed.

Lemma queues_remove_fold store keys : ∀ s,
  queues (foldl (λ s queue_name,
                   if Dict.mem (db_queues store) queue_name then s
                   else with_queues s (Dict.del (queues s) queue_name))
                s keys)
  = foldl (λ q queue_name,
             if Dict.mem (db_queues store) queue_name then q
             else Dict.del q queue_name) (queues s) keys.
Proof.
  induction keys as [|k keys IH]; intros s; simpl; [done|].
  rewrite IH. by destruct (Dict.mem (db_queues store) k).
Qed.

(** The removal loop keeps exactly the queues that the store lists. *)
Lemma remove_absent_queues_filter store s :
  queues (remove_absent_queues store s)
  = filter (λ kv, Dict.mem (db_queues store) kv.1 = true) (queues s).
Proof.
  unfold remove_absent_queues. rewrite queues_remove_fold.
  generalize (queues s). intros qs.
  assert (H : ∀ rest pre : list (string * MatchmakerQueue),
    (∀ kv, kv ∈ pre → Dict.mem (db_queues store) kv.1 = true) →
    foldl (λ q queue_name,
             if Dict.mem (db_queues store) queue_name then q
             else Dict.del q queue_name) (pre ++ rest) (Dict.keys rest)
    = pre ++ filter (λ kv, Dict.mem (db_queues store) kv.1 = true) rest).
  { induction rest as [|[k v] rest IH]; intros pre Hpre; simpl.
    - by rewrite filter_nil.
    - rewrite filter_cons. simpl.
      destruct (Dict.mem (db_queues store) k) eqn:Ek.
      + rewrite decide_True by done.
        rewrite (cons_middle (k, v) pre rest), app_assoc, IH.
        * by rewrite <- app_assoc.
        * intros kv [Hkv|Hkv]%elem_of_app; [auto|].
          apply list_elem_of_singleton in Hkv. by subst kv.
      + rewrite decide_False by done.
        rewrite dict_del_app_None.
        * simpl. rewrite decide_True by done. by apply IH.
        * clear IH. induction pre as [|[k' v'] pre IHp]; simpl; [done|].
          case_decide as Hk.
          -- subst k'. specialize (Hpre (k, v') (list_elem_of_here _ _)).
             simpl in Hpre. congruence.
          -- apply IHp. intros kv Hkv. apply Hpre. by right. }
  apply (H qs []). intros kv Hkv. by apply elem_of_nil in Hkv.
Qed.

Lemma dict_get_filter_out {V} (P : string → bool) (d : list (string * V)) k :
  P k = false → Dict.get (filter (λ kv, P kv.1 = true) d) k = None.
Proof.
  intros Hk. induction d as [|[k' v'] d IH]; [done|].
  rewrite filter_cons. simpl. case_decide as HP; [|done].
  simpl. case_decide; [congruence|done].
Qed.

Lemma dict_get_filter_in {V} (P : string → bool) (d : list (string * V)) k :
  P k = true → Dict.get (filter (λ kv, P kv.1 = true) d) k = Dict.get d k.
Proof.
  intros Hk. induction d as [|[k' v'] d IH]; [done|].
  rewrite filter_cons. simpl. case_decide as HP; simpl.
  - case_decide; [done|exact IH].
  - case_decide; [congruence|exact IH].
Qed.

(** C2 (as amended).  When a refresh completes, every queue that the store
    no longer lists is gone from the queue map of the service; the searches
    registered for the players are as before, and no search is cancelled. *)
Theorem absent_queue_removed store s name :
  (update_data store s).2 = None →
  Dict.mem (db_queues store) name = false →
  let s' := (update_data store s).1.1 in
  Dict.get (queues s') name = None ∧
  _searches s' = _searches s ∧
  cancelled_searches (update_data store s).1.2 = [].
Proof.
  intros Hok Habs s'.
  destruct (update_data_frame store s) as [(_ & _ & Hs & _) Hev].
  apply (refresh_events_quiet 0) in Hev as [_ Hev].
  split_and!; [|done|done].
  subst s'. unfold update_data in *.
  destruct (update_queues store s (db_queues store)) as [[s1 evs1] [e|]];
    [done|].
  simpl. rewrite remove_absent_queues_filter.
  by apply dict_get_filter_out.
Qed.

Lemma absent_queue_removed_witness :
  Dict.get (queues (update_data SampleStore.store SampleStore.service).1.1)
           "tmm2v2" = None.
Proof.
  refine (proj1 (absent_queue_removed SampleStore.store SampleStore.service
                   "tmm2v2" _ _)).
  - vm_compute; reflexivity.
  - vm_compute; reflexivity.
Defined.

(** C2, counterexample.  The store no longer lists the 2v2 queue in which
    alice and bob are searching: the refresh removes the queue, their search
    is not cancelled. *)
Lemma absent_queue_search_counterexample :
  ¬ (∀ store s name pid d search,
        (update_data store s).2 = None →
        Dict.mem (queues s) name = true →
        Dict.mem (db_queues store) name = false →
        _searches s !! pid = Some d →
        Dict.get d name = Some search →
        search_id search ∈ cancelled_searches (update_data store s).1.2).
Proof.
  intros H.
  specialize (H SampleStore.store SampleStore.service "tmm2v2" 1
                [("tmm2v2", SampleStore.alice_and_bob)]
                SampleStore.alice_and_bob).
  assert (He : cancelled_searches
                 (update_data SampleStore.store SampleStore.service).1.2 = [])
    by (vm_compute; reflexivity).
  rewrite He in H.
  eapply elem_of_nil, H; vm_compute; reflexivity.
Qed.

(** ** The rating peak *)

Section Sorted.
Context {A : Type} (key : A → Q).

Lemma insert_by_perm x l : insert_by key x l ≡ₚ x :: l.
Proof.
  induction l as [|y l IH]; simpl; [done|].
  destruct (Qle_bool (key x) (key y)); [done|].
  rewrite IH. apply Permutation_swap.
Qed.

Lemma sorted_perm l : sorted key l ≡ₚ l.
Proof.
  induction l as [|x l IH]; simpl; [done|].
  unfold sorted in *. simpl. by rewrite insert_by_perm, IH.
Qed.

Lemma insert_by_sorted x l :
  StronglySorted (key_le key) l → StronglySorted (key_le key) (insert_by key x l).
Proof.
  induction 1 as [|y l Hs IH Hy]; simpl.
  - repeat constructor.
  - destruct (Qle_bool (key x) (key y)) eqn:E.
    + apply Qle_bool_iff in E.
      constructor; [by constructor|].
      constructor; [done|].
      eapply Forall_impl; [exact Hy|].
      intros z Hz. unfold key_le in *. by eapply Qle_trans.
    + constructor; [done|].
      rewrite insert_by_perm. constructor; [|done].
      unfold key_le. apply Qlt_le_weak, Qnot_le_lt.
      intros Hle. apply Qle_bool_iff in Hle. congruence.
Qed.

Lemma sorted_sorted l : StronglySorted (key_le key) (sorted key l).
Proof.
  induction l as [|x l IH]; simpl; [constructor|].
  by apply insert_by_sorted.
Qed.

(** In a sorted list, what is cut off comes after what is kept. *)
Lemma sorted_take_drop l : ∀ n a b,
  StronglySorted (key_le key) l → a ∈ take n l → b ∈ drop n l → key_le key a b.
Proof.
  induction l as [|x l IH]; intros n a b Hs Ha Hb.
  - rewrite take_nil in Ha. by apply elem_of_nil in Ha.
  - apply StronglySorted_inv in Hs as [Hs Hx].
    destruct n as [|n]; simpl in *; [by apply elem_of_nil in Ha|].
    apply elem_of_cons in Ha as [->|Ha].
    + rewrite Forall_forall in Hx. apply Hx.
      by apply (subseteq_drop n l).
    + by eapply IH.
Qed.
End Sorted.

(** The rows that [fetch_rating_peak] reads: of the rating type, at most
    1000, and none older than a row that is left out. *)
Lemma rating_journal_rows_spec store rt :
  let rows := rating_journal_rows store rt in
  (length rows ≤ 1000)%nat ∧
  (∀ row, row ∈ rows →
          row ∈ leaderboard_rating_journal store ∧ journal_leaderboard row = rt) ∧
  (∀ row row', row ∈ rows → row' ∈ leaderboard_rating_journal store →
               journal_leaderboard row' = rt → row' ∉ rows →
               journal_id row' ≤ journal_id row) ∧
  ((length rows < 1000)%nat →
   ∀ row', row' ∈ leaderboard_rating_journal store →
           journal_leaderboard row' = rt → row' ∈ rows).
Proof.
  unfold rating_journal_rows.
  set (key := λ row : JournalRow, inject_Z (- journal_id row)).
  set (matching := filter (λ row, journal_leaderboard row = rt)
                          (leaderboard_rating_journal store)).
  set (l := sorted key matching).
  assert (Hl : ∀ row, row ∈ l ↔ row ∈ leaderboard_rating_journal store
                                  ∧ journal_leaderboard row = rt).
  { intros row. unfold l. rewrite (sorted_perm key matching).
    unfold matching. rewrite list_elem_of_filter. tauto. }
  simpl. split_and!.
  - rewrite length_take. lia.
  - intros row Hrow. apply Hl. by apply (subseteq_take 1000 l).
  - intros row row' Hrow Hrow' Hrt Hout.
    assert (Hin : row' ∈ take 1000 l ++ drop 1000 l)
      by (rewrite take_drop; apply Hl; done).
    apply elem_of_app in Hin as [Hin|Hin]; [done|].
    pose proof (sorted_take_drop key l 1000 row row'
                  (sorted_sorted key matching) Hrow Hin) as Hle.
    unfold key_le, key in Hle. rewrite <- Zle_Qle in Hle. lia.
  - intros Hlen row' Hrow' Hrt.
    rewrite take_ge; [by apply Hl|].
    rewrite length_take in Hlen. lia.
Qed.

(** The mean of finite floats is their exact mean, rounded once. *)
Lemma statistics_mean_finite (data : list float) :
  Forall (λ x, isfinite x = true) data →
  statistics_mean data
  = float_of_Fraction (Qsum (map Fraction data)
                       / inject_Z (Z.of_nat (length data))).
Proof.
  intros Hfin. unfold statistics_mean.
  assert (Hnil : filter (λ x, isfinite x = false) data = []).
  { induction Hfin as [|x data Hx _ IH]; [done|].
    rewrite filter_cons_False; [done|]. by rewrite Hx. }
  by rewrite Hnil.
Qed.

Lemma fetch_rating_peak_spec store rt :
  let rows := rating_journal_rows store rt in
  let peak := (fetch_rating_peak store rt).1 in
  let evs := (fetch_rating_peak store rt).2 in
  (rows = [] → peak = float_of_int 1000) ∧
  (rows ≠ [] → peak = statistics_mean (map displayed_before rows)) ∧
  EvRatingPeak rt peak ∈ evs ∧
  ((length rows < 100)%nat ↔ EvLog WARNING "Could only fetch ratings" ∈ evs) ∧
  (float_lt peak (float_of_int 600) = true
   ∨ float_lt (float_of_int 1200) peak = true
   ↔ EvLog WARNING "Estimated rating peak could lead to issues" ∈ evs).
Proof.
  intros rows peak evs. subst peak evs. unfold fetch_rating_peak. fold rows.
  cbn [fst snd]. split_and!.
  - intros ->. done.
  - intros Hne. rewrite bool_decide_eq_true_2; [done|].
    destruct rows; simpl; [done|lia].
  - left.
  - set (peak := if bool_decide (0 < length rows)%nat then _ else _).
    case_bool_decide as Hc; simpl.
    + split; [intros _; right; left|done].
    + split; [done|]. intros Hin. exfalso.
      apply elem_of_cons in Hin as [?|Hin]; [done|].
      destruct (_ || _); apply elem_of_cons in Hin as [Hin|Hin];
        try discriminate Hin; by apply elem_of_nil in Hin.
  - set (peak := if bool_decide (0 < length rows)%nat then _ else _).
    rewrite <- orb_true_iff.
    destruct (float_lt peak (float_of_int 600)
              || float_lt (float_of_int 1200) peak).
    + split; [intros _|done]. apply elem_of_cons. right.
      apply elem_of_app. right. left.
    + split; [done|]. intros Hin. exfalso.
      apply elem_of_cons in Hin as [?|Hin]; [done|].
      apply elem_of_app in Hin as [Hin|Hin].
      * case_bool_decide; [|by apply elem_of_nil in Hin].
        apply elem_of_cons in Hin as [Hin|Hin];
          [discriminate Hin|by apply elem_of_nil in Hin].
      * apply elem_of_cons in Hin as [Hin|Hin];
          [discriminate Hin|by apply elem_of_nil in Hin].
Qed.

Section DictFacts.
Context {K V : Type} `{EqDecision K}.
Implicit Types d : list (K * V).

Lemma dict_get_set_eq d k v : Dict.get (Dict.set d k v) k = Some v.
Proof.
  induction d as [|[k' v'] d IH]; simpl.
  - by rewrite decide_True.
  - case_decide; simpl; [by rewrite decide_True|].
    by rewrite decide_False.
Qed.

Lemma dict_get_set_ne d k v k' :
  k ≠ k' → Dict.get (Dict.set d k v) k' = Dict.get d k'.
Proof.
  intros Hne. induction d as [|[k0 v0] d IH]; simpl.
  - by rewrite decide_False.
  - case_decide; simpl.
    + subst k0. by rewrite !decide_False.
    + case_decide; [done|exact IH].
Qed.

Lemma dict_get_Some_elem d k v : Dict.get d k = Some v → (k, v) ∈ d.
Proof.
  induction d as [|[k0 v0] d IH]; simpl; [done|].
  case_decide; intros ?; simplify_eq; [left|right; auto].
Qed.

Lemma dict_get_None_keys d k : k ∉ Dict.keys d → Dict.get d k = None.
Proof.
  induction d as [|[k0 v0] d IH]; simpl; [done|].
  intros [? ?]%not_elem_of_cons. rewrite decide_False by done. auto.
Qed.

Lemma dict_mem_get d k v : Dict.get d k = Some v → Dict.mem d k = true.
Proof. unfold Dict.mem. by intros ->. Qed.
End DictFacts.

Lemma add_map_pools_keeps store pools : ∀ queue,
  rating_peak (add_map_pools store queue pools).1.1 = rating_peak queue ∧
  rating_type (add_map_pools store queue pools).1.1 = rating_type queue.
Proof.
  induction pools as [|[[map_pool_id lo] hi] pools IH]; intros queue; simpl;
    [done|].
  destruct (Dict.get (map_pool_maps store) map_pool_id) as [[name l]|]; [|done].
  match goal with
  | |- context [add_map_pools store ?q pools] =>
      specialize (IH q); destruct (add_map_pools store q pools) as [[q' evs] e]
  end.
  done.
Qed.

Lemma update_queue_known store s name info queue :
  Dict.get (queues s) name = Some queue →
  let rt := info_rating_type info in
  (∃ queue', Dict.get (queues (update_queue store s name info).1.1) name
             = Some queue'
             ∧ rating_type queue' = rt
             ∧ rating_peak queue' = Some (fetch_rating_peak store rt).1) ∧
  (∀ ev, ev ∈ (fetch_rating_peak store rt).2 →
         ev ∈ (update_queue store s name info).1.2).
Proof.
  intros Hq rt. unfold update_queue. rewrite Hq. fold rt.
  destruct (fetch_rating_peak store rt) as [peak evs].
  match goal with
  | |- context [add_map_pools store ?q ?ps] =>
      pose proof (add_map_pools_keeps store ps q) as [H1 H2];
      destruct (add_map_pools store q ps) as [[q' evs'] e]
  end.
  simpl in *. split.
  - exists q'. by rewrite dict_get_set_eq.
  - intros ev Hev. apply elem_of_app. by left.
Qed.

Lemma update_queue_other store s name info name' :
  name ≠ name' →
  Dict.get (queues (update_queue store s name info).1.1) name'
  = Dict.get (queues s) name'.
Proof.
  intros Hne. unfold update_queue.
  destruct (Dict.get (queues s) name) as [queue|].
  - destruct (fetch_rating_peak store (info_rating_type info)) as [peak evs].
    match goal with
    | |- context [add_map_pools store ?q ?ps] =>
        destruct (add_map_pools store q ps) as [[q' evs'] e]
    end.
    simpl. by apply dict_get_set_ne.
  - match goal with
    | |- context [add_map_pools store ?q ?ps] =>
        destruct (add_map_pools store q ps) as [[q' evs'] e]
    end.
    simpl. by apply dict_get_set_ne.
Qed.

Lemma update_queues_other store infos name' : ∀ s,
  name' ∉ Dict.keys infos →
  Dict.get (queues (update_queues store s infos).1.1) name'
  = Dict.get (queues s) name'.
Proof.
  induction infos as [|[name info] infos IH]; intros s Hnot; simpl; [done|].
  simpl in Hnot. apply not_elem_of_cons in Hnot as [Hne Hnot].
  pose proof (update_queue_other store s name info name' (not_eq_sym Hne)) as H1.
  destruct (update_queue store s name info) as [[s1 evs1] [e|]]; [done|].
  specialize (IH s1 Hnot).
  destruct (update_queues store s1 infos) as [[s2 evs2] e]. simpl in *.
  congruence.
Qed.

Lemma update_queues_known store infos name info : ∀ s queue,
  NoDup (Dict.keys infos) →
  Dict.get infos name = Some info →
  Dict.get (queues s) name = Some queue →
  (update_queues store s infos).2 = None →
  let rt := info_rating_type info in
  (∃ queue', Dict.get (queues (update_queues store s infos).1.1) name
             = Some queue'
             ∧ rating_type queue' = rt
             ∧ rating_peak queue' = Some (fetch_rating_peak store rt).1) ∧
  (∀ ev, ev ∈ (fetch_rating_peak store rt).2 →
         ev ∈ (update_queues store s infos).1.2).
Proof.
  induction infos as [|[name0 info0] infos IH];
    intros s queue Hnd Hget Hq Hok rt; simpl in *; [done|].
  apply NoDup_cons in Hnd as [Hnot Hnd].
  case_decide as Hname.
  - simplify_eq.
    destruct (update_queue_known store s name info queue Hq)
      as [(q' & Hq' & Ht & Hp) Hev].
    destruct (update_queue store s name info) as [[s1 evs1] [e|]]; [done|].
    pose proof (update_queues_other store infos name s1 Hnot) as Hother.
    destruct (update_queues store s1 infos) as [[s2 evs2] e2]. simpl in *.
    split.
    + exists q'. by rewrite Hother.
    + intros ev Hin. apply elem_of_app. left. by apply Hev.
  - pose proof (update_queue_other store s name0 info0 name Hname) as H1.
    destruct (update_queue store s name0 info0) as [[s1 evs1] [e|]]; [done|].
    simpl in H1. rewrite <- H1 in Hq.
    specialize (IH s1 queue Hnd Hget Hq).
    destruct (update_queues store s1 infos) as [[s2 evs2] e2]. simpl in *.
    destruct (IH Hok) as [Hq2 Hev]. split; [done|].
    intros ev Hin. apply elem_of_app. right. by apply Hev.
Qed.

(** A queue that the service already had.  When a refresh completes, such
    a queue of the store gets as [rating_peak] the mean of
    (rating_mean_before - 3 * rating_deviation_before) over the newest rows
    (at most 1000) of the rating journal for the queue's rating type, or
    1000.0 when there is no row; when the values are finite the mean is the
    exact one, rounded once.  The gauge is set to the peak, a warning is
    logged when fewer than 100 rows were read, and a warning is logged when
    the peak is below 600 or above 1200. *)
Theorem rating_peak_recomputed store s name info queue :
  NoDup (Dict.keys (db_queues store)) →
  Dict.get (db_queues store) name = Some info →
  Dict.get (queues s) name = Some queue →
  (update_data store s).2 = None →
  let rt := info_rating_type info in
  let rows := rating_journal_rows store rt in
  let peak := (fetch_rating_peak store rt).1 in
  let evs := (update_data store s).1.2 in
  (∃ queue', Dict.get (queues (update_data store s).1.1) name = Some queue'
             ∧ rating_type queue' = rt ∧ rating_peak queue' = Some peak) ∧
  (rows = [] → peak = float_of_int 1000) ∧
  (rows ≠ [] → peak = statistics_mean (map displayed_before rows)) ∧
  (rows ≠ [] →
   Forall (λ row, isfinite (displayed_before row) = true) rows →
   peak = float_of_Fraction
            (Qsum (map (λ row, Fraction (displayed_before row)) rows)
             / inject_Z (Z.of_nat (length rows)))) ∧
  (length rows ≤ 1000)%nat ∧
  (∀ row, row ∈ rows →
          row ∈ leaderboard_rating_journal store ∧ journal_leaderboard row = rt) ∧
  (∀ row row', row ∈ rows → row' ∈ leaderboard_rating_journal store →
               journal_leaderboard row' = rt → row' ∉ rows →
               journal_id row' ≤ journal_id row) ∧
  ((length rows < 1000)%nat →
   ∀ row', row' ∈ leaderboard_rating_journal store →
           journal_leaderboard row' = rt → row' ∈ rows) ∧
  EvRatingPeak rt peak ∈ evs ∧
  ((length rows < 100)%nat → EvLog WARNING "Could only fetch ratings" ∈ evs) ∧
  (float_lt peak (float_of_int 600) = true
   ∨ float_lt (float_of_int 1200) peak = true →
   EvLog WARNING "Estimated rating peak could lead to issues" ∈ evs).
Proof.
  intros Hnd Hinfo Hq Hok rt rows peak evs.
  destruct (rating_journal_rows_spec store rt) as (R1 & R2 & R3 & R4).
  destruct (fetch_rating_peak_spec store rt) as (F1 & F2 & F3 & F4 & F5).
  assert (Hu : (∃ queue', Dict.get (queues (update_data store s).1.1) name
                          = Some queue'
                          ∧ rating_type queue' = rt
                          ∧ rating_peak queue' = Some peak) ∧
               (∀ ev, ev ∈ (fetch_rating_peak store rt).2 → ev ∈ evs)).
  { subst evs peak. unfold update_data in *.
    pose proof (update_queues_known store (db_queues store) name info s queue
                  Hnd Hinfo Hq) as Hk.
    destruct (update_queues store s (db_queues store)) as [[s1 evs1] [e|]];
      [done|].
    simpl in *. destruct (Hk eq_refl) as [(q' & Hq' & Ht & Hp) Hev].
    split; [|done]. exists q'. split; [|done].
    rewrite remove_absent_queues_filter, dict_get_filter_in; [done|].
    by eapply dict_mem_get. }
  destruct Hu as [Hu1 Hu2].
  split_and!; try done.
  - intros Hne Hfin. subst peak. fold rows in F2. rewrite (F2 Hne).
    rewrite statistics_mean_finite by (by apply Forall_fmap).
    by rewrite length_map, map_map.
  - by apply Hu2.
  - intros Hlen. by apply Hu2, F4.
  - intros Hout. by apply Hu2, F5.
Qed.

Lemma rating_peak_recomputed_witness :
  ∃ queue',
    Dict.get (queues (update_data SampleJournal.store SampleStore.service).1.1)
             "ladder1v1" = Some queue'
    ∧ rating_type queue' = info_rating_type SampleStore.ladder1v1_info
    ∧ rating_peak queue'
      = Some (fetch_rating_peak SampleJournal.store
                (info_rating_type SampleStore.ladder1v1_info)).1.
Proof.
  refine (proj1 (rating_peak_recomputed SampleJournal.store SampleStore.service
                   "ladder1v1" SampleStore.ladder1v1_info Sample.ladder1v1
                   _ _ _ _)).
  - apply (bool_decide_unpack _). vm_compute. exact I.
  - vm_compute; reflexivity.
  - vm_compute; reflexivity.
  - vm_compute; reflexivity.
Defined.

(** On the sample journal the peak is the mean of 1200.0 and 600.0. *)
Example rating_peak_sample :
  (fetch_rating_peak SampleJournal.store "ladder_1v1").1 = float_of_int 900.
Proof. vm_compute; reflexivity. Qed.

(** Rounding at work: for one row with the floats 1200.3 and 200.1 the
    product 3 * 200.1 is rounded to the float nearest to 600.3 and the
    difference is 600.0, which is not below 600: the estimate is logged at
    level INFO, although 1200.3 - 3 * 200.1 is below 600 for the floats'
    exact values. *)
Example rating_peak_rounded :
  let r := fetch_rating_peak SampleJournal.rounding "ladder_1v1" in
  r.1 = float_of_int 600 ∧
  r.2 = [EvRatingPeak "ladder_1v1" (float_of_int 600);
         EvLog WARNING "Could only fetch ratings";
         EvLog INFO "Estimated rating peak"] ∧
  (Fraction (float_of_Fraction (12003 # 10))
   - 3 * Fraction (float_of_Fraction (2001 # 10)) < 600)%Q.
Proof. cbv zeta. split_and!; vm_compute; reflexivity. Qed.

(** The recomputation does not reach a queue that the refresh creates: the
    warning for fewer than 100 rows is not logged for it. *)
Lemma rating_peak_new_queue_counterexample :
  ¬ (∀ store s name info,
        NoDup (Dict.keys (db_queues store)) →
        Dict.get (db_queues store) name = Some info →
        (update_data store s).2 = None →
        (length (rating_journal_rows store (info_rating_type info)) < 100)%nat →
        EvLog WARNING "Could only fetch ratings" ∈ (update_data store s).1.2).
Proof.
  intros H.
  specialize (H SampleStore.store SampleStore.fresh_service "ladder1v1"
                SampleStore.ladder1v1_info).
  assert (He : (update_data SampleStore.store SampleStore.fresh_service).1.2
               = []) by (vm_compute; reflexivity).
  rewrite He in H.
  eapply elem_of_nil, H.
  - apply (bool_decide_unpack _). vm_compute. exact I.
  - vm_compute; reflexivity.
  - vm_compute; reflexivity.
  - vm_compute. lia.
Qed.

(** C8.  [update_data] calls [fetch_rating_peak] in the branch for a queue
    it already has, and not in the branch that creates a queue.  At the
    first refresh of a service without queues from the sample journal (two
    rows for the 1v1 ladder, displayed ratings 1200 and 600) the refresh
    completes and creates the queue, but the journal is not read: the queue
    has the [rating_peak] of its constructor, the gauge is not set and
    nothing is logged, although fewer than 100 rows exist.  The next
    refresh from the same store takes the other branch: the peak is
    900.0, the gauge is set and the warning is logged. *)
Lemma rating_peak_new_queue :
  let first := update_data SampleJournal.store SampleStore.fresh_service in
  let second := update_data SampleJournal.store first.1.1 in
  Dict.get (db_queues SampleJournal.store) "ladder1v1"
  = Some SampleStore.ladder1v1_info ∧
  Dict.get (queues SampleStore.fresh_service) "ladder1v1" = None ∧
  length (rating_journal_rows SampleJournal.store "ladder_1v1") = 2%nat ∧
  first.2 = None ∧
  (rating_peak <$> Dict.get (queues first.1.1) "ladder1v1") = Some None ∧
  (rating_type <$> Dict.get (queues first.1.1) "ladder1v1")
  = Some "ladder_1v1" ∧
  first.1.2 = [] ∧
  second.2 = None ∧
  (rating_peak <$> Dict.get (queues second.1.1) "ladder1v1")
  = Some (Some (float_of_int 900)) ∧
  second.1.2 = [EvRatingPeak "ladder_1v1" (float_of_int 900);
                EvLog WARNING "Could only fetch ratings";
                EvLog INFO "Estimated rating peak"].
Proof. cbv zeta. split_and!; vm_compute; reflexivity. Qed.

(** ** Matches picked in a pop *)

Lemma searches_in_matches_elem (ms : list Match) m :
  m ∈ ms → searches_in_match m ⊆ searches_in_matches ms.
Proof.
  intros Hm sid. unfold searches_in_match, searches_in_matches.
  rewrite !elem_of_list_to_set, !list_elem_of_In, !in_map_iff.
  intros (x & Hx & Hin). exists x. split; [done|].
  apply in_flat_map. exists m. split; [by apply list_elem_of_In|done].
Qed.

(** A match that passes [has_no_overlap] collides with none of the matches
    whose searches it was compared with. *)
Lemma has_no_overlap_disjoint (ms : list Match) m m' :
  has_no_overlap m (searches_in_matches ms) = true →
  m' ∈ ms → disjoint_matches m m'.
Proof.
  unfold has_no_overlap, are_searches_disjoint, disjoint_matches.
  intros Hd%bool_decide_eq_true Hm'.
  pose proof (searches_in_matches_elem ms m' Hm') as Hsub.
  intros sid H1 H2. apply (Hd sid H1). by apply Hsub.
Qed.

Lemma disjoint_matches_sym m m' : disjoint_matches m m' → disjoint_matches m' m.
Proof. unfold disjoint_matches. intros H sid H1 H2. by apply (H sid). Qed.

Lemma pairwise_app {A} (R : A → A → Prop) (l l' : list A) :
  pairwise R l → pairwise R l' →
  (∀ x y, x ∈ l → y ∈ l' → R x y) →
  pairwise R (l ++ l').
Proof.
  induction l as [|x l IH]; intros Hl Hl' Hc; simpl; [done|].
  destruct Hl as [Hx Hl]. split.
  - apply Forall_app_2; [done|].
    apply Forall_forall. intros y Hy. apply Hc; [left|done].
  - apply IH; [done|done|]. intros a b Ha Hb. apply Hc; [by right|done].
Qed.

Lemma pairwise_filter {A} (R : A → A → Prop) (P : A → Prop)
    `{∀ x, Decision (P x)} (l : list A) :
  pairwise R l → pairwise R (filter P l).
Proof.
  induction l as [|x l IH]; intros Hl; [done|].
  destruct Hl as [Hx Hl]. rewrite filter_cons.
  case_decide; [|by apply IH]. split; [|by apply IH].
  apply Forall_forall. intros y [_ Hy]%list_elem_of_filter.
  rewrite Forall_forall in Hx. by apply Hx.
Qed.

(** Where a match of the merged list comes from. *)
Lemma add_matches_from_origin env queues1v1 : ∀ matches_tmm m,
  m ∈ add_matches_from env matches_tmm queues1v1 →
  m ∈ matches_tmm ∨
  ∃ before queue after,
    queues1v1 = before ++ queue :: after ∧
    m ∈ find_matches1v1 env (queue_name queue) ∧
    ∀ m', m' ∈ add_matches_from env matches_tmm before → disjoint_matches m m'.
Proof.
  induction queues1v1 as [|queue rest IH]; intros tmm m Hm; simpl in Hm;
    [by left|].
  apply IH in Hm as [Hm|(before & q & after & -> & Hq & Hd)].
  - apply elem_of_app in Hm as [Hm|Hm]; [by left|].
    apply list_elem_of_filter in Hm as [Hno Hm].
    right. exists [], queue, rest. split_and!; [done|done|].
    intros m' Hm'. simpl in Hm'. by eapply has_no_overlap_disjoint.
  - right. exists (queue :: before), q, after. by split_and!.
Qed.

Lemma add_matches_from_pairwise env queues1v1 : ∀ matches_tmm,
  pairwise disjoint_matches matches_tmm →
  (∀ queue, queue ∈ queues1v1 →
            pairwise disjoint_matches (find_matches1v1 env (queue_name queue))) →
  pairwise disjoint_matches (add_matches_from env matches_tmm queues1v1).
Proof.
  induction queues1v1 as [|queue rest IH]; intros tmm Htmm Hq; simpl; [done|].
  apply IH.
  - apply pairwise_app; [done| |].
    + apply pairwise_filter, Hq. left.
    + intros x y Hx [Hno Hy]%list_elem_of_filter.
      apply disjoint_matches_sym. by eapply has_no_overlap_disjoint.
  - intros q Hin. apply Hq. by right.
Qed.

(** C6 (as amended).  Every 1v1 match merged into the picked matches
    shares no original search with any match that was in the list when the
    matches of its queue were merged; hence, when the team matches returned
    by [pick_noncolliding_games] and the 1v1 matches returned by each queue
    are pairwise free of common searches, no original search appears in two
    of the matches dispatched by the pop. *)
Theorem picked_matches_disjoint env s :
  let matches_tmm :=
    pick_noncolliding_games env
      (flat_map (λ queue, find_matches env (queue_name queue))
                (_queues_without1v1 s)) in
  pairwise disjoint_matches matches_tmm →
  (∀ queue, queue ∈ _1v1queues s →
            pairwise disjoint_matches (find_matches1v1 env (queue_name queue))) →
  (∀ m, m ∈ picked_matches env s →
        m ∈ matches_tmm ∨
        ∃ before queue after,
          _1v1queues s = before ++ queue :: after ∧
          m ∈ find_matches1v1 env (queue_name queue) ∧
          ∀ m', m' ∈ add_matches_from env matches_tmm before →
                disjoint_matches m m') ∧
  pairwise disjoint_matches (picked_matches env s) ∧
  (∀ name ms, (name, ms) ∈ _queue_pop_iteration env s →
              pairwise disjoint_matches ms
              ∧ ∀ m, m ∈ ms → m ∈ picked_matches env s).
Proof.
  intros matches_tmm Htmm H1v1.
  assert (Hp : pairwise disjoint_matches (picked_matches env s))
    by (by apply add_matches_from_pairwise).
  split_and!; [|done|].
  - intros m Hm. by apply add_matches_from_origin.
  - intros name ms Hin. unfold _queue_pop_iteration, _found_matches in Hin.
    apply list_elem_of_In, in_map_iff in Hin as (queue & Heq & _).
    simplify_eq. split.
    + by apply pairwise_filter.
    + by intros m [_ Hm]%list_elem_of_filter.
Qed.

Lemma picked_matches_disjoint_witness :
  pairwise disjoint_matches
    (picked_matches SamplePop.env SampleService.service).
Proof.
  refine (proj1 (proj2 (picked_matches_disjoint SamplePop.env
                          SampleService.service _ _))).
  - vm_compute. split; [constructor|exact I].
  - intros queue Hq.
    apply list_elem_of_filter in Hq as [Hsize Hq].
    vm_compute in Hq.
    apply elem_of_cons in Hq as [->|Hq].
    + vm_compute. split; [constructor|exact I].
    + apply elem_of_cons in Hq as [->|Hq]; [done|].
      by apply elem_of_nil in Hq.
Defined.

(** C6, counterexample.  alice searches the 1v1 queue alone and the 2v2
    queue with carol.  The pop picks her 2v2 match and merges her 1v1 match,
    which shares no search with it: alice is in two dispatched matches. *)
Lemma picked_matches_player_counterexample :
  ¬ (∀ env s,
        let matches_tmm :=
          pick_noncolliding_games env
            (flat_map (λ queue, find_matches env (queue_name queue))
                      (_queues_without1v1 s)) in
        pairwise disjoint_matches matches_tmm →
        pairwise disjoint_players matches_tmm →
        (∀ queue, queue ∈ _1v1queues s →
           pairwise disjoint_matches (find_matches1v1 env (queue_name queue))
           ∧ pairwise disjoint_players (find_matches1v1 env (queue_name queue))) →
        pairwise disjoint_players (picked_matches env s)).
Proof.
  intros H.
  specialize (H SamplePop.env SampleService.service).
  assert (Hp : picked_matches SamplePop.env SampleService.service
               = [SamplePop.match_2v2; SamplePop.match_1v1])
    by (vm_compute; reflexivity).
  rewrite Hp in H.
  assert (H1 : ∀ R : Match → Match → Prop, pairwise R [SamplePop.match_2v2])
    by (intros R; split; [constructor|exact I]).
  assert (H2 : ∀ R : Match → Match → Prop, pairwise R [SamplePop.match_1v1])
    by (intros R; split; [constructor|exact I]).
  destruct H as [Hd _].
  - apply H1.
  - apply H1.
  - intros queue Hq.
    apply list_elem_of_filter in Hq as [Hsize Hq].
    vm_compute in Hq.
    apply elem_of_cons in Hq as [->|Hq]; [split; apply H2|].
    apply elem_of_cons in Hq as [->|Hq]; [done|].
    by apply elem_of_nil in Hq.
  - apply Forall_cons in Hd as [Hd _].
    apply (Hd 1); vm_compute; left.
Qed.

(** ** The pop timer *)

Lemma pops_app evs evs' : pops (evs ++ evs') = (pops evs + pops evs')%nat.
Proof. unfold pops. by rewrite filter_app, length_app. Qed.

Lemma pop_round_body_pops r : pops (pop_round_body r).1 = 1%nat.
Proof. unfold pop_round_body. by destruct (next_pop r). Qed.

Lemma pop_round_body_undisturbed r :
  undisturbed r → (pop_round_body r).2 ≠ Some CancelledError.
Proof.
  intros (H1 & H2 & _). unfold pop_round_body.
  destruct (next_pop r) as [x|] eqn:E; simpl; [done|by apply H2].
Qed.

(** Rounds without cancellation or shutdown leave the loop running, one
    pop per round, whatever they raise. *)
Lemma pop_timer_undisturbed rounds :
  Forall undisturbed rounds →
  (_queue_pop_timer true rounds).2 = Looping ∧
  pops (_queue_pop_timer true rounds).1 = length rounds.
Proof.
  induction 1 as [|r rounds Hr _ [IH1 IH2]]; [done|].
  simpl. pose proof (pop_round_body_undisturbed r Hr) as Hb.
  pose proof (pop_round_body_pops r) as Hp.
  destruct Hr as (_ & _ & Hs & Ha). rewrite Hs, Ha.
  destruct (pop_round_body r) as [evs [[|e]|]]; cbn [fst snd] in *; [done| |];
    destruct (_queue_pop_timer true rounds) as [evs' st]; cbn [fst snd] in *;
    (split; [done|]);
    rewrite ?(pops_app evs (_ :: _ :: evs')), ?(pops_app evs evs'), Hp;
    change (pops (PopLogException :: PopSleep 1 :: evs')) with (pops evs');
    rewrite IH2; lia.
Qed.

Lemma undisturbed_continues r : undisturbed r → continues r.
Proof.
  intros (H1 & H2 & Hs & Ha). unfold continues, raises.
  destruct (next_pop r) as [[|e]|]; [done|done|].
  specialize (H2 eq_refl). by destruct (pop_iteration r) as [[|e]|].
Qed.











(** A cancelled wait for the next pop ends the loop; the rounds that
    would follow are not run. *)
Example pop_timer_cancelled :
  _queue_pop_timer true
    [SampleRounds.failing; SampleRounds.cancelled; SampleRounds.fine]
  = ([PopNextPop; PopIteration; PopLogException; PopSleep 1;
      PopNextPop; PopLogStopped], Returned).
Proof. reflexivity. Qed.

(** ** Scenarios *)

(** With a deviation of 300 a newcomer is told that the learning phase is
    80 percent completed. *)
Example calibration_sample :
  ∃ progress,
    (write_rating_progress SampleService.service
       {| player_id := 6; login := "frank"; faction := 1;
          ratings := Sample.rating 1500 300 |} "ladder_1v1").2
    = [EvWriteMessage 6 (notice "info" (calibration_text progress))]
    ∧ (progress == 80)%Q.
Proof. eexists. split; [vm_compute; reflexivity|by vm_compute]. Qed.

(** Scenario: carol, banned for another 240 seconds, starts a search. *)
Example timed_out_sample :
  (start_search SampleService.service SampleService.violations 0 7
     [Sample.carol] "ladder1v1").1.2
  = [EvWriteMessage 3 (search_timeout [(3, 240)]);
     EvWriteMessage 3 (search_info "ladder1v1" "stop");
     EvWriteMessage 3
       (notice "info" [Lit "Player carol is timed out for ";
                       NaturalDelta 240])].
Proof. vm_compute; reflexivity. Qed.

(** ** Further properties of the launcher *)

Lemma guest_not_connected_witness :
  launch_match (SampleLaunch.env_guest_gone (Some TimeoutError))
    Sample.new_game Sample.alice [Sample.bob; Sample.carol] SampleLaunch.options
  = ([EvWriteLaunchGame (player_id Sample.alice) (Game.id Sample.new_game) true
        (SampleLaunch.options Sample.alice);
      EvWaitHosted (Game.id Sample.new_game) 60],
     Some (NotConnectedError
             (filter (λ player,
                        guest_connected
                          (SampleLaunch.env_guest_gone (Some TimeoutError))
                          (player_id player) = false)
                     [Sample.bob; Sample.carol]))).
Proof.
  apply (guest_not_connected (SampleLaunch.env_guest_gone (Some TimeoutError))
           Sample.new_game Sample.alice [Sample.bob; Sample.carol]
           SampleLaunch.options Sample.bob).
  - reflexivity.
  - left.
  - reflexivity.
Defined.

Lemma launched_app evs evs' : launched (evs ++ evs') = launched evs ++ launched evs'.
Proof. unfold launched. apply flat_map_app. Qed.

Lemma launched_guests (game : Game.t) mk (guests : list Player) :
  launched (map (λ guest, EvWriteLaunchGame (player_id guest) (Game.id game)
                            false (mk guest)) guests)
  = map (λ guest, (player_id guest, false)) guests.
Proof. induction guests as [|g guests IH]; [done|]. simpl. by rewrite IH. Qed.

Lemma filter_nil_all {A} (P : A → Prop) `{∀ x, Decision (P x)} (l : list A) :
  filter P l = [] → ∀ x, x ∈ l → ¬ P x.
Proof.
  induction l as [|y l IH]; intros Hf x Hx; [by apply elem_of_nil in Hx|].
  rewrite filter_cons in Hf. case_decide; [done|].
  apply elem_of_cons in Hx as [->|Hx]; [done|by apply IH].
Qed.

(** X2.  [launch_match] classifies every timeout: a bare
    [asyncio.TimeoutError] never leaves it, and a [NotConnectedError] that
    leaves it names the host alone or guests only, whatever the futures of
    the game raise.  It writes [launch_game] to the host only over an
    existing connection, and to a guest only when every guest has one. *)
Theorem launch_match_classifies env game host guests mk :
  let r := launch_match env game host guests mk in
  r.2 ≠ Some TimeoutError ∧
  (∀ players, r.2 = Some (NotConnectedError players) →
     players = [host] ∨ (players ≠ [] ∧ ∀ p, p ∈ players → p ∈ guests) ∨
     (players = [] ∧ is_Some (wait_launched env game
                                (60 + 10 * Z.of_nat (length guests))))) ∧
  (r.1 ≠ [] → host_connected env (player_id host) = true) ∧
  (∀ pid, (pid, false) ∈ launched r.1 →
          ∀ g, g ∈ guests → guest_connected env (player_id g) = true).
Proof.
  cbv zeta. unfold launch_match.
  destruct (host_connected env (player_id host)) eqn:Hh; simpl.
  2: { split_and!; try done.
       - intros players [= <-]. by left.
       - intros pid Hin. by apply elem_of_nil in Hin. }
  destruct (filter (λ player, guest_connected env (player_id player) = false)
                   guests) as [|x l] eqn:Hf.
  2: { simpl. split_and!; try done.
       - intros players [= <-]. right; left. split; [done|].
         intros p Hp. rewrite <- Hf in Hp.
         by apply list_elem_of_filter in Hp as [_ Hp].
       - intros pid Hin.
         apply elem_of_cons in Hin as [[=]|Hin]. by apply elem_of_nil in Hin. }
  assert (Hall : ∀ g, g ∈ guests → guest_connected env (player_id g) = true).
  { intros g Hg.
    pose proof (filter_nil_all
                  (λ player, guest_connected env (player_id player) = false)
                  guests Hf g Hg) as Hn.
    simpl in Hn. destruct (guest_connected env (player_id g)); [done|].
    by destruct Hn. }
  destruct (wait_hosted env game 60) as [e|] eqn:Hw.
  - destruct (is_TimeoutError e) eqn:He; simpl.
    + split_and!; try done. intros players [= <-]. by left.
    + split_and!; try done.
      * by destruct e.
      * intros players [= ->]. done.
  - destruct (wait_launched env game (60 + 10 * Z.of_nat (length guests)))
      as [e|] eqn:Hl; simpl.
    + destruct (is_TimeoutError e) eqn:He; simpl.
      * split_and!; try done.
        intros players [= <-].
        destruct (filter (λ player, player_id player
                                    ∉ get_connected_players env game) guests)
          as [|y l'] eqn:Hf'.
        -- right; right. split; [done|]. by eexists.
        -- right; left. split; [done|]. intros p Hp. rewrite <- Hf' in Hp.
           by apply list_elem_of_filter in Hp as [_ Hp].
      * split_and!; try done.
        -- by destruct e.
        -- intros players [= ->]. done.
    + split_and!; done.
Qed.

(** X3.  [launch_match] returns normally exactly when the host is
    connected, the game is hosted in time, every guest is connected and the
    game is launched in time.  When it returns normally, [launch_game] has
    been written once to every player, to the host first and as host, then
    to the guests in their order, and the launch was awaited last, for 60
    seconds plus 10 per guest. *)
Theorem launch_match_succeeds env game host guests mk :
  let r := launch_match env game host guests mk in
  let timeout := 60 + 10 * Z.of_nat (length guests) in
  (r.2 = None ↔
   host_connected env (player_id host) = true ∧
   wait_hosted env game 60 = None ∧
   (∀ g, g ∈ guests → guest_connected env (player_id g) = true) ∧
   wait_launched env game timeout = None) ∧
  (r.2 = None →
   r.1 = [EvWriteLaunchGame (player_id host) (Game.id game) true (mk host);
          EvWaitHosted (Game.id game) 60]
         ++ map (λ guest, EvWriteLaunchGame (player_id guest) (Game.id game)
                            false (mk guest)) guests
         ++ [EvWaitLaunched (Game.id game) timeout] ∧
   launched r.1
   = (player_id host, true) :: map (λ guest, (player_id guest, false)) guests ∧
   EvWaitLaunched (Game.id game) timeout ∈ r.1).
Proof.
  cbv zeta. unfold launch_match.
  destruct (host_connected env (player_id host)) eqn:Hh; simpl;
    [|split; [split; [done|by intros (? & _)]|done]].
  destruct (filter (λ player, guest_connected env (player_id player) = false)
                   guests) as [|x l] eqn:Hf.
  2: { simpl. split; [|done]. split; [done|]. intros (_ & _ & Hall & _).
       assert (Hx : x ∈ filter (λ player, guest_connected env (player_id player)
                                          = false) guests)
         by (rewrite Hf; left).
       apply list_elem_of_filter in Hx as [Hx1 Hx2].
       rewrite (Hall x Hx2) in Hx1. done. }
  assert (Hall : ∀ g, g ∈ guests → guest_connected env (player_id g) = true).
  { intros g Hg.
    pose proof (filter_nil_all
                  (λ player, guest_connected env (player_id player) = false)
                  guests Hf g Hg) as Hn.
    simpl in Hn. destruct (guest_connected env (player_id g)); [done|].
    by destruct Hn. }
  destruct (wait_hosted env game 60) as [e|] eqn:Hw.
  { destruct (is_TimeoutError e); simpl;
      (split; [split; [done|by intros (_ & ? & _)]|done]). }
  destruct (wait_launched env game (60 + 10 * Z.of_nat (length guests)))
    as [e|] eqn:Hl; simpl.
  { destruct (is_TimeoutError e); simpl;
      (split; [split; [done|by intros (_ & _ & _ & ?)]|done]). }
  split; [by split|]. intros _. split_and!; try done.
  - change (EvWaitHosted (Game.id game) 60
            :: map _ guests ++ [EvWaitLaunched (Game.id game)
                                  (60 + 10 * Z.of_nat (length guests))])
      with ([EvWaitHosted (Game.id game) 60]
            ++ map (λ guest, EvWriteLaunchGame (player_id guest) (Game.id game)
                               false (mk guest)) guests
            ++ [EvWaitLaunched (Game.id game)
                  (60 + 10 * Z.of_nat (length guests))]).
    rewrite !launched_app, launched_guests. simpl. by rewrite app_nil_r.
  - right. right. apply elem_of_app. right. left.
Qed.

Lemma launch_match_succeeds_witness :
  launched (launch_match Sample.env Sample.new_game Sample.alice
              [Sample.bob; Sample.carol] SampleLaunch.options).1
  = (player_id Sample.alice, true)
    :: map (λ guest, (player_id guest, false)) [Sample.bob; Sample.carol].
Proof.
  pose proof (launch_match_succeeds Sample.env Sample.new_game Sample.alice
                [Sample.bob; Sample.carol] SampleLaunch.options) as H.
  cbv zeta in H. destruct H as [_ H].
  destruct (H eq_refl) as (_ & Hl & _). exact Hl.
Defined.

(** X4.  When everybody is connected and the game is hosted in time but
    the launch times out, [launch_match] raises [NotConnectedError] naming
    exactly the guests that are not among [game.get_connected_players()],
    never the host; the list is empty when every guest has joined. *)
Theorem launch_timeout env game host guests mk e :
  host_connected env (player_id host) = true →
  wait_hosted env game 60 = None →
  (∀ g, g ∈ guests → guest_connected env (player_id g) = true) →
  wait_launched env game (60 + 10 * Z.of_nat (length guests)) = Some e →
  is_TimeoutError e = true →
  ∃ players,
    (launch_match env game host guests mk).2 = Some (NotConnectedError players) ∧
    (∀ p, p ∈ players ↔
          p ∈ guests ∧ player_id p ∉ get_connected_players env game) ∧
    ((∀ g, g ∈ guests → player_id g ∈ get_connected_players env game) →
     players = []) ∧
    launched (launch_match env game host guests mk).1
    = (player_id host, true) :: map (λ guest, (player_id guest, false)) guests.
Proof.
  intros Hh Hw Hall Hl He. unfold launch_match.
  rewrite Hh, Hw, (filter_not_connected_nil _ _ Hall), Hl, He. simpl.
  eexists. split; [done|]. split_and!.
  - intros p. rewrite list_elem_of_filter. tauto.
  - intros Hjoined.
    destruct (filter _ guests) as [|y l] eqn:Hf; [done|].
    assert (Hy : y ∈ filter (λ player, player_id player
                                       ∉ get_connected_players env game) guests)
      by (rewrite Hf; left).
    apply list_elem_of_filter in Hy as [Hy1 Hy2]. by destruct Hy1; apply Hjoined.
  - change (EvWaitHosted (Game.id game) 60
            :: map _ guests ++ [EvWaitLaunched (Game.id game)
                                  (60 + 10 * Z.of_nat (length guests))])
      with ([EvWaitHosted (Game.id game) 60]
            ++ map (λ guest, EvWriteLaunchGame (player_id guest) (Game.id game)
                               false (mk guest)) guests
            ++ [EvWaitLaunched (Game.id game)
                  (60 + 10 * Z.of_nat (length guests))]).
    rewrite !launched_app, launched_guests. simpl. by rewrite app_nil_r.
Qed.

Lemma launch_timeout_witness :
  ∃ players,
    (launch_match SampleLaunch.env_launch_timeout Sample.new_game Sample.alice
       [Sample.bob; Sample.carol] SampleLaunch.options).2
    = Some (NotConnectedError players).
Proof.
  destruct (launch_timeout SampleLaunch.env_launch_timeout Sample.new_game
              Sample.alice [Sample.bob; Sample.carol] SampleLaunch.options
              TimeoutError) as (players & H & _).
  - reflexivity.
  - reflexivity.
  - intros g _. reflexivity.
  - reflexivity.
  - reflexivity.
  - exists players. exact H.
Defined.

Lemma launch_match_setup env game host guests mk :
  Forall setup_event (launch_match env game host guests mk).1.
Proof.
  assert (Hg : ∀ l, Forall setup_event
                 (map (λ guest, EvWriteLaunchGame (player_id guest)
                                  (Game.id game) false (mk guest)) l)).
  { intros l. apply Forall_forall. intros ev Hin.
    apply list_elem_of_In, in_map_iff in Hin as (? & <- & ?). done. }
  unfold launch_match. repeat case_match; simpl;
    repeat first [ apply Forall_nil_2 | apply Forall_cons_2; [done|]
                 | apply Forall_app_2 | apply Hg ].
Qed.

Lemma setup_events_quiet evs :
  Forall setup_event evs → matches_counted evs = [] ∧ messages evs = [].
Proof.
  induction 1 as [|ev evs Hev _ [IH1 IH2]]; [done|].
  unfold matches_counted, messages in *.
  destruct ev; try done; simpl; by rewrite ?IH1, ?IH2.
Qed.

Lemma matches_counted_app evs evs' :
  matches_counted (evs ++ evs') = matches_counted evs ++ matches_counted evs'.
Proof. unfold matches_counted. apply flat_map_app. Qed.

Lemma messages_app evs evs' : messages (evs ++ evs') = messages evs ++ messages evs'.
Proof. unfold messages. apply flat_map_app. Qed.

(** The [try] block counts a success when it ends without an exception,
    and nothing otherwise; it writes no message to a player. *)
Lemma start_game_try_counts env team1 team2 queue :
  let t := start_game_try env team1 team2 queue in
  matches_counted (tr_events t)
  = match tr_error t with
    | None => [(queue_name queue, SUCCESSFUL)]
    | Some _ => []
    end ∧
  messages (tr_events t) = [].
Proof.
  assert (Hs : ∀ g l, Forall setup_event
                 (map (λ player, EvSetGame (player_id player) g) l)).
  { intros g l. apply Forall_forall. intros ev Hin.
    apply list_elem_of_In, in_map_iff in Hin as (? & <- & ?). done. }
  cbv zeta. unfold start_game_try. repeat case_match; simpl; try done;
    match goal with
    | H : launch_match ?e ?g ?h ?gs ?mk = (?evs, _) |- _ =>
        pose proof (launch_match_setup e g h gs mk) as Hl;
        rewrite H in Hl; simpl in Hl;
        apply setup_events_quiet in Hl as [Hl1 Hl2]
    | _ => idtac
    end;
    rewrite ?matches_counted_app, ?messages_app, ?Hl1, ?Hl2;
    repeat match goal with
      | |- context [matches_counted (map (λ player, EvSetGame _ ?g) ?l)] =>
          rewrite (proj1 (setup_events_quiet _ (Hs g l)))
      | |- context [messages (map (λ player, EvSetGame _ ?g) ?l)] =>
          rewrite (proj2 (setup_events_quiet _ (Hs g l)))
      end; done.
Qed.

Lemma classify_label e :
  e ≠ TimeoutError → classify e = Some (outcome_label (Some e), abandoning e).
Proof. destruct e; intros He; done. Qed.

Lemma cancel_players_counts msg players : ∀ st,
  matches_counted (cancel_players msg st players).2 = [] ∧
  messages (cancel_players msg st players).2
  = map (λ p, (player_id p, msg)) players.
Proof.
  induction players as [|p players IH]; intros st; simpl; [done|].
  destruct (st !! player_id p) as [[]|];
    match goal with
    | |- context [cancel_players msg ?st' players] =>
        destruct (IH st') as [IH1 IH2];
        destruct (cancel_players msg st' players) as [st1 evs1]
    end; simpl in *; by rewrite ?IH1, ?IH2.
Qed.

(** X5.  Unless the assertion of its handler fails, a run of [_start_game]
    increments exactly one counter of [metrics.matches], for the queue, with
    the label of its outcome: SUCCESSFUL without an exception, TIMED_OUT for
    a [NotConnectedError], ABORTED_BY_PLAYER for a [GameClosedError], ERRORED
    for anything else.  A successful run writes no message to a player
    besides [launch_game], registers no violation and changes no state. *)
Theorem start_game_counts_once env team1 team2 queue :
  let t := start_game_try env team1 team2 queue in
  let r := _start_game env team1 team2 queue in
  tr_error t ≠ Some TimeoutError →
  matches_counted (sr_events r)
  = [(queue_name queue, outcome_label (tr_error t))] ∧
  (tr_error t = None →
   sr_raised r = None ∧ sr_player_state r = player_state env ∧
   messages (sr_events r) = [] ∧ registered_violations (sr_events r) = []).
Proof.
  intros t r Hne. subst r. unfold _start_game. fold t.
  destruct (start_game_try_counts env team1 team2 queue) as [Hc Hm].
  fold t in Hc, Hm.
  pose proof (start_game_try_events env team1 team2 queue) as Hev. fold t in Hev.
  destruct (tr_error t) as [e|] eqn:Herr.
  - split; [|done]. rewrite classify_label by congruence.
    assert (Hg : matches_counted
                   (match tr_game t with
                    | Some game =>
                        (tr_events t ++ [EvMatches (queue_name queue)
                                           (outcome_label (Some e))])
                        ++ [EvOnGameFinish (Game.id game)]
                    | None => tr_events t ++ [EvMatches (queue_name queue)
                                                (outcome_label (Some e))]
                    end) = [(queue_name queue, outcome_label (Some e))]).
    { destruct (tr_game t); rewrite !matches_counted_app, Hc; done. }
    destruct (tr_all_players t) as [all_players|]; [|done].
    pose proof (cancel_players_counts
                  (match_cancelled (Game.id <$> tr_game t)) all_players
                  (player_state env)) as [Hk _].
    destruct (cancel_players _ (player_state env) all_players) as [st cancel].
    simpl in *. rewrite !matches_counted_app, Hg, Hk.
    by destruct (abandoning e).
  - simpl. split; [done|]. intros _.
    destruct (launcher_events_quiet _ 0 Hev) as [Hr _]. done.
Qed.

Lemma start_game_counts_once_witness :
  matches_counted
    (sr_events (_start_game Sample.env_host_timeout [Sample.alice]
                  [Sample.bob] Sample.ladder1v1))
  = [(queue_name Sample.ladder1v1,
      outcome_label
        (tr_error (start_game_try Sample.env_host_timeout [Sample.alice]
                     [Sample.bob] Sample.ladder1v1)))].
Proof.
  refine (proj1 (start_game_counts_once Sample.env_host_timeout [Sample.alice]
                   [Sample.bob] Sample.ladder1v1 _)).
  vm_compute. discriminate.
Defined.

Lemma start_game_try_without_game env team1 team2 queue :
  tr_game (start_game_try env team1 team2 queue) = None →
  tr_events (start_game_try env team1 team2 queue) = [] ∧
  is_Some (tr_error (start_game_try env team1 team2 queue)).
Proof. unfold start_game_try. repeat case_match; simpl; try done; eauto. Qed.

Lemma cancel_players_launched msg players : ∀ st,
  launched (cancel_players msg st players).2 = [].
Proof.
  induction players as [|p players IH]; intros st; simpl; [done|].
  destruct (st !! player_id p) as [[]|];
    match goal with
    | |- context [cancel_players msg ?st' players] =>
        specialize (IH st'); destruct (cancel_players msg st' players)
    end; done.
Qed.

(** X6.  When [_start_game] fails before a game object exists (no history,
    no map pool for the rating, no map, no game from the game service), the
    whole run consists of counting the failure and writing
    [match_cancelled] with a null game id to every player of both teams, in
    order: no [launch_game] is written, no game is finished, and violations
    are registered only if the exception itself names players. *)
Theorem start_game_without_game env team1 team2 queue :
  let t := start_game_try env team1 team2 queue in
  let r := _start_game env team1 team2 queue in
  tr_game t = None →
  team1 ≠ [] →
  tr_error t ≠ Some TimeoutError →
  ∃ e, tr_error t = Some e ∧
       sr_raised r = None ∧
       launched (sr_events r) = [] ∧
       (∀ gid, finished gid (sr_events r) = 0%nat) ∧
       messages (sr_events r)
       = map (λ p, (player_id p, match_cancelled None)) (team1 ++ team2) ∧
       registered_violations (sr_events r) = abandoning e.
Proof.
  intros t r Hgame Hteam Hne. subst r.
  destruct (start_game_try_without_game env team1 team2 queue Hgame)
    as [Hevs [e He]].
  fold t in Hevs, He. exists e. split; [done|].
  unfold _start_game. fold t. rewrite He, Hgame, Hevs.
  rewrite classify_label by congruence.
  destruct team1 as [|host team1]; [done|].
  assert (Hall : tr_all_players t = Some ((host :: team1) ++ team2))
    by apply start_game_try_all_players.
  rewrite Hall. clearbody t.
  destruct (cancel_players_counts (match_cancelled None)
              ((host :: team1) ++ team2) (player_state env)) as [_ Hm].
  destruct (cancel_players_spec (match_cancelled None)
              ((host :: team1) ++ team2) (player_state env)
              (cancel_players (match_cancelled None) (player_state env)
                 ((host :: team1) ++ team2)).1
              (cancel_players (match_cancelled None) (player_state env)
                 ((host :: team1) ++ team2)).2)
    as (_ & _ & Hr & Hf); [by destruct (cancel_players _ _ _)|].
  pose proof (cancel_players_launched (match_cancelled None)
                ((host :: team1) ++ team2) (player_state env)) as Hl.
  simpl fmap in *.
  destruct (cancel_players (match_cancelled None) (player_state env)
              ((host :: team1) ++ team2)) as [st cancel].
  simpl in *.
  match goal with
  | |- context [?a :: cancel ++ ?c] =>
      change (a :: cancel ++ c) with ([a] ++ cancel ++ c)
  end.
  split_and!.
  - done.
  - rewrite !launched_app, Hl. by destruct (abandoning e).
  - intros gid. rewrite !finished_app, Hf. by destruct (abandoning e).
  - rewrite !messages_app, Hm. destruct (abandoning e); simpl;
      by rewrite app_nil_r.
  - rewrite !registered_violations_app, Hr. destruct (abandoning e); simpl;
      [done|by rewrite app_nil_r].
Qed.

Lemma start_game_without_game_witness :
  ∃ e, tr_error (start_game_try Sample.env [Sample.alice] [Sample.bob]
                   SampleLaunch.queue_without_pool) = Some e
       ∧ sr_raised (_start_game Sample.env [Sample.alice] [Sample.bob]
                      SampleLaunch.queue_without_pool) = None.
Proof.
  destruct (start_game_without_game Sample.env [Sample.alice] [Sample.bob]
              SampleLaunch.queue_without_pool) as (e & He & Hr & _).
  - vm_compute; reflexivity.
  - discriminate.
  - vm_compute. discriminate.
  - exists e. split; [exact He|exact Hr].
Defined.

(** ** The registry of searches *)

Section DictDel.
Context {K V : Type} `{EqDecision K}.
Implicit Types d : list (K * V).

Lemma dict_keys_del_subset d k k' :
  k' ∈ Dict.keys (Dict.del d k) → k' ∈ Dict.keys d.
Proof.
  induction d as [|[k0 v0] d IH]; simpl; [done|].
  case_decide; [by right|].
  simpl. intros [->|Hin]%elem_of_cons; [left|right; auto].
Qed.

Lemma dict_nodup_del d k : NoDup (Dict.keys d) → NoDup (Dict.keys (Dict.del d k)).
Proof.
  induction d as [|[k0 v0] d IH]; simpl; [done|].
  intros [Hnot Hnd]%NoDup_cons. case_decide; [done|].
  simpl. apply NoDup_cons. split; [|auto].
  intros Hin. by apply Hnot, (dict_keys_del_subset d k).
Qed.

Lemma dict_get_del_eq d k : NoDup (Dict.keys d) → Dict.get (Dict.del d k) k = None.
Proof.
  induction d as [|[k0 v0] d IH]; simpl; [done|].
  intros [Hnot Hnd]%NoDup_cons. case_decide as Hk.
  - subst k0. by apply dict_get_None_keys.
  - simpl. rewrite decide_False by done. auto.
Qed.

Lemma dict_get_del_ne d k k' : k ≠ k' → Dict.get (Dict.del d k) k' = Dict.get d k'.
Proof.
  intros Hne. induction d as [|[k0 v0] d IH]; simpl; [done|].
  case_decide as Hk.
  - subst k0. by rewrite decide_False.
  - simpl. case_decide; [done|exact IH].
Qed.

Lemma dict_keys_set d k v k' :
  k' ∈ Dict.keys (Dict.set d k v) ↔ k' = k ∨ k' ∈ Dict.keys d.
Proof.
  induction d as [|[k0 v0] d IH]; simpl.
  - rewrite elem_of_cons. done.
  - case_decide as Hk; simpl; rewrite !elem_of_cons.
    + subst k0. tauto.
    + rewrite IH. tauto.
Qed.

Lemma dict_nodup_set d k v : NoDup (Dict.keys d) → NoDup (Dict.keys (Dict.set d k v)).
Proof.
  induction d as [|[k0 v0] d IH]; simpl.
  - intros _. apply NoDup_singleton.
  - intros [Hnot Hnd]%NoDup_cons. case_decide as Hk; simpl.
    + subst k0. by apply NoDup_cons.
    + apply NoDup_cons. split; [|auto].
      rewrite dict_keys_set. intros [?|?]; [congruence|done].
Qed.

Lemma dict_get_keys d k : is_Some (Dict.get d k) ↔ k ∈ Dict.keys d.
Proof.
  induction d as [|[k0 v0] d IH]; simpl.
  - split; [by intros [? ?]|by intros ?%elem_of_nil].
  - case_decide as Hk; rewrite elem_of_cons.
    + subst k0. split; [by left|by eexists].
    + rewrite IH. split; [by right|]. intros [?|?]; [congruence|done].
Qed.

Lemma dict_get_all_None d : (∀ k, Dict.get d k = None) → d = [].
Proof.
  destruct d as [|[k0 v0] d]; [done|]. intros H. specialize (H k0).
  simpl in H. by rewrite decide_True in H.
Qed.
End DictDel.

Lemma reg_searches_of s pid pid' q :
  reg (searches_of s pid).2 pid' q = reg s pid' q.
Proof.
  unfold searches_of, reg. destruct (_searches s !! pid) eqn:E; [done|].
  simpl. destruct (decide (pid = pid')) as [->|Hne].
  - by rewrite lookup_insert_eq, E.
  - by rewrite lookup_insert_ne.
Qed.

Lemma searches_of_fst s pid :
  (searches_of s pid).1 = default [] (_searches s !! pid).
Proof. unfold searches_of. by destruct (_searches s !! pid). Qed.

Lemma searches_of_frame s pid :
  same_but_searches s (searches_of s pid).2 ∧
  states (searches_of s pid).2 = states s ∧
  (nodup_keys s → nodup_keys (searches_of s pid).2).
Proof.
  unfold searches_of. destruct (_searches s !! pid) eqn:E; [done|].
  split_and!; try done. intros Hnd pid' d. simpl.
  destruct (decide (pid = pid')) as [->|Hne].
  - rewrite lookup_insert_eq. intros [= <-]. constructor.
  - rewrite lookup_insert_ne by done. apply Hnd.
Qed.

Lemma no_searches_searches_of s pid pid' :
  no_searches (searches_of s pid).2 pid' = no_searches s pid'.
Proof.
  unfold searches_of, no_searches. destruct (_searches s !! pid) eqn:E; [done|].
  simpl. destruct (decide (pid = pid')) as [->|Hne].
  - by rewrite lookup_insert_eq, E.
  - by rewrite lookup_insert_ne.
Qed.

Lemma nodup_keys_default s pid :
  nodup_keys s → NoDup (Dict.keys (default [] (_searches s !! pid))).
Proof.
  intros Hnd. destruct (_searches s !! pid) as [d|] eqn:E; simpl.
  - by eapply Hnd.
  - constructor.
Qed.

Lemma same_but_searches_refl s : same_but_searches s s.
Proof. done. Qed.

Lemma same_but_searches_trans s1 s2 s3 :
  same_but_searches s1 s2 → same_but_searches s2 s3 → same_but_searches s1 s3.
Proof.
  unfold same_but_searches. intros (?&?&?) (?&?&?). split_and!; congruence.
Qed.

(** Removing the entry of one player for one queue. *)
Lemma unregister_step s pid qn :
  nodup_keys s →
  let s' := (let '(d, s) := searches_of s pid in
             with_searches s (<[pid := Dict.del d qn]> (_searches s))) in
  nodup_keys s' ∧ same_but_searches s s' ∧ states s' = states s ∧
  ∀ pid' q, reg s' pid' q
            = if bool_decide (q = qn ∧ pid' = pid) then None else reg s pid' q.
Proof.
  intros Hnd.
  pose proof (searches_of_fst s pid) as Hd.
  pose proof (searches_of_frame s pid) as (Hf & Hst & Hn).
  pose proof (λ pid' q, reg_searches_of s pid pid' q) as Hr.
  destruct (searches_of s pid) as [d s1]. simpl in *. subst d.
  specialize (Hn Hnd).
  split_and!; try done.
  - intros pid' d. simpl. destruct (decide (pid = pid')) as [->|Hne].
    + rewrite lookup_insert_eq. intros [= <-].
      by apply dict_nodup_del, nodup_keys_default.
    + rewrite lookup_insert_ne by done. apply Hn.
  - intros pid' q. unfold reg at 1. simpl.
    destruct (decide (pid = pid')) as [->|Hne].
    + rewrite lookup_insert_eq. simpl.
      destruct (decide (q = qn)) as [->|Hq].
      * rewrite bool_decide_eq_true_2 by done.
        by apply dict_get_del_eq, nodup_keys_default.
      * rewrite bool_decide_eq_false_2 by (intros [? _]; done).
        rewrite dict_get_del_ne by done. rewrite <- (Hr pid' q). done.
    + rewrite lookup_insert_ne by done.
      rewrite bool_decide_eq_false_2 by (intros [_ ?]; done).
      apply Hr.
Qed.

Lemma unregister_fold qn (players : list Player) : ∀ s,
  nodup_keys s →
  let s' := foldl (λ s player,
                     let '(d, s) := searches_of s (player_id player) in
                     with_searches s
                       (<[player_id player := Dict.del d qn]> (_searches s)))
                  s players in
  nodup_keys s' ∧ same_but_searches s s' ∧ states s' = states s ∧
  ∀ pid q, reg s' pid q
           = if bool_decide (q = qn ∧ pid ∈ map player_id players)
             then None else reg s pid q.
Proof.
  induction players as [|p players IH]; intros s Hnd; simpl.
  - split_and!; try done. intros pid q.
    rewrite bool_decide_eq_false_2; [done|]. intros [_ ?%elem_of_nil]. done.
  - destruct (unregister_step s (player_id p) qn Hnd) as (Hn1 & Hf1 & Hs1 & Hr1).
    match goal with
    | |- context [foldl _ ?s1 players] =>
        destruct (IH s1 Hn1) as (Hn2 & Hf2 & Hs2 & Hr2)
    end.
    split_and!; try done.
    + by eapply same_but_searches_trans.
    + congruence.
    + intros pid q. rewrite Hr2, Hr1.
      repeat case_bool_decide; try done; exfalso;
        set_unfold; intuition congruence.
Qed.

(** No [del] of the loop raises when the players are distinct and each has
    an entry for the queue; the loop is then the fold of [_clear_search]. *)
Lemma clear_entries_registered qn (players : list Player) : ∀ s,
  nodup_keys s →
  NoDup (map player_id players) →
  (∀ p, p ∈ players → reg s (player_id p) qn ≠ None) →
  clear_entries s qn players
  = (foldl (λ s player,
              let '(d, s) := searches_of s (player_id player) in
              with_searches s
                (<[player_id player := Dict.del d qn]> (_searches s)))
           s players, None).
Proof.
  induction players as [|p players IH]; intros s Hnd Hdup Hreg; [done|].
  apply NoDup_cons in Hdup as [Hp Hdup].
  destruct (unregister_step s (player_id p) qn Hnd) as (Hn1 & _ & _ & Hr1).
  pose proof (searches_of_fst s (player_id p)) as Hd.
  pose proof (Hreg p ltac:(left)) as Hsome.
  cbn [clear_entries foldl].
  destruct (searches_of s (player_id p)) as [d s1]. simpl in Hd. subst d.
  fold (reg s (player_id p) qn).
  destruct (reg s (player_id p) qn) as [search|]; [|done].
  apply IH; [done|done|].
  intros p' Hp'. rewrite Hr1.
  rewrite bool_decide_eq_false_2; [apply Hreg; by right|].
  intros [_ Heq]. apply Hp. rewrite <- Heq.
  apply list_elem_of_fmap. by exists p'.
Qed.

(** On a consistent registry [_clear_search] raises nothing: the loop with
    the [KeyError] ends in the state of [_clear_search]. *)
Lemma clear_entries_consistent s initiator qn search :
  consistent s →
  reg s (player_id initiator) qn = Some search →
  clear_entries (searches_of s (player_id initiator)).2 qn
                (search_players search)
  = ((_clear_search s initiator qn).2, None).
Proof.
  intros [Hnd Hc] Hreg. unfold _clear_search.
  pose proof (searches_of_fst s (player_id initiator)) as Hd.
  pose proof (searches_of_frame s (player_id initiator)) as (_ & _ & Hn).
  pose proof (λ pid' q, reg_searches_of s (player_id initiator) pid' q) as Hr.
  destruct (searches_of s (player_id initiator)) as [d s1]. simpl in *. subst d.
  fold (reg s (player_id initiator) qn). rewrite Hreg. simpl.
  destruct (Hc _ _ _ Hreg) as (_ & Hdup & Hall).
  apply clear_entries_registered; [by apply Hn|done|].
  intros p Hp. rewrite Hr, (Hall p Hp). done.
Qed.

(** What [_clear_search] returns and leaves behind. *)
Lemma _clear_search_spec s initiator qn :
  nodup_keys s →
  let r := _clear_search s initiator qn in
  r.1 = reg s (player_id initiator) qn ∧
  nodup_keys r.2 ∧ same_but_searches s r.2 ∧ states r.2 = states s ∧
  ∀ pid q, reg r.2 pid q
           = match r.1 with
             | Some search =>
                 if bool_decide (q = qn ∧ pid ∈ search_pids search)
                 then None else reg s pid q
             | None => reg s pid q
             end.
Proof.
  intros Hnd. unfold _clear_search.
  pose proof (searches_of_fst s (player_id initiator)) as Hd.
  pose proof (searches_of_frame s (player_id initiator)) as (Hf & Hst & Hn).
  pose proof (λ pid' q, reg_searches_of s (player_id initiator) pid' q) as Hr.
  destruct (searches_of s (player_id initiator)) as [d s1]. simpl in *. subst d.
  specialize (Hn Hnd).
  fold (reg s (player_id initiator) qn).
  destruct (reg s (player_id initiator) qn) as [search|] eqn:Ereg; simpl.
  - destruct (unregister_fold qn (search_players search) s1 Hn)
      as (Hn2 & Hf2 & Hs2 & Hr2).
    split_and!; try done.
    + by eapply same_but_searches_trans.
    + congruence.
    + intros pid q. rewrite Hr2, Hr. done.
  - split_and!; done.
Qed.

Lemma nodup_keys_with_states s st : nodup_keys s → nodup_keys (with_states s st).
Proof. done. Qed.

Lemma _cancel_search_unfold s initiator qn :
  _cancel_search s initiator qn
  = match _clear_search s initiator qn with
    | (None, s) => (s, [])
    | (Some cancelled_search, s) =>
        foldl (notify_cancelled qn)
              (s, [EvSearchCancel (search_id cancelled_search)])
              (search_players cancelled_search)
    end.
Proof. reflexivity. Qed.

Lemma notify_cancelled_spec qn s evs p :
  let r := notify_cancelled qn (s, evs) p in
  r.2 = evs ++ [EvWriteMessage (player_id p) (search_info qn "stop")] ∧
  (nodup_keys s → nodup_keys r.1) ∧ same_but_searches s r.1 ∧
  (∀ pid q, reg r.1 pid q = reg s pid q) ∧
  (∀ pid, no_searches r.1 pid = no_searches s pid) ∧
  ∀ pid, states r.1 !! pid
         = if bool_decide (pid = player_id p) && no_searches s pid
              && bool_decide (states s !! pid = Some SEARCHING_LADDER)
           then Some IDLE else states s !! pid.
Proof.
  unfold notify_cancelled.
  pose proof (searches_of_fst s (player_id p)) as Hd.
  pose proof (searches_of_frame s (player_id p)) as (Hf & Hst & Hn).
  pose proof (λ pid' q, reg_searches_of s (player_id p) pid' q) as Hr.
  pose proof (λ pid', no_searches_searches_of s (player_id p) pid') as Hno.
  destruct (searches_of s (player_id p)) as [d s1]. simpl in Hd, Hf, Hst, Hn, Hr, Hno.
  assert (Hd' : no_searches s (player_id p)
                = match d with [] => true | _ => false end)
    by (unfold no_searches; by rewrite <- Hd).
  assert (Hother : ∀ pid, pid ≠ player_id p →
            (if bool_decide (pid = player_id p) && no_searches s pid
                && bool_decide (states s !! pid = Some SEARCHING_LADDER)
             then Some IDLE else states s !! pid) = states s !! pid).
  { intros pid Hne. by rewrite (bool_decide_eq_false_2 _ Hne). }
  cbv zeta. rewrite Hst.
  destruct d as [|x d'].
  - destruct (decide (states s !! player_id p = Some SEARCHING_LADDER)) as [Es|Es].
    + rewrite Es. simpl. split_and!; try done. intros pid.
      destruct (decide (pid = player_id p)) as [->|Hne].
      * rewrite lookup_insert_eq, Hd', Es.
        by rewrite !bool_decide_eq_true_2.
      * rewrite lookup_insert_ne by done. by rewrite Hother.
    + assert (Hs1 : match states s !! player_id p with
                    | Some SEARCHING_LADDER =>
                        with_states s1 (<[player_id p := IDLE]> (states s))
                    | _ => s1
                    end = s1)
        by (destruct (states s !! player_id p) as [[]|]; done).
      rewrite Hs1. simpl. split_and!; try done. intros pid. rewrite ?Hst.
      destruct (decide (pid = player_id p)) as [->|Hne]; [|by rewrite Hother].
      rewrite (bool_decide_eq_false_2 _ Es). by rewrite andb_false_r.
  - simpl. split_and!; try done. intros pid. rewrite ?Hst.
    destruct (decide (pid = player_id p)) as [->|Hne]; [|by rewrite Hother].
    rewrite Hd'. by rewrite andb_false_r.
Qed.

(** The loop of [_cancel_search] over the players of the cancelled search. *)
Lemma cancel_fold qn (players : list Player) : ∀ s evs,
  let r := foldl (notify_cancelled qn) (s, evs) players in
  r.2 = evs ++ map (λ p, EvWriteMessage (player_id p) (search_info qn "stop"))
                   players ∧
  (nodup_keys s → nodup_keys r.1) ∧ same_but_searches s r.1 ∧
  (∀ pid q, reg r.1 pid q = reg s pid q) ∧
  (∀ pid, no_searches r.1 pid = no_searches s pid) ∧
  ∀ pid, states r.1 !! pid
         = if bool_decide (pid ∈ map player_id players) && no_searches s pid
              && bool_decide (states s !! pid = Some SEARCHING_LADDER)
           then Some IDLE else states s !! pid.
Proof.
  induction players as [|p players IH]; intros s evs; cbv zeta.
  - simpl. rewrite app_nil_r. by split_and!.
  - cbn [foldl map].
    destruct (notify_cancelled_spec qn s evs p)
      as (He2 & Hn2 & Hf2 & Hr2 & Hno2 & Hs2).
    destruct (notify_cancelled qn (s, evs) p) as [s2 evs2].
    cbn [fst snd] in *.
    destruct (IH s2 evs2) as (He3 & Hn3 & Hf3 & Hr3 & Hno3 & Hs3).
    split_and!.
    + rewrite He3, He2, <- app_assoc. done.
    + auto.
    + by eapply same_but_searches_trans.
    + intros pid q. by rewrite Hr3, Hr2.
    + intros pid. by rewrite Hno3, Hno2.
    + intros pid. rewrite Hs3, Hs2, Hno2.
      clear. generalize (map player_id players). intros ids.
      destruct (decide (pid = player_id p)) as [Hp|Hp];
        destruct (decide (pid ∈ ids)) as [Hi|Hi];
        destruct (no_searches s pid);
        destruct (decide (states s !! pid = Some SEARCHING_LADDER)) as [Hs|Hs];
        repeat match goal with
          | |- context [bool_decide ?P] =>
              first [ rewrite (bool_decide_eq_true_2 P)
                        by (rewrite ?elem_of_cons; intuition congruence)
                    | rewrite (bool_decide_eq_false_2 P)
                        by (rewrite ?elem_of_cons; intuition congruence) ];
              simpl
          end; done.
Qed.

Lemma no_searches_reg s pid :
  no_searches s pid = true ↔ ∀ q, reg s pid q = None.
Proof.
  unfold no_searches, reg. split.
  - destruct (default [] (_searches s !! pid)); [done|discriminate].
  - intros H. by rewrite (dict_get_all_None _ H).
Qed.

Lemma no_searches_ext s s' pid :
  (∀ q, reg s' pid q = reg s pid q) → no_searches s' pid = no_searches s pid.
Proof.
  intros H. apply eq_true_iff_eq. rewrite !no_searches_reg.
  split; intros Hn q; [rewrite <- H|rewrite H]; apply Hn.
Qed.

(** What [_cancel_search] does, by whether the initiator has a search for
    the queue. *)
Lemma _cancel_search_spec s initiator qn :
  nodup_keys s →
  let r := _cancel_search s initiator qn in
  nodup_keys r.1 ∧ same_but_searches s r.1 ∧
  match reg s (player_id initiator) qn with
  | None =>
      r.2 = [] ∧ states r.1 = states s ∧ ∀ pid q, reg r.1 pid q = reg s pid q
  | Some search =>
      r.2 = EvSearchCancel (search_id search)
            :: map (λ p, EvWriteMessage (player_id p) (search_info qn "stop"))
                   (search_players search) ∧
      (∀ pid, states r.1 !! pid
              = if bool_decide (pid ∈ search_pids search) && no_searches r.1 pid
                   && bool_decide (states s !! pid = Some SEARCHING_LADDER)
                then Some IDLE else states s !! pid) ∧
      ∀ pid q, reg r.1 pid q
               = if bool_decide (q = qn ∧ pid ∈ search_pids search)
                 then None else reg s pid q
  end.
Proof.
  intros Hnd. cbv zeta. rewrite _cancel_search_unfold.
  destruct (_clear_search_spec s initiator qn Hnd) as (Ho & Hn1 & Hf1 & Hs1 & Hr1).
  destruct (_clear_search s initiator qn) as [o s1]. simpl in *. subst o.
  destruct (reg s (player_id initiator) qn) as [search|]; [|done].
  destruct (cancel_fold qn (search_players search) s1
              [EvSearchCancel (search_id search)])
    as (He2 & Hn2 & Hf2 & Hr2 & Hno2 & Hs2).
  split_and!.
  - auto.
  - by eapply same_but_searches_trans.
  - done.
  - intros pid. rewrite Hs2, Hno2, Hs1. done.
  - intros pid q. by rewrite Hr2, Hr1.
Qed.

Lemma consistent_ext s s' :
  consistent s → nodup_keys s' → (∀ pid q, reg s' pid q = reg s pid q) →
  consistent s'.
Proof.
  intros [_ Hc] Hnd Hr. split; [done|].
  intros pid q search. rewrite Hr. intros Hreg.
  destruct (Hc pid q search Hreg) as (H1 & Hd & H2). split_and!; [done..|].
  intros p Hp. rewrite Hr. by apply H2.
Qed.

(** Dropping a registered search under all its players keeps the registry
    consistent. *)
Lemma consistent_remove s s' i qn search :
  consistent s → reg s i qn = Some search → nodup_keys s' →
  (∀ pid q, reg s' pid q
            = if bool_decide (q = qn ∧ pid ∈ search_pids search)
              then None else reg s pid q) →
  consistent s'.
Proof.
  intros [_ Hc] Hi Hnd Hr. split; [done|].
  intros pid q search'. rewrite Hr. case_bool_decide as Hdel; [done|].
  intros Hreg. destruct (Hc pid q search' Hreg) as (H1 & Hd & H2).
  split_and!; [done..|].
  intros p Hp. rewrite Hr. rewrite bool_decide_eq_false_2; [by apply H2|].
  intros [-> Hin]. apply Hdel. split; [done|].
  (* [p] is a player of both searches, registered for the same queue *)
  destruct (Hc i qn search Hi) as (_ & _ & Hall).
  unfold search_pids in Hin.
  apply list_elem_of_In, in_map_iff in Hin as (p' & Hid & Hp').
  apply list_elem_of_In in Hp'.
  pose proof (Hall p' Hp') as Hreg'. rewrite Hid in Hreg'.
  rewrite (H2 p Hp) in Hreg'. injection Hreg' as ->. exact H1.
Qed.

Lemma consistent__cancel_search s initiator qn :
  consistent s → consistent (_cancel_search s initiator qn).1.
Proof.
  intros Hc. pose proof Hc as [Hnd _].
  destruct (_cancel_search_spec s initiator qn Hnd) as (Hn & _ & Hspec).
  destruct (reg s (player_id initiator) qn) as [search|] eqn:Ereg.
  - destruct Hspec as (_ & _ & Hr). by eapply consistent_remove.
  - destruct Hspec as (_ & _ & Hr). by eapply consistent_ext.
Qed.

Lemma consistent__clear_search s initiator qn :
  consistent s → consistent (_clear_search s initiator qn).2.
Proof.
  intros Hc. pose proof Hc as [Hnd _].
  destruct (_clear_search_spec s initiator qn Hnd) as (Ho & Hn & _ & _ & Hr).
  destruct (_clear_search s initiator qn) as [o s1]. simpl in *. subst o.
  destruct (reg s (player_id initiator) qn) as [search|] eqn:Ereg.
  - by eapply consistent_remove.
  - by eapply consistent_ext.
Qed.

Lemma cancel_search_one s initiator qn :
  cancel_search s initiator (Some qn) = _cancel_search s initiator qn.
Proof.
  unfold cancel_search. simpl. by destruct (_cancel_search s initiator qn).
Qed.

Lemma only_idles_refl s : only_idles s s.
Proof. intros pid. by left. Qed.

Lemma only_idles_trans s1 s2 s3 :
  only_idles s1 s2 → only_idles s2 s3 → only_idles s1 s3.
Proof.
  intros H1 H2 pid. destruct (H1 pid) as [E1|[E1 E1']], (H2 pid) as [E2|[E2 E2']].
  - left. congruence.
  - right. split; congruence.
  - right. split; congruence.
  - congruence.
Qed.

Lemma shrinks_trans s1 s2 s3 : shrinks s1 s2 → shrinks s2 s3 → shrinks s1 s3.
Proof. intros H1 H2 pid q search H. by apply H1, H2. Qed.

(** One cancellation, for the loops over queue names. *)
Lemma cancel_named_spec i s evs qn :
  consistent s →
  let r := cancel_named i (s, evs) qn in
  consistent r.1 ∧ same_but_searches s r.1 ∧ shrinks s r.1 ∧ only_idles s r.1 ∧
  (∃ tail, r.2 = evs ++ tail ∧
           (∀ sid, sid ∈ cancelled_searches tail →
                   ∃ search, reg s (player_id i) qn = Some search
                             ∧ search_id search = sid) ∧
           (∀ search, reg s (player_id i) qn = Some search →
              EvSearchCancel (search_id search) ∈ tail ∧
              ∀ p, p ∈ search_players search →
                   EvWriteMessage (player_id p) (search_info qn "stop") ∈ tail)) ∧
  (∀ pid q, reg r.1 pid q
            = match reg s (player_id i) qn with
              | Some search =>
                  if bool_decide (q = qn ∧ pid ∈ search_pids search)
                  then None else reg s pid q
              | None => reg s pid q
              end).
Proof.
  intros Hc. pose proof Hc as [Hnd _]. cbv zeta. unfold cancel_named.
  pose proof (consistent__cancel_search s i qn Hc) as Hc'.
  destruct (_cancel_search_spec s i qn Hnd) as (_ & Hf & Hspec).
  destruct (_cancel_search s i qn) as [s1 evs1]. simpl in *.
  destruct (reg s (player_id i) qn) as [search|] eqn:Ereg.
  - destruct Hspec as (-> & Hs & Hr). split_and!; try done.
    + intros pid q S. rewrite Hr. by case_bool_decide.
    + intros pid. rewrite Hs.
      destruct (bool_decide (pid ∈ search_pids search) && no_searches s1 pid)
        ; simpl; [|by left].
      case_bool_decide; [by right|by left].
    + eexists. split; [done|]. split.
      * intros sid Hsid. exists search. split; [done|].
        simpl in Hsid. apply elem_of_cons in Hsid as [->|Hsid]; [done|].
        exfalso. clear -Hsid. induction (search_players search) as [|p l IH];
          simpl in Hsid; [by apply elem_of_nil in Hsid|auto].
      * intros S [= <-]. split; [left|].
        intros p Hp. right.
        apply list_elem_of_In, in_map_iff. exists p.
        split; [done|]. by apply list_elem_of_In.
  - destruct Hspec as (-> & Hs & Hr). split_and!; try done.
    + intros pid q S. by rewrite Hr.
    + intros pid. left. by rewrite Hs.
    + exists []. split; [done|]. split; [|done].
      intros sid Hsid. by apply elem_of_nil in Hsid.
Qed.

Lemma cancelled_searches_app evs evs' :
  cancelled_searches (evs ++ evs')
  = cancelled_searches evs ++ cancelled_searches evs'.
Proof. unfold cancelled_searches. by rewrite flat_map_app. Qed.

(** Cancelling the searches of one player under a list of queue names. *)
Lemma cancel_names_fold i names : ∀ s evs,
  consistent s →
  let r := foldl (cancel_named i) (s, evs) names in
  consistent r.1 ∧ same_but_searches s r.1 ∧ shrinks s r.1 ∧ only_idles s r.1 ∧
  (∃ tail, r.2 = evs ++ tail ∧
           (∀ sid, sid ∈ cancelled_searches tail →
                   ∃ q search, q ∈ names ∧ reg s (player_id i) q = Some search
                               ∧ search_id search = sid) ∧
           (∀ q search, q ∈ names → reg s (player_id i) q = Some search →
              EvSearchCancel (search_id search) ∈ tail ∧
              ∀ p, p ∈ search_players search →
                   EvWriteMessage (player_id p) (search_info q "stop") ∈ tail)) ∧
  (∀ pid q, reg r.1 pid q
            = match reg s (player_id i) q with
              | Some search =>
                  if bool_decide (q ∈ names ∧ pid ∈ search_pids search)
                  then None else reg s pid q
              | None => reg s pid q
              end).
Proof.
  induction names as [|n names IH]; intros s evs Hc; cbv zeta.
  - simpl. split_and!.
    + done.
    + by apply same_but_searches_refl.
    + by intros ???.
    + by apply only_idles_refl.
    + exists []. rewrite app_nil_r. split_and!; try done.
      * intros sid Hsid. by apply elem_of_nil in Hsid.
      * intros q search Hq. by apply elem_of_nil in Hq.
    + intros pid q. by destruct (reg s (player_id i) q).
  - cbn [foldl].
    destruct (cancel_named_spec i s evs n Hc)
      as (Hc1 & Hf1 & Hsh1 & Hid1 & (tail1 & Ht1 & Hcan1 & Hev1) & Hr1).
    destruct (cancel_named i (s, evs) n) as [s1 evs1]. cbn [fst snd] in *.
    destruct (IH s1 evs1 Hc1)
      as (Hc2 & Hf2 & Hsh2 & Hid2 & (tail2 & Ht2 & Hcan2 & Hev2) & Hr2).
    split_and!.
    + done.
    + by eapply same_but_searches_trans.
    + by eapply shrinks_trans.
    + by eapply only_idles_trans.
    + exists (tail1 ++ tail2). split_and!.
      * by rewrite Ht2, Ht1, app_assoc.
      * intros sid. rewrite cancelled_searches_app, elem_of_app.
        intros [Hsid|Hsid].
        -- destruct (Hcan1 sid Hsid) as (search & ? & ?).
           exists n, search. split_and!; [left|done..].
        -- destruct (Hcan2 sid Hsid) as (q & search & Hq & Hreg & ?).
           exists q, search. split_and!; [by right| |done].
           by apply Hsh1.
      * intros q search Hq Hreg.
        destruct (decide (q = n)) as [->|Hne].
        -- destruct (Hev1 search Hreg) as [Ha Hb].
           split; [apply elem_of_app; by left|].
           intros p Hp. apply elem_of_app. left. by apply Hb.
        -- apply elem_of_cons in Hq as [?|Hq]; [done|].
           assert (reg s1 (player_id i) q = Some search) as Hreg1.
           { rewrite Hr1. destruct (reg s (player_id i) n); [|done].
             rewrite bool_decide_eq_false_2; [done|]. by intros [? _]. }
           destruct (Hev2 q search Hq Hreg1) as [Ha Hb].
           split; [apply elem_of_app; by right|].
           intros p Hp. apply elem_of_app. right. by apply Hb.
    + intros pid q. rewrite Hr2.
      destruct (decide (q = n)) as [->|Hne].
      * rewrite !Hr1.
        destruct (reg s (player_id i) n) as [search|] eqn:Ereg.
        -- destruct Hc as [_ Hc]. destruct (Hc _ _ _ Ereg) as (Hi & _ & _).
           rewrite (bool_decide_eq_true_2 (n = n ∧ player_id i ∈ _)) by done.
           apply (f_equal (λ b : bool, if b then None else reg s pid n)).
           apply bool_decide_ext. rewrite elem_of_cons. clear. tauto.
        -- done.
      * assert (∀ pid', reg s1 pid' q = reg s pid' q) as Hsame.
        { intros pid'. rewrite Hr1. destruct (reg s (player_id i) n); [|done].
          rewrite bool_decide_eq_false_2; [done|]. by intros [? _]. }
        rewrite !Hsame. destruct (reg s (player_id i) q) as [search|]; [|done].
        apply (f_equal (λ b : bool, if b then None else reg s pid q)).
        apply bool_decide_ext. rewrite elem_of_cons. clear -Hne. tauto.
Qed.

Lemma consistent_empty s : _searches s = ∅ → consistent s.
Proof.
  intros He. split.
  - intros pid d. by rewrite He, lookup_empty.
  - intros pid q search. unfold reg. by rewrite He, lookup_empty.
Qed.

(** The sample registry, where alice and bob search together, is
    consistent. *)
Lemma consistent_sample : consistent SampleStore.service.
Proof.
  assert (∀ pid, _searches SampleStore.service !! pid
                 = if bool_decide (pid = 1 ∨ pid = 2)
                   then Some [("tmm2v2", SampleStore.alice_and_bob)]
                   else None) as Hl.
  { intros pid. unfold SampleStore.service; simpl.
    destruct (decide (pid = 1)) as [->|H1]; [by vm_compute|].
    rewrite lookup_insert_ne by done.
    destruct (decide (pid = 2)) as [->|H2]; [by vm_compute|].
    rewrite lookup_singleton_ne by done.
    rewrite bool_decide_eq_false_2; [done|]. by intros [?|?]. }
  split.
  - intros pid d. rewrite Hl. case_bool_decide; [|done].
    intros [= <-]. apply (bool_decide_unpack _). vm_compute. exact I.
  - intros pid q search. unfold reg. rewrite Hl.
    case_bool_decide as Hpid; [|done]. simpl.
    destruct (decide ("tmm2v2" = q)) as [<-|Hq]; [|done]. intros [= <-].
    split_and!.
    + destruct Hpid as [->| ->]; apply (bool_decide_unpack _); by vm_compute.
    + apply (bool_decide_unpack _). by vm_compute.
    + intros p Hp. simpl in Hp.
      apply elem_of_cons in Hp as [->|Hp];
        [|apply list_elem_of_singleton in Hp as ->]; by vm_compute.
Qed.

(** X7. Cancelling the search that a player has registered for a queue,
    on a consistent registry: the search is cancelled once and each of its
    players is sent one stop message, in the order of the search; the search
    is unregistered for that queue under every one of its players and no
    other registration changes; a player changes state only if it belongs to
    the search, has no search left and was searching, and then becomes idle.
    The registry stays consistent. *)
Theorem cancel_search_effect s initiator qn search :
  consistent s →
  reg s (player_id initiator) qn = Some search →
  let r := cancel_search s initiator (Some qn) in
  consistent r.1 ∧ same_but_searches s r.1 ∧
  r.2 = EvSearchCancel (search_id search)
        :: map (λ p, EvWriteMessage (player_id p) (search_info qn "stop"))
               (search_players search) ∧
  (∀ pid q, reg r.1 pid q
            = if bool_decide (q = qn ∧ pid ∈ search_pids search)
              then None else reg s pid q) ∧
  (∀ pid, states r.1 !! pid
          = if bool_decide (pid ∈ search_pids search) && no_searches r.1 pid
               && bool_decide (states s !! pid = Some SEARCHING_LADDER)
            then Some IDLE else states s !! pid).
Proof.
  intros Hc Hreg. cbv zeta. rewrite cancel_search_one.
  pose proof (consistent__cancel_search s initiator qn Hc) as Hc'.
  destruct Hc as [Hnd _].
  destruct (_cancel_search_spec s initiator qn Hnd) as (_ & Hf & Hspec).
  rewrite Hreg in Hspec. destruct Hspec as (He & Hs & Hr).
  by split_and!.
Qed.

Lemma cancel_search_effect_witness :
  let r := cancel_search SampleStore.service Sample.alice (Some "tmm2v2") in
  consistent r.1 ∧ same_but_searches SampleStore.service r.1.
Proof.
  pose proof (cancel_search_effect SampleStore.service Sample.alice "tmm2v2"
                SampleStore.alice_and_bob consistent_sample) as H.
  cbv zeta in H. split; apply H; vm_compute; reflexivity.
Defined.

(** X8. Cancelling a search that is not registered does nothing: no event,
    no state and no registration changes.  Hence on a consistent registry
    cancelling the same queue for the same player a second time does
    nothing. *)
Theorem cancel_search_twice s initiator qn :
  consistent s →
  let r1 := cancel_search s initiator (Some qn) in
  let r2 := cancel_search r1.1 initiator (Some qn) in
  reg r1.1 (player_id initiator) qn = None ∧
  r2.2 = [] ∧ states r2.1 = states r1.1 ∧
  (∀ pid q, reg r2.1 pid q = reg r1.1 pid q) ∧
  (reg s (player_id initiator) qn = None →
   r1.2 = [] ∧ states r1.1 = states s ∧
   ∀ pid q, reg r1.1 pid q = reg s pid q).
Proof.
  intros Hc. cbv zeta. rewrite !cancel_search_one.
  pose proof (consistent__cancel_search s initiator qn Hc) as [Hnd1 _].
  pose proof Hc as [Hnd Hcs].
  destruct (_cancel_search_spec s initiator qn Hnd) as (_ & _ & Hspec).
  assert (reg (_cancel_search s initiator qn).1 (player_id initiator) qn = None)
    as Hgone.
  { destruct (reg s (player_id initiator) qn) as [search|] eqn:Ereg.
    - destruct Hspec as (_ & _ & Hr). rewrite Hr.
      rewrite bool_decide_eq_true_2; [done|]. split; [done|].
      by destruct (Hcs _ _ _ Ereg) as (? & _).
    - destruct Hspec as (_ & _ & Hr). by rewrite Hr. }
  destruct (_cancel_search_spec (_cancel_search s initiator qn).1 initiator qn
              Hnd1) as (_ & _ & Hspec2).
  rewrite Hgone in Hspec2. destruct Hspec2 as (He2 & Hs2 & Hr2).
  split_and!; try done.
  intros Hnone. by rewrite Hnone in Hspec.
Qed.

Lemma cancel_search_twice_witness :
  let r1 := cancel_search SampleStore.service Sample.alice (Some "tmm2v2") in
  let r2 := cancel_search r1.1 Sample.alice (Some "tmm2v2") in
  r1.2 ≠ [] ∧ r2.2 = [].
Proof.
  split; [by vm_compute|].
  apply (cancel_search_twice SampleStore.service Sample.alice "tmm2v2").
  exact consistent_sample.
Defined.

Lemma consistent_searches_of s pid :
  consistent s → consistent (searches_of s pid).2.
Proof.
  intros Hc. eapply consistent_ext; [done| |].
  - destruct Hc as [Hnd _]. by apply searches_of_frame.
  - intros. apply reg_searches_of.
Qed.

Lemma cancel_search_all_unfold s i :
  cancel_search s i None
  = foldl (cancel_named i) ((searches_of s (player_id i)).2, [])
          (Dict.keys (default [] (_searches s !! player_id i))).
Proof.
  unfold cancel_search. rewrite <- searches_of_fst.
  by destruct (searches_of s (player_id i)).
Qed.

Lemma reg_keys s pid q :
  q ∈ Dict.keys (default [] (_searches s !! pid)) ↔ is_Some (reg s pid q).
Proof. unfold reg. by rewrite dict_get_keys. Qed.

(** Cancelling every search of a player. *)
Lemma cancel_search_all_spec s i :
  consistent s →
  let r := cancel_search s i None in
  consistent r.1 ∧ same_but_searches s r.1 ∧ only_idles s r.1 ∧
  (∀ pid q, reg r.1 pid q
            = match reg s (player_id i) q with
              | Some search =>
                  if bool_decide (pid ∈ search_pids search)
                  then None else reg s pid q
              | None => reg s pid q
              end) ∧
  (∀ q, reg r.1 (player_id i) q = None) ∧
  (∀ sid, sid ∈ cancelled_searches r.2 →
          ∃ q search, reg s (player_id i) q = Some search
                      ∧ search_id search = sid) ∧
  (∀ q search, reg s (player_id i) q = Some search →
     EvSearchCancel (search_id search) ∈ r.2 ∧
     ∀ p, p ∈ search_players search →
          EvWriteMessage (player_id p) (search_info q "stop") ∈ r.2).
Proof.
  intros Hc. cbv zeta. rewrite cancel_search_all_unfold.
  pose proof (consistent_searches_of s (player_id i) Hc) as Hc0.
  destruct (searches_of_frame s (player_id i)) as (Hf0 & Hs0 & _).
  destruct (cancel_names_fold i
              (Dict.keys (default [] (_searches s !! player_id i)))
              _ [] Hc0)
    as (Hc1 & Hf1 & Hsh1 & Hid1 & (tail & Ht & Hcan & Hev) & Hr).
  simpl in Ht. subst tail.
  assert (∀ pid q, reg (foldl (cancel_named i)
                          ((searches_of s (player_id i)).2, [])
                          (Dict.keys (default [] (_searches s !! player_id i)))).1
                       pid q
            = match reg s (player_id i) q with
              | Some search =>
                  if bool_decide (pid ∈ search_pids search)
                  then None else reg s pid q
              | None => reg s pid q
              end) as Hr'.
  { intros pid q. rewrite Hr, !reg_searches_of.
    destruct (reg s (player_id i) q) as [search|] eqn:Ereg; [|done].
    apply (f_equal (λ b : bool, if b then None else reg s pid q)).
    apply bool_decide_ext. rewrite reg_keys, Ereg.
    split; [by intros [_ ?]|]. intros ?. split; [by eexists|done]. }
  split_and!.
  - done.
  - by eapply same_but_searches_trans.
  - intros pid. destruct (Hid1 pid) as [E|E]; rewrite Hs0 in E; [by left|by right].
  - done.
  - intros q. rewrite Hr'.
    destruct (reg s (player_id i) q) as [search|] eqn:Ereg; [|done].
    destruct Hc as [_ Hc]. destruct (Hc _ _ _ Ereg) as (Hi & _).
    by rewrite bool_decide_eq_true_2.
  - intros sid Hsid. destruct (Hcan sid Hsid) as (q & search & _ & Hreg & ?).
    rewrite reg_searches_of in Hreg. by exists q, search.
  - intros q search Hreg. apply Hev.
    + apply reg_keys. by rewrite Hreg.
    + by rewrite reg_searches_of.
Qed.

Lemma cancel_named_fst i s evs qn :
  (cancel_named i (s, evs) qn).1 = (_cancel_search s i qn).1.
Proof. unfold cancel_named. by destruct (_cancel_search s i qn). Qed.

(** A searching player with a search is idle once all its searches are
    cancelled. *)
Lemma cancel_search_all_idle s i :
  consistent s →
  states s !! player_id i = Some SEARCHING_LADDER →
  no_searches s (player_id i) = false →
  states (cancel_search s i None).1 !! player_id i = Some IDLE.
Proof.
  intros Hc Hst Hno.
  destruct (cancel_search_all_spec s i Hc) as (_ & _ & _ & _ & Hnone & _).
  apply no_searches_reg in Hnone. revert Hnone.
  rewrite cancel_search_all_unfold.
  pose proof (consistent_searches_of s (player_id i) Hc) as Hc0.
  destruct (searches_of_frame s (player_id i)) as (_ & Hs0 & _).
  pose proof (nodup_keys_default s (player_id i) (proj1 Hc)) as Hnd.
  assert (∀ q, q ∈ Dict.keys (default [] (_searches s !! player_id i))
               → is_Some (reg s (player_id i) q)) as Hkeys.
  { intros q. by rewrite reg_keys. }
  assert (Dict.keys (default [] (_searches s !! player_id i)) ≠ []) as Hne.
  { unfold no_searches in Hno.
    by destruct (default [] (_searches s !! player_id i)) as [|[]]. }
  destruct (exists_last Hne) as (init & last & Heq).
  rewrite Heq in Hnd, Hkeys |- *. clear Heq Hne.
  rewrite foldl_app. cbn [foldl].
  destruct (cancel_names_fold i init _ [] Hc0)
    as (Hc1 & _ & _ & Hid1 & _ & Hr1).
  destruct (foldl (cancel_named i) ((searches_of s (player_id i)).2, []) init)
    as [cur evs]. cbn [fst snd] in *.
  rewrite cancel_named_fst. intros Hnone.
  apply NoDup_app in Hnd as (_ & Hdisj & _).
  destruct (Hkeys last) as [search Hreg];
    [apply elem_of_app; right; apply list_elem_of_singleton; done|].
  assert (reg cur (player_id i) last = Some search) as Hcur.
  { rewrite Hr1, reg_searches_of, Hreg.
    rewrite bool_decide_eq_false_2; [done|]. intros [Hin _].
    apply (Hdisj last Hin), list_elem_of_singleton. done. }
  destruct (_cancel_search_spec cur i last (proj1 Hc1)) as (_ & _ & Hspec).
  rewrite Hcur in Hspec. destruct Hspec as (_ & Hs & _).
  rewrite Hs, Hnone.
  destruct Hc1 as [_ Hc1]. destruct (Hc1 _ _ _ Hcur) as (Hi & _).
  rewrite (bool_decide_eq_true_2 _ Hi). simpl.
  destruct (Hid1 (player_id i)) as [E|[_ E]]; rewrite ?Hs0 in E.
  - rewrite E, Hst. by rewrite bool_decide_eq_true_2.
  - rewrite E. by rewrite bool_decide_eq_false_2.
Qed.

(** X9. Cancelling all searches of a player ([queue_name] is [None]), on a
    consistent registry: the player is left without any registration; every
    search it had is cancelled, unregistered under all its players, and each
    of them is sent a stop message for that queue; nothing else is cancelled
    and no other registration changes.  States only change from searching to
    idle, and a searching player that had a search ends idle.  The registry
    stays consistent. *)
Theorem cancel_search_all s i :
  consistent s →
  let r := cancel_search s i None in
  consistent r.1 ∧ same_but_searches s r.1 ∧
  (∀ q, reg r.1 (player_id i) q = None) ∧
  (∀ pid q, reg r.1 pid q
            = match reg s (player_id i) q with
              | Some search =>
                  if bool_decide (pid ∈ search_pids search)
                  then None else reg s pid q
              | None => reg s pid q
              end) ∧
  (∀ q search, reg s (player_id i) q = Some search →
     EvSearchCancel (search_id search) ∈ r.2 ∧
     ∀ p, p ∈ search_players search →
          EvWriteMessage (player_id p) (search_info q "stop") ∈ r.2) ∧
  (∀ sid, sid ∈ cancelled_searches r.2 →
          ∃ q search, reg s (player_id i) q = Some search
                      ∧ search_id search = sid) ∧
  only_idles s r.1 ∧
  (states s !! player_id i = Some SEARCHING_LADDER →
   no_searches s (player_id i) = false →
   states r.1 !! player_id i = Some IDLE).
Proof.
  intros Hc. cbv zeta.
  destruct (cancel_search_all_spec s i Hc)
    as (Hc1 & Hf & Hid & Hr & Hnone & Hcan & Hev).
  split_and!; try done. by apply cancel_search_all_idle.
Qed.

Lemma cancel_search_all_witness :
  states (cancel_search SampleStore.service Sample.alice None).1 !! 1
  = Some IDLE.
Proof.
  apply (cancel_search_all SampleStore.service Sample.alice
           consistent_sample).
  - vm_compute. reflexivity.
  - vm_compute. reflexivity.
Defined.

Lemma nodup_keys_delete s pid :
  nodup_keys s → nodup_keys (with_searches s (delete pid (_searches s))).
Proof.
  intros Hnd pid' d. simpl. rewrite lookup_delete_Some. intros [_ H].
  by eapply Hnd.
Qed.

Lemma reg_delete s pid :
  (∀ q, reg s pid q = None) →
  ∀ pid' q, reg (with_searches s (delete pid (_searches s))) pid' q
            = reg s pid' q.
Proof.
  intros Hnone pid' q. unfold reg at 1. simpl.
  destruct (decide (pid = pid')) as [<-|Hne].
  - by rewrite lookup_delete_eq, Hnone.
  - by rewrite lookup_delete_ne.
Qed.

(** X10. A connection without a player changes nothing.  When the connection
    of a player is lost, on a consistent registry: the player's entry is
    removed from the registry and the player from the informed players, no
    other player leaves or joins the informed players, and the queues are
    kept; every search the player had is cancelled, unregistered under each
    of its players (the partners too), who are each sent a stop message; no
    other registration changes; the registry stays consistent. *)
Theorem connection_lost s player :
  consistent s →
  on_connection_lost s None = (s, []) ∧
  let pid := player_id player in
  let r := on_connection_lost s (Some player) in
  consistent r.1 ∧
  _searches r.1 !! pid = None ∧
  (pid ∉ _informed_players r.1) ∧
  (∀ pid', pid' ≠ pid →
           (pid' ∈ _informed_players r.1 ↔ pid' ∈ _informed_players s)) ∧
  queues r.1 = queues s ∧
  (∀ pid' q, reg r.1 pid' q
             = match reg s pid q with
               | Some search =>
                   if bool_decide (pid' ∈ search_pids search)
                   then None else reg s pid' q
               | None => reg s pid' q
               end) ∧
  (∀ q search, reg s pid q = Some search →
     EvSearchCancel (search_id search) ∈ r.2 ∧
     ∀ p, p ∈ search_players search →
          reg r.1 (player_id p) q = None ∧
          EvWriteMessage (player_id p) (search_info q "stop") ∈ r.2) ∧
  (∀ sid, sid ∈ cancelled_searches r.2 →
          ∃ q search, reg s pid q = Some search ∧ search_id search = sid) ∧
  only_idles s r.1.
Proof.
  intros Hc. split; [done|]. cbv zeta. unfold on_connection_lost.
  destruct (cancel_search_all_spec s player Hc)
    as (Hc1 & (_ & Hinf & Hq) & Hid & Hr & Hnone & Hcan & Hev).
  destruct (cancel_search s player None) as [s1 evs]. cbn [fst snd] in *.
  set (s2 := with_searches s1 (delete (player_id player) (_searches s1))).
  assert (∀ pid' q, reg s2 pid' q = reg s1 pid' q) as Hr2
    by (by apply reg_delete).
  assert (consistent s2) as Hc2.
  { eapply consistent_ext; [exact Hc1| |exact Hr2].
    apply nodup_keys_delete. by destruct Hc1. }
  assert (_searches s2 !! player_id player = None) as Hdel
    by (subst s2; simpl; apply lookup_delete_eq).
  assert (_informed_players s2 = _informed_players s) as Hinf2 by done.
  assert (queues s2 = queues s) as Hq2 by done.
  assert (states s2 = states s1) as Hst2 by done.
  clearbody s2.
  assert (∀ pid' q,
            reg (if bool_decide (player_id player ∈ _informed_players s2)
                 then with_informed s2
                        (_informed_players s2 ∖ {[player_id player]})
                 else s2) pid' q = reg s2 pid' q) as Hr3
    by (intros; by case_bool_decide).
  split_and!.
  - eapply consistent_ext; [exact Hc2| |exact Hr3].
    destruct Hc2 as [Hnd _]. by case_bool_decide.
  - by case_bool_decide.
  - case_bool_decide; simpl; [|done].
    rewrite not_elem_of_difference. right. by apply elem_of_singleton.
  - intros pid' Hne. rewrite <- Hinf2. case_bool_decide; simpl; [|done].
    rewrite elem_of_difference, elem_of_singleton. clear -Hne. tauto.
  - by case_bool_decide.
  - intros pid' q. by rewrite Hr3, Hr2, Hr.
  - intros q search Hreg. destruct (Hev q search Hreg) as [Ha Hb].
    split; [done|]. intros p Hp. split; [|by apply Hb].
    rewrite Hr3, Hr2, Hr, Hreg. rewrite bool_decide_eq_true_2; [done|].
    apply list_elem_of_In, in_map. by apply list_elem_of_In.
  - done.
  - intros pid'. replace (states _) with (states s1) by (by case_bool_decide).
    apply Hid.
Qed.

Lemma connection_lost_witness :
  let r := on_connection_lost SampleStore.service (Some Sample.alice) in
  _searches r.1 !! 1 = None ∧ (1 ∉ _informed_players r.1).
Proof.
  pose proof (connection_lost SampleStore.service Sample.alice
                consistent_sample) as (_ & _ & H1 & H2 & _).
  split; [exact H1|exact H2].
Defined.

(** ** Matches found *)

Lemma search_pids_elem p search :
  p ∈ search_players search → player_id p ∈ search_pids search.
Proof. intros Hp. apply list_elem_of_In, in_map. by apply list_elem_of_In. Qed.

(** When all the searches of one player are removed under all their
    players, a registration survives exactly when its search is not one of
    that player's. *)
Lemma reg_removed_iff s s' i :
  consistent s →
  (∀ pid q, reg s' pid q
            = match reg s i q with
              | Some search =>
                  if bool_decide (pid ∈ search_pids search)
                  then None else reg s pid q
              | None => reg s pid q
              end) →
  ∀ pid q search,
    reg s' pid q = Some search
    ↔ reg s pid q = Some search ∧ i ∉ search_pids search.
Proof.
  intros [_ Hc] Hr pid q search. rewrite Hr. split.
  - intros H.
    assert (reg s pid q = Some search) as Hreg.
    { destruct (reg s i q); [|done]. by case_bool_decide. }
    split; [done|]. intros Hi.
    destruct (Hc _ _ _ Hreg) as (Hpid & _ & Hall).
    apply list_elem_of_In, in_map_iff in Hi as (p & Hid & Hp).
    apply list_elem_of_In in Hp. pose proof (Hall p Hp) as Hp'.
    rewrite Hid in Hp'. rewrite Hp' in H.
    by rewrite bool_decide_eq_true_2 in H.
  - intros [Hreg Hi]. destruct (reg s i q) as [search'|] eqn:Ei; [|done].
    rewrite bool_decide_eq_false_2; [done|]. intros Hpid.
    destruct (Hc _ _ _ Ei) as (Hi' & _ & Hall).
    apply list_elem_of_In, in_map_iff in Hpid as (p & Hid & Hp).
    apply list_elem_of_In in Hp. pose proof (Hall p Hp) as Hp'.
    rewrite Hid, Hreg in Hp'. injection Hp' as ->. done.
Qed.

Lemma consistent_with_states s st : consistent s → consistent (with_states s st).
Proof.
  intros Hc. eapply consistent_ext; [exact Hc| |done].
  apply nodup_keys_with_states. by destruct Hc.
Qed.

(** One player of a match that was found. *)
Lemma match_found_player_spec queue s evs p :
  consistent s →
  let r := match_found_player queue (s, evs) p in
  consistent r.1 ∧ same_but_searches s r.1 ∧
  (∀ pid q, reg r.1 pid q
            = match reg s (player_id p) q with
              | Some search =>
                  if bool_decide (pid ∈ search_pids search)
                  then None else reg s pid q
              | None => reg s pid q
              end) ∧
  states r.1 !! player_id p = Some STARTING_AUTOMATCH ∧
  (∀ pid, pid ≠ player_id p →
          states r.1 !! pid = states s !! pid ∨
          (states s !! pid = Some SEARCHING_LADDER
           ∧ states r.1 !! pid = Some IDLE)) ∧
  ∃ tail,
    r.2 = evs ++ EvWriteMessage (player_id p) (match_found (queue_name queue))
                 :: tail ∧
    (∀ sid, sid ∈ cancelled_searches tail →
            ∃ q search, q ≠ queue_name queue
                        ∧ reg s (player_id p) q = Some search
                        ∧ search_id search = sid) ∧
    (∀ q search, q ≠ queue_name queue →
       reg s (player_id p) q = Some search →
       EvSearchCancel (search_id search) ∈ tail ∧
       ∀ p', p' ∈ search_players search →
             EvWriteMessage (player_id p') (search_info q "stop") ∈ tail).
Proof.
  intros Hc. cbv zeta. unfold match_found_player.
  set (s0 := with_states s (<[player_id p := STARTING_AUTOMATCH]> (states s))).
  assert (consistent s0) as Hc0 by (by apply consistent_with_states).
  assert (∀ pid q, reg s0 pid q = reg s pid q) as Hr0 by done.
  assert (same_but_searches s s0) as Hf0 by done.
  assert (states s0 !! player_id p = Some STARTING_AUTOMATCH) as Hst0
    by (subst s0; simpl; apply lookup_insert_eq).
  assert (∀ pid, pid ≠ player_id p → states s0 !! pid = states s !! pid)
    as Hst0' by (intros; subst s0; simpl; by apply lookup_insert_ne).
  clearbody s0.
  pose proof (consistent_searches_of s0 (player_id p) Hc0) as Hc0'.
  destruct (searches_of_frame s0 (player_id p)) as (Hf0' & Hs0' & _).
  pose proof (searches_of_fst s0 (player_id p)) as Hd.
  pose proof (λ pid q, reg_searches_of s0 (player_id p) pid q) as Hr0'.
  destruct (searches_of s0 (player_id p)) as [d s0']. cbn [fst snd] in *.
  subst d.
  set (names := filter (λ name, name ≠ queue_name queue)
                       (Dict.keys (default [] (_searches s0 !! player_id p)))).
  assert (∀ q, q ∈ names
               ↔ q ≠ queue_name queue ∧ is_Some (reg s (player_id p) q))
    as Hnames.
  { intros q. subst names. by rewrite list_elem_of_filter, reg_keys, Hr0. }
  clearbody names.
  destruct (cancel_names_fold p names s0'
              (evs ++ [EvWriteMessage (player_id p)
                         (match_found (queue_name queue))]) Hc0')
    as (Hc1 & Hf1 & Hsh1 & Hid1 & (tail & Ht & Hcan & Hev) & Hr1).
  change (foldl _ ?a names) with (foldl (cancel_named p) a names).
  destruct (foldl (cancel_named p) _ names) as [s1 evs1]. cbn [fst snd] in *.
  destruct (_clear_search_spec s1 p (queue_name queue) (proj1 Hc1))
    as (Ho & Hnd2 & Hf2 & Hs2 & Hr2).
  pose proof (consistent__clear_search s1 p (queue_name queue) Hc1) as Hc2.
  destruct (_clear_search s1 p (queue_name queue)) as [o s2].
  cbn [fst snd] in *. subst o.
  assert (∀ pid q, reg s1 pid q
            = match reg s (player_id p) q with
              | Some search =>
                  if bool_decide (q ≠ queue_name queue
                                  ∧ pid ∈ search_pids search)
                  then None else reg s pid q
              | None => reg s pid q
              end) as Hr1'.
  { intros pid q. rewrite Hr1, !Hr0', !Hr0.
    destruct (reg s (player_id p) q) as [search|] eqn:Ereg; [|done].
    apply (f_equal (λ b : bool, if b then None else reg s pid q)).
    apply bool_decide_ext. rewrite Hnames, Ereg.
    split; [by intros [[? _] ?]|]. intros [? ?]. split; [|done].
    split; [done|by eexists]. }
  split_and!.
  - done.
  - eapply same_but_searches_trans; [exact Hf0|].
    eapply same_but_searches_trans; [exact Hf0'|].
    by eapply same_but_searches_trans.
  - intros pid q. rewrite Hr2.
    assert (reg s1 (player_id p) (queue_name queue)
            = reg s (player_id p) (queue_name queue)) as Hq.
    { rewrite Hr1'. destruct (reg s (player_id p) (queue_name queue)); [|done].
      rewrite bool_decide_eq_false_2; [done|]. by intros [? _]. }
    rewrite Hq. destruct (decide (q = queue_name queue)) as [->|Hne].
    + rewrite Hr1'.
      destruct (reg s (player_id p) (queue_name queue)) as [search|]; [|done].
      rewrite (bool_decide_eq_false_2 (_ ≠ _ ∧ _)) by (by intros [? _]).
      apply (f_equal (λ b : bool,
               if b then None else reg s pid (queue_name queue))).
      apply bool_decide_ext. clear. tauto.
    + transitivity (reg s1 pid q).
      { destruct (reg s (player_id p) (queue_name queue)); [|done].
        rewrite bool_decide_eq_false_2; [done|]. by intros [? _]. }
      rewrite Hr1'. destruct (reg s (player_id p) q) as [search|]; [|done].
      apply (f_equal (λ b : bool, if b then None else reg s pid q)).
      apply bool_decide_ext. clear -Hne. tauto.
  - rewrite Hs2. destruct (Hid1 (player_id p)) as [E|[E _]];
      rewrite Hs0' in E; congruence.
  - intros pid Hpid. rewrite Hs2, <- (Hst0' pid Hpid), <- Hs0'. apply Hid1.
  - exists tail. split_and!.
    + by rewrite Ht, <- app_assoc.
    + intros sid Hsid. destruct (Hcan sid Hsid) as (q & search & Hq & Hreg & ?).
      exists q, search. rewrite Hr0', Hr0 in Hreg.
      apply Hnames in Hq as [? _]. done.
    + intros q search Hq Hreg. apply Hev.
      * apply Hnames. split; [done|by eexists].
      * by rewrite Hr0', Hr0.
Qed.

(** All the players of a match that was found. *)
Lemma match_found_fold queue ps : ∀ s evs,
  consistent s →
  let r := foldl (match_found_player queue) (s, evs) ps in
  consistent r.1 ∧ same_but_searches s r.1 ∧
  (∀ pid q search,
     reg r.1 pid q = Some search
     ↔ reg s pid q = Some search
       ∧ ∀ p, p ∈ ps → player_id p ∉ search_pids search) ∧
  (∀ p, p ∈ ps → states r.1 !! player_id p = Some STARTING_AUTOMATCH) ∧
  (∀ pid, pid ∉ map player_id ps →
          states r.1 !! pid = states s !! pid ∨
          (states s !! pid = Some SEARCHING_LADDER
           ∧ states r.1 !! pid = Some IDLE)) ∧
  ∃ tail,
    r.2 = evs ++ tail ∧
    (∀ p, p ∈ ps →
          EvWriteMessage (player_id p) (match_found (queue_name queue))
          ∈ tail) ∧
    (∀ sid, sid ∈ cancelled_searches tail →
            ∃ p q search, p ∈ ps ∧ q ≠ queue_name queue
                          ∧ reg s (player_id p) q = Some search
                          ∧ search_id search = sid) ∧
    (∀ p q search, p ∈ ps → q ≠ queue_name queue →
       reg s (player_id p) q = Some search →
       EvSearchCancel (search_id search) ∈ tail ∧
       ∀ p', p' ∈ search_players search →
             EvWriteMessage (player_id p') (search_info q "stop") ∈ tail).
Proof.
  induction ps as [|p0 ps IH]; intros s evs Hc; cbv zeta.
  - simpl. split_and!.
    + done.
    + by apply same_but_searches_refl.
    + intros pid q search. split; [intros ?; split; [done|]|by intros [? _]].
      intros p Hp. by apply elem_of_nil in Hp.
    + intros p Hp. by apply elem_of_nil in Hp.
    + intros pid _. by left.
    + exists []. rewrite app_nil_r. split_and!; try done.
      * intros p Hp. by apply elem_of_nil in Hp.
      * intros sid Hsid. by apply elem_of_nil in Hsid.
      * intros p q search Hp. by apply elem_of_nil in Hp.
  - cbn [foldl].
    destruct (match_found_player_spec queue s evs p0 Hc)
      as (Hc1 & Hf1 & Hr1 & Hst1 & Hoth1 & (tail1 & Ht1 & Hcan1 & Hev1)).
    pose proof (reg_removed_iff s _ (player_id p0) Hc Hr1) as Hiff1.
    destruct (match_found_player queue (s, evs) p0) as [s1 evs1].
    cbn [fst snd] in *.
    destruct (IH s1 evs1 Hc1)
      as (Hc2 & Hf2 & Hiff2 & Hst2 & Hoth2 & (tail2 & Ht2 & Hmsg2 & Hcan2 & Hev2)).
    split_and!.
    + done.
    + by eapply same_but_searches_trans.
    + intros pid q search. rewrite Hiff2, Hiff1. split.
      * intros [[Hreg H0] Hps]. split; [done|].
        intros p [->|Hp]%elem_of_cons; [done|by apply Hps].
      * intros [Hreg Hps]. split_and!; [done| |].
        -- apply Hps. left.
        -- intros p Hp. apply Hps. by right.
    + intros p [->|Hp]%elem_of_cons; [|by apply Hst2].
      destruct (decide (player_id p0 ∈ map player_id ps)) as [Hin|Hout].
      * apply list_elem_of_In, in_map_iff in Hin as (p' & Hid & Hp').
        rewrite <- Hid. apply Hst2. by apply list_elem_of_In.
      * destruct (Hoth2 _ Hout) as [E|[E _]]; congruence.
    + intros pid Hpid. cbn [map] in Hpid.
      apply not_elem_of_cons in Hpid as [Hne Hpid].
      destruct (Hoth1 pid Hne) as [E1|[E1 E1']],
               (Hoth2 pid Hpid) as [E2|[E2 E2']].
      * left. congruence.
      * right. split; congruence.
      * right. split; congruence.
      * congruence.
    + exists ((EvWriteMessage (player_id p0) (match_found (queue_name queue))
               :: tail1) ++ tail2).
      split_and!.
      * by rewrite Ht2, Ht1, <- app_assoc.
      * intros p [->|Hp]%elem_of_cons.
        -- apply elem_of_app. left. left.
        -- apply elem_of_app. right. by apply Hmsg2.
      * intros sid. rewrite cancelled_searches_app, elem_of_app.
        intros [Hsid|Hsid].
        -- destruct (Hcan1 sid Hsid) as (q & search & ? & ? & ?).
           exists p0, q, search. split_and!; [left|done..].
        -- destruct (Hcan2 sid Hsid) as (p & q & search & Hp & ? & Hreg & ?).
           exists p, q, search. split_and!; [by right|done| |done].
           by apply Hiff1 in Hreg as [? _].
      * intros p q search Hp Hq Hreg.
        destruct (decide (player_id p0 ∈ search_pids search)) as [Hin|Hout].
        -- (* the search is also the first player's: cancelled there *)
           assert (reg s (player_id p0) q = Some search) as Hreg0.
           { destruct Hc as [_ Hc]. destruct (Hc _ _ _ Hreg) as (_ & _ & Hall).
             apply list_elem_of_In, in_map_iff in Hin as (p' & Hid & Hp').
             rewrite <- Hid. apply Hall. by apply list_elem_of_In. }
           destruct (Hev1 q search Hq Hreg0) as [Ha Hb].
           split; [apply elem_of_app; left; by right|].
           intros p' Hp'. apply elem_of_app. left. right. by apply Hb.
        -- apply elem_of_cons in Hp as [->|Hp].
           { exfalso. apply Hout.
             destruct Hc as [_ Hc]. by destruct (Hc _ _ _ Hreg) as (? & _). }
           assert (reg s1 (player_id p) q = Some search) as Hreg1
             by (by apply Hiff1).
           destruct (Hev2 p q search Hp Hq Hreg1) as [Ha Hb].
           split; [apply elem_of_app; by right|].
           intros p' Hp'. apply elem_of_app. right. by apply Hb.
Qed.

Lemma cancel_named_events i s evs qn :
  consistent s → Forall search_event evs →
  Forall search_event (cancel_named i (s, evs) qn).2.
Proof.
  intros [Hnd _] Hevs. unfold cancel_named.
  destruct (_cancel_search_spec s i qn Hnd) as (_ & _ & Hspec).
  destruct (_cancel_search s i qn) as [s1 evs1]. cbn [fst snd] in *.
  apply Forall_app. split; [done|].
  destruct (reg s (player_id i) qn) as [search|].
  - destruct Hspec as (-> & _). constructor; [done|].
    apply Forall_forall. intros ev Hev.
    apply list_elem_of_In, in_map_iff in Hev as (p & <- & _). done.
  - by destruct Hspec as (-> & _).
Qed.

Lemma cancel_names_events i names : ∀ s evs,
  consistent s → Forall search_event evs →
  Forall search_event (foldl (cancel_named i) (s, evs) names).2.
Proof.
  induction names as [|n names IH]; intros s evs Hc Hevs; [done|].
  cbn [foldl].
  pose proof (cancel_named_events i s evs n Hc Hevs) as Hevs1.
  destruct (cancel_named_spec i s evs n Hc) as (Hc1 & _).
  destruct (cancel_named i (s, evs) n) as [s1 evs1]. by apply IH.
Qed.

Lemma match_found_player_events queue s evs p :
  consistent s → Forall search_event evs →
  Forall search_event (match_found_player queue (s, evs) p).2.
Proof.
  intros Hc Hevs. unfold match_found_player.
  set (s0 := with_states s (<[player_id p := STARTING_AUTOMATCH]> (states s))).
  assert (consistent s0) as Hc0 by (by apply consistent_with_states).
  clearbody s0.
  pose proof (consistent_searches_of s0 (player_id p) Hc0) as Hc0'.
  destruct (searches_of s0 (player_id p)) as [d s0']. cbn [fst snd] in *.
  set (names := filter (λ name, name ≠ queue_name queue) (Dict.keys d)).
  clearbody names.
  assert (Forall search_event
            (evs ++ [EvWriteMessage (player_id p)
                       (match_found (queue_name queue))])) as Hevs0.
  { apply Forall_app. split; [done|]. by constructor. }
  pose proof (cancel_names_events p names s0' _ Hc0' Hevs0) as Hevs1.
  change (foldl _ ?a names) with (foldl (cancel_named p) a names).
  destruct (foldl (cancel_named p) _ names) as [s1 evs1]. cbn [fst snd] in *.
  by destruct (_clear_search s1 p (queue_name queue)) as [o s2].
Qed.

Lemma match_found_events queue ps : ∀ s evs,
  consistent s → Forall search_event evs →
  Forall search_event (foldl (match_found_player queue) (s, evs) ps).2.
Proof.
  induction ps as [|p ps IH]; intros s evs Hc Hevs; [done|].
  cbn [foldl].
  pose proof (match_found_player_events queue s evs p Hc Hevs) as Hevs1.
  destruct (match_found_player_spec queue s evs p Hc) as (Hc1 & _).
  destruct (match_found_player queue (s, evs) p) as [s1 evs1]. by apply IH.
Qed.

(** X11. When a queue reports a match, on a consistent registry: every
    player of the two searches is set to starting, is sent [match_found] and
    is left without any registration; a registration of anybody survives
    exactly when its search has none of the matched players; the searches
    cancelled are those the matched players had for other queues, all of
    them, so a search registered for the queue of the match is removed
    without being cancelled; other players only change from searching to
    idle.  The game is started with the players of the two searches exactly
    when they are equally many; otherwise the failed assertion is logged.
    The registry stays consistent. *)
Theorem match_found_effect s s1 s2 queue :
  consistent s →
  let r := on_match_found s s1 s2 queue in
  let ps := search_players s1 ++ search_players s2 in
  consistent r.1.1 ∧ same_but_searches s r.1.1 ∧
  (∀ p, p ∈ ps →
        states r.1.1 !! player_id p = Some STARTING_AUTOMATCH ∧
        (∀ q, reg r.1.1 (player_id p) q = None) ∧
        EvWriteMessage (player_id p) (match_found (queue_name queue))
        ∈ r.1.2) ∧
  (∀ pid q search,
     reg r.1.1 pid q = Some search
     ↔ reg s pid q = Some search
       ∧ ∀ p, p ∈ ps → player_id p ∉ search_pids search) ∧
  (∀ pid, pid ∉ map player_id ps →
          states r.1.1 !! pid = states s !! pid ∨
          (states s !! pid = Some SEARCHING_LADDER
           ∧ states r.1.1 !! pid = Some IDLE)) ∧
  (∀ sid, sid ∈ cancelled_searches r.1.2 →
          ∃ p q search, p ∈ ps ∧ q ≠ queue_name queue
                        ∧ reg s (player_id p) q = Some search
                        ∧ search_id search = sid) ∧
  (∀ p q search, p ∈ ps → q ≠ queue_name queue →
     reg s (player_id p) q = Some search →
     EvSearchCancel (search_id search) ∈ r.1.2 ∧
     ∀ p', p' ∈ search_players search →
           EvWriteMessage (player_id p') (search_info q "stop") ∈ r.1.2) ∧
  r.2 = (if bool_decide (length (search_players s1)
                         = length (search_players s2))
         then Some (search_players s1, search_players s2) else None) ∧
  (EvLog ERROR "Error processing match between searches" ∈ r.1.2
   ↔ length (search_players s1) ≠ length (search_players s2)).
Proof.
  intros Hc. cbv zeta. unfold on_match_found.
  destruct (match_found_fold queue (search_players s1 ++ search_players s2)
              s [] Hc)
    as (Hc1 & Hf & Hiff & Hst & Hoth & (tail & Ht & Hmsg & Hcan & Hev)).
  pose proof (match_found_events queue
                (search_players s1 ++ search_players s2) s [] Hc
                (Forall_nil_2 _)) as Hkinds.
  destruct (foldl (match_found_player queue) (s, [])
                  (search_players s1 ++ search_players s2)) as [s' evs].
  cbn [fst snd app] in *. subst tail.
  assert (EvLog ERROR "Error processing match between searches" ∉ evs)
    as Hnolog.
  { intros Hin. rewrite Forall_forall in Hkinds. exact (Hkinds _ Hin). }
  assert (∀ p, p ∈ search_players s1 ++ search_players s2 →
          ∀ q, reg s' (player_id p) q = None) as Hnone.
  { intros p Hp q. destruct (reg s' (player_id p) q) as [search|] eqn:E; [|done].
    apply Hiff in E as [E Hps]. exfalso. apply (Hps p Hp).
    destruct Hc as [_ Hc]. by destruct (Hc _ _ _ E) as (? & _). }
  case_bool_decide as Hlen; cbn [fst snd].
  - split_and!; try done.
    intros p Hp. split_and!; [by apply Hst|by apply Hnone|by apply Hmsg].
  - split_and!; try done.
    + intros p Hp. split_and!; [by apply Hst|by apply Hnone|].
      apply elem_of_app. left. by apply Hmsg.
    + intros sid. rewrite cancelled_searches_app. simpl. rewrite app_nil_r.
      apply Hcan.
    + intros p q search Hp Hq Hreg. destruct (Hev p q search Hp Hq Hreg) as [Ha Hb].
      split; [apply elem_of_app; by left|].
      intros p' Hp'. apply elem_of_app. left. by apply Hb.
    + split; [done|]. intros _. apply elem_of_app. right. left.
Qed.

Lemma match_found_effect_witness :
  let other :=
    {| search_id := 10; search_players := [Sample.carol; Sample.dave];
       search_rating_type := "tmm_2v2"; search_queue := "tmm2v2" |} in
  let r := on_match_found SampleStore.service SampleStore.alice_and_bob
             other Sample.tmm2v2 in
  consistent r.1.1 ∧ cancelled_searches r.1.2 = [].
Proof.
  split; [|by vm_compute].
  apply (match_found_effect SampleStore.service SampleStore.alice_and_bob).
  exact consistent_sample.
Defined.

(** ** Starting a search *)

Lemma start_search_unfold s violations now fresh players qn :
  get_violations violations now players = [] →
  start_search s violations now fresh players qn
  = let '(s, evs) := foldl (cancel_existing qn) (s, []) players in
    match Dict.get (queues s) qn with
    | None => (s, evs, Some KeyError)
    | Some queue =>
        let '(s, evs) :=
          foldl (register_search queue qn (new_search fresh players queue qn))
                (s, evs) players in
        (s, evs ++ [EvQueueSearch qn fresh], None)
    end.
Proof. intros Hv. unfold start_search. rewrite Hv. reflexivity. Qed.

Lemma searches_of_idem s pid :
  searches_of (searches_of s pid).2 pid
  = ((searches_of s pid).1, (searches_of s pid).2).
Proof.
  unfold searches_of. destruct (_searches s !! pid) eqn:E; simpl.
  - by rewrite E.
  - by rewrite lookup_insert_eq.
Qed.

Lemma cancel_existing_named qn s evs p :
  cancel_existing qn (s, evs) p
  = cancel_named p ((searches_of s (player_id p)).2, evs) qn.
Proof.
  unfold cancel_existing, cancel_named.
  pose proof (searches_of_idem s (player_id p)) as Hidem.
  destruct (searches_of s (player_id p)) as [d s0]. cbn [fst snd] in *.
  unfold Dict.mem. destruct (Dict.get d qn) as [search|] eqn:Eget; [done|].
  unfold _cancel_search, _clear_search. rewrite Hidem, Eget.
  by rewrite app_nil_r.
Qed.

(** One player of the first loop of [start_search]. *)
Lemma cancel_existing_spec qn s evs p :
  consistent s →
  let r := cancel_existing qn (s, evs) p in
  consistent r.1 ∧ same_but_searches s r.1 ∧ only_idles s r.1 ∧
  Forall search_event (drop (length evs) r.2) ∧
  (∃ tail, r.2 = evs ++ tail ∧
           (∀ sid, sid ∈ cancelled_searches tail →
                   ∃ search, reg s (player_id p) qn = Some search
                             ∧ search_id search = sid) ∧
           (∀ search, reg s (player_id p) qn = Some search →
              EvSearchCancel (search_id search) ∈ tail ∧
              ∀ p', p' ∈ search_players search →
                    EvWriteMessage (player_id p') (search_info qn "stop")
                    ∈ tail)) ∧
  (∀ pid q search,
     reg r.1 pid q = Some search
     ↔ reg s pid q = Some search
       ∧ ¬ (q = qn ∧ player_id p ∈ search_pids search)).
Proof.
  intros Hc. cbv zeta. rewrite cancel_existing_named.
  pose proof (consistent_searches_of s (player_id p) Hc) as Hc0.
  destruct (searches_of_frame s (player_id p)) as (Hf0 & Hs0 & _).
  pose proof (λ pid q, reg_searches_of s (player_id p) pid q) as Hr0.
  pose proof (cancel_named_events p (searches_of s (player_id p)).2 [] qn Hc0
                (Forall_nil_2 _)) as Hkinds.
  assert (∀ s0 evs0, (cancel_named p (s0, evs0) qn).2
                     = evs0 ++ (cancel_named p (s0, []) qn).2) as Hsplit.
  { intros s0 evs0. unfold cancel_named. by destruct (_cancel_search s0 p qn). }
  destruct (cancel_named_spec p _ evs qn Hc0)
    as (Hc1 & Hf1 & _ & Hid1 & (tail & Ht & Hcan & Hev) & Hr1).
  split_and!.
  - done.
  - by eapply same_but_searches_trans.
  - intros pid. destruct (Hid1 pid) as [E|E]; rewrite Hs0 in E; [by left|by right].
  - by rewrite Hsplit, drop_app_length.
  - exists tail. split_and!; [done| |].
    + intros sid Hsid. destruct (Hcan sid Hsid) as (search & Hreg & ?).
      rewrite Hr0 in Hreg. by exists search.
    + intros search Hreg. apply Hev. by rewrite Hr0.
  - intros pid q search. rewrite Hr1, !Hr0. destruct Hc as [_ Hc]. split.
    + intros H.
      assert (reg s pid q = Some search) as Hreg.
      { destruct (reg s (player_id p) qn); [|done]. by case_bool_decide. }
      split; [done|]. intros [-> Hi].
      destruct (Hc _ _ _ Hreg) as (Hpid & _ & Hall).
      apply list_elem_of_In, in_map_iff in Hi as (p' & Hid & Hp).
      apply list_elem_of_In in Hp. pose proof (Hall p' Hp) as Hp'.
      rewrite Hid in Hp'. rewrite Hp' in H.
      by rewrite bool_decide_eq_true_2 in H.
    + intros [Hreg Hi].
      destruct (reg s (player_id p) qn) as [search'|] eqn:Ei; [|done].
      rewrite bool_decide_eq_false_2; [done|]. intros [-> Hpid].
      destruct (Hc _ _ _ Ei) as (Hi' & _ & Hall).
      apply list_elem_of_In, in_map_iff in Hpid as (p' & Hid & Hp).
      apply list_elem_of_In in Hp. pose proof (Hall p' Hp) as Hp'.
      rewrite Hid, Hreg in Hp'. injection Hp' as ->. by apply Hi.
Qed.

(** The first loop of [start_search]. *)
Lemma cancel_existing_fold qn ps : ∀ s evs,
  consistent s →
  let r := foldl (cancel_existing qn) (s, evs) ps in
  consistent r.1 ∧ same_but_searches s r.1 ∧ only_idles s r.1 ∧
  (∃ tail, r.2 = evs ++ tail ∧ Forall search_event tail ∧
           (∀ sid, sid ∈ cancelled_searches tail →
                   ∃ p search, p ∈ ps ∧ reg s (player_id p) qn = Some search
                               ∧ search_id search = sid) ∧
           (∀ p search, p ∈ ps → reg s (player_id p) qn = Some search →
              EvSearchCancel (search_id search) ∈ tail ∧
              ∀ p', p' ∈ search_players search →
                    EvWriteMessage (player_id p') (search_info qn "stop")
                    ∈ tail)) ∧
  (∀ pid q search,
     reg r.1 pid q = Some search
     ↔ reg s pid q = Some search
       ∧ ¬ (q = qn ∧ ∃ p, p ∈ ps ∧ player_id p ∈ search_pids search)).
Proof.
  induction ps as [|p0 ps IH]; intros s evs Hc; cbv zeta.
  - simpl. split_and!.
    + done.
    + by apply same_but_searches_refl.
    + by apply only_idles_refl.
    + exists []. rewrite app_nil_r. split_and!; try done.
      * intros sid Hsid. by apply elem_of_nil in Hsid.
      * intros p search Hp. by apply elem_of_nil in Hp.
    + intros pid q search. split; [|by intros [? _]].
      intros ?. split; [done|]. intros (_ & p & Hp & _).
      by apply elem_of_nil in Hp.
  - cbn [foldl].
    destruct (cancel_existing_spec qn s evs p0 Hc)
      as (Hc1 & Hf1 & Hid1 & Hk1 & (tail1 & Ht1 & Hcan1 & Hev1) & Hiff1).
    destruct (cancel_existing qn (s, evs) p0) as [s1 evs1].
    cbn [fst snd] in *. rewrite Ht1, drop_app_length in Hk1.
    destruct (IH s1 evs1 Hc1)
      as (Hc2 & Hf2 & Hid2 & (tail2 & Ht2 & Hk2 & Hcan2 & Hev2) & Hiff2).
    split_and!.
    + done.
    + by eapply same_but_searches_trans.
    + by eapply only_idles_trans.
    + exists (tail1 ++ tail2). split_and!.
      * by rewrite Ht2, Ht1, app_assoc.
      * by apply Forall_app.
      * intros sid. rewrite cancelled_searches_app, elem_of_app.
        intros [Hsid|Hsid].
        -- destruct (Hcan1 sid Hsid) as (search & ? & ?).
           exists p0, search. split_and!; [left|done..].
        -- destruct (Hcan2 sid Hsid) as (p & search & Hp & Hreg & ?).
           exists p, search. split_and!; [by right| |done].
           by apply Hiff1 in Hreg as [? _].
      * intros p search Hp Hreg.
        destruct (decide (player_id p0 ∈ search_pids search)) as [Hin|Hout].
        -- assert (reg s (player_id p0) qn = Some search) as Hreg0.
           { destruct Hc as [_ Hc]. destruct (Hc _ _ _ Hreg) as (_ & _ & Hall).
             apply list_elem_of_In, in_map_iff in Hin as (p' & Hid & Hp').
             rewrite <- Hid. apply Hall. by apply list_elem_of_In. }
           destruct (Hev1 search Hreg0) as [Ha Hb].
           split; [apply elem_of_app; by left|].
           intros p' Hp'. apply elem_of_app. left. by apply Hb.
        -- apply elem_of_cons in Hp as [->|Hp].
           { exfalso. apply Hout.
             destruct Hc as [_ Hc]. by destruct (Hc _ _ _ Hreg) as (? & _). }
           assert (reg s1 (player_id p) qn = Some search) as Hreg1.
           { apply Hiff1. split; [done|]. by intros [_ ?]. }
           destruct (Hev2 p search Hp Hreg1) as [Ha Hb].
           split; [apply elem_of_app; by right|].
           intros p' Hp'. apply elem_of_app. right. by apply Hb.
    + intros pid q search. rewrite Hiff2, Hiff1. split.
      * intros [[Hreg H0] Hps]. split; [done|].
        intros (-> & p & [->|Hp]%elem_of_cons & Hin).
        -- by apply H0.
        -- apply Hps. split; [done|]. by exists p.
      * intros [Hreg Hps]. split_and!; [done| |].
        -- intros [-> Hin]. apply Hps. split; [done|]. exists p0.
           split; [left|done].
        -- intros (-> & p & Hp & Hin). apply Hps. split; [done|]. exists p.
           split; [by right|done].
Qed.

Lemma write_rating_progress_frame s p rt :
  let r := write_rating_progress s p rt in
  _searches r.1 = _searches s ∧ states r.1 = states s ∧
  queues r.1 = queues s ∧ _is_running r.1 = _is_running s ∧
  (∀ x, x ∈ _informed_players r.1
        ↔ x = player_id p ∨ x ∈ _informed_players s) ∧
  Forall search_event r.2 ∧ cancelled_searches r.2 = [].
Proof.
  cbv zeta. unfold write_rating_progress. case_bool_decide as Hin.
  - simpl. split_and!; try done. intros x. split; [by right|].
    by intros [->|?].
  - assert (∀ x, x ∈ {[player_id p]} ∪ _informed_players s
                 ↔ x = player_id p ∨ x ∈ _informed_players s) as Hx.
    { intros x. by rewrite elem_of_union, elem_of_singleton. }
    repeat case_match; simpl; split_and!; try done; by repeat constructor.
Qed.

(** One player of the second loop of [start_search]. *)
Lemma register_search_spec queue qn search s evs p :
  nodup_keys s →
  let r := register_search queue qn search (s, evs) p in
  nodup_keys r.1 ∧ queues r.1 = queues s ∧ _is_running r.1 = _is_running s ∧
  (∀ x, x ∈ _informed_players r.1
        ↔ x = player_id p ∨ x ∈ _informed_players s) ∧
  states r.1 = <[player_id p := SEARCHING_LADDER]> (states s) ∧
  (∀ pid q, reg r.1 pid q
            = if bool_decide (pid = player_id p ∧ q = qn)
              then Some search else reg s pid q) ∧
  ∃ tail, r.2 = evs ++ tail ∧ Forall search_event tail ∧
          cancelled_searches tail = [] ∧
          EvWriteMessage (player_id p) (search_info qn "start") ∈ tail.
Proof.
  intros Hnd. cbv zeta. unfold register_search.
  set (s0 := with_states s (<[player_id p := SEARCHING_LADDER]> (states s))).
  destruct (write_rating_progress_frame s0 p (rating_type queue))
    as (Hse & Hst & Hq & Hrun & Hinf & Hk & Hcan).
  destruct (write_rating_progress s0 p (rating_type queue)) as [s1 evs1].
  cbn [fst snd] in *.
  assert (nodup_keys s1) as Hnd1.
  { intros pid d. rewrite Hse. apply Hnd. }
  assert (∀ pid q, reg s1 pid q = reg s pid q) as Hr1.
  { intros pid q. unfold reg. by rewrite Hse. }
  destruct (searches_of_frame s1 (player_id p)) as ((Hrun2 & Hinf2 & Hq2) & Hst2 & Hnd2).
  specialize (Hnd2 Hnd1).
  pose proof (searches_of_fst s1 (player_id p)) as Hd.
  pose proof (λ pid q, reg_searches_of s1 (player_id p) pid q) as Hr2.
  destruct (searches_of s1 (player_id p)) as [d s2]. cbn [fst snd] in *.
  split_and!.
  - intros pid d'. simpl. destruct (decide (player_id p = pid)) as [<-|Hne].
    + rewrite lookup_insert_eq. intros [= <-]. apply dict_nodup_set.
      subst d. by apply nodup_keys_default.
    + rewrite lookup_insert_ne by done. apply Hnd2.
  - simpl. by rewrite Hq2, Hq.
  - simpl. by rewrite Hrun2, Hrun.
  - intros x. simpl. by rewrite Hinf2, Hinf.
  - simpl. by rewrite Hst2, Hst.
  - intros pid q. unfold reg at 1. simpl.
    destruct (decide (pid = player_id p)) as [->|Hne].
    + rewrite lookup_insert_eq. simpl.
      destruct (decide (q = qn)) as [->|Hq'].
      * rewrite dict_get_set_eq. by rewrite bool_decide_eq_true_2.
      * rewrite dict_get_set_ne by done.
        rewrite bool_decide_eq_false_2 by (by intros [_ ?]).
        subst d. by rewrite <- Hr1.
    + rewrite lookup_insert_ne by done.
      rewrite bool_decide_eq_false_2 by (by intros [? _]).
      rewrite <- Hr1, <- Hr2. done.
  - eexists. split; [done|]. split_and!.
    + apply Forall_app. split; [done|]. by constructor.
    + by rewrite cancelled_searches_app, Hcan.
    + apply elem_of_app. right. left.
Qed.

(** The second loop of [start_search]. *)
Lemma register_search_fold queue qn search ps : ∀ s evs,
  nodup_keys s →
  let r := foldl (register_search queue qn search) (s, evs) ps in
  nodup_keys r.1 ∧ queues r.1 = queues s ∧ _is_running r.1 = _is_running s ∧
  (∀ x, x ∈ _informed_players r.1
        ↔ x ∈ map player_id ps ∨ x ∈ _informed_players s) ∧
  (∀ pid, states r.1 !! pid
          = if bool_decide (pid ∈ map player_id ps)
            then Some SEARCHING_LADDER else states s !! pid) ∧
  (∀ pid q, reg r.1 pid q
            = if bool_decide (pid ∈ map player_id ps ∧ q = qn)
              then Some search else reg s pid q) ∧
  ∃ tail, r.2 = evs ++ tail ∧ Forall search_event tail ∧
          cancelled_searches tail = [] ∧
          ∀ p, p ∈ ps →
               EvWriteMessage (player_id p) (search_info qn "start") ∈ tail.
Proof.
  induction ps as [|p0 ps IH]; intros s evs Hnd; cbv zeta.
  - simpl. split_and!; try done.
    + intros x. split; [by right|]. by intros [?%elem_of_nil|?].
    + exists []. rewrite app_nil_r. split_and!; try done.
      intros p Hp. by apply elem_of_nil in Hp.
  - cbn [foldl].
    destruct (register_search_spec queue qn search s evs p0 Hnd)
      as (Hnd1 & Hq1 & Hrun1 & Hinf1 & Hst1 & Hr1 & (tail1 & Ht1 & Hk1 & Hcan1 & Hm1)).
    destruct (register_search queue qn search (s, evs) p0) as [s1 evs1].
    cbn [fst snd] in *.
    destruct (IH s1 evs1 Hnd1)
      as (Hnd2 & Hq2 & Hrun2 & Hinf2 & Hst2 & Hr2 & (tail2 & Ht2 & Hk2 & Hcan2 & Hm2)).
    split_and!.
    + done.
    + congruence.
    + congruence.
    + intros x. rewrite Hinf2, Hinf1. cbn [map]. rewrite elem_of_cons. tauto.
    + intros pid. rewrite Hst2, Hst1. cbn [map].
      destruct (decide (pid = player_id p0)) as [->|Hne].
      * rewrite lookup_insert_eq.
        rewrite (bool_decide_eq_true_2 (_ ∈ _ :: _)) by left.
        by case_bool_decide.
      * rewrite lookup_insert_ne by done.
        apply (f_equal (λ b : bool,
                 if b then Some SEARCHING_LADDER else states s !! pid)).
        apply bool_decide_ext. rewrite elem_of_cons. clear -Hne. tauto.
    + intros pid q. rewrite Hr2, Hr1. cbn [map].
      case_bool_decide as H2.
      * rewrite bool_decide_eq_true_2; [done|].
        destruct H2. split; [by right|done].
      * case_bool_decide as H1.
        -- rewrite bool_decide_eq_true_2; [done|].
           destruct H1 as [-> ->]. split; [left|done].
        -- rewrite bool_decide_eq_false_2; [done|].
           intros [[->|?]%elem_of_cons ->]; [by apply H1|by apply H2].
    + exists (tail1 ++ tail2). split_and!.
      * by rewrite Ht2, Ht1, app_assoc.
      * by apply Forall_app.
      * by rewrite cancelled_searches_app, Hcan1, Hcan2.
      * intros p [->|Hp]%elem_of_cons; apply elem_of_app;
          [by left|right; by apply Hm2].
Qed.

Lemma cancel_existing_stops qn ps : ∀ s evs,
  consistent s → Forall (stop_event qn) evs →
  Forall (stop_event qn) (foldl (cancel_existing qn) (s, evs) ps).2.
Proof.
  induction ps as [|p ps IH]; intros s evs Hc Hevs; [done|].
  cbn [foldl].
  destruct (cancel_existing_spec qn s evs p Hc) as (Hc1 & _).
  assert (Forall (stop_event qn) (cancel_existing qn (s, evs) p).2) as Hevs1.
  { rewrite cancel_existing_named. unfold cancel_named.
    pose proof (consistent_searches_of s (player_id p) Hc) as [Hnd _].
    destruct (_cancel_search_spec _ p qn Hnd) as (_ & _ & Hspec).
    destruct (_cancel_search (searches_of s (player_id p)).2 p qn)
      as [s1 evs1]. cbn [fst snd] in *.
    apply Forall_app. split; [done|].
    destruct (reg (searches_of s (player_id p)).2 (player_id p) qn)
      as [search|].
    - destruct Hspec as (-> & _). constructor; [done|].
      apply Forall_forall. intros ev Hev.
      apply list_elem_of_In, in_map_iff in Hev as (p' & <- & _). done.
    - by destruct Hspec as (-> & _). }
  destruct (cancel_existing qn (s, evs) p) as [s1 evs1]. by apply IH.
Qed.

(** X12. A search started by players without an active violation, for a
    queue that the service knows, on a consistent registry and for a party
    that lists no player twice: no exception is raised; every player of the
    party is registered for the queue with the new search, is set searching,
    is among the informed players and is sent the start message; the
    searches that players of the party had for this queue are cancelled,
    with stop messages to all their players, and nothing else is cancelled;
    apart from the party's entries for the queue, a registration survives
    exactly when it is not for this queue with a search of a player of the
    party; other players only change from searching to idle; the new search
    is handed to the queue last and once.  The registry stays consistent. *)
Theorem start_search_registers s violations now fresh players qn queue :
  consistent s →
  NoDup (map player_id players) →
  get_violations violations now players = [] →
  Dict.get (queues s) qn = Some queue →
  let r := start_search s violations now fresh players qn in
  let search := new_search fresh players queue qn in
  r.2 = None ∧ consistent r.1.1 ∧ queues r.1.1 = queues s ∧
  (∀ p, p ∈ players →
        reg r.1.1 (player_id p) qn = Some search ∧
        states r.1.1 !! player_id p = Some SEARCHING_LADDER ∧
        player_id p ∈ _informed_players r.1.1 ∧
        EvWriteMessage (player_id p) (search_info qn "start") ∈ r.1.2) ∧
  (∀ pid q old,
     ¬ (pid ∈ map player_id players ∧ q = qn) →
     reg r.1.1 pid q = Some old
     ↔ reg s pid q = Some old
       ∧ ¬ (q = qn ∧ ∃ p, p ∈ players ∧ player_id p ∈ search_pids old)) ∧
  (∀ pid, pid ∉ map player_id players →
          states r.1.1 !! pid = states s !! pid ∨
          (states s !! pid = Some SEARCHING_LADDER
           ∧ states r.1.1 !! pid = Some IDLE)) ∧
  (∀ p old, p ∈ players → reg s (player_id p) qn = Some old →
     EvSearchCancel (search_id old) ∈ r.1.2 ∧
     ∀ p', p' ∈ search_players old →
           EvWriteMessage (player_id p') (search_info qn "stop") ∈ r.1.2) ∧
  (∀ sid, sid ∈ cancelled_searches r.1.2 →
          ∃ p old, p ∈ players ∧ reg s (player_id p) qn = Some old
                   ∧ search_id old = sid) ∧
  ∃ evs, r.1.2 = evs ++ [EvQueueSearch qn fresh] ∧ Forall search_event evs.
Proof.
  intros Hc Hnodup Hv Hq. cbv zeta. rewrite start_search_unfold by done.
  destruct (cancel_existing_fold qn players s [] Hc)
    as (Hc1 & (Hrun1 & Hinf1 & Hq1) & Hid1
        & (tail1 & Ht1 & Hk1 & Hcan1 & Hev1) & Hiff1).
  destruct (foldl (cancel_existing qn) (s, []) players) as [s1 evs1].
  cbn [fst snd app] in *. subst tail1. rewrite Hq1, Hq.
  destruct (register_search_fold queue qn (new_search fresh players queue qn)
              players s1 evs1 (proj1 Hc1))
    as (Hnd2 & Hq2 & Hrun2 & Hinf2 & Hst2 & Hr2
        & (tail2 & Ht2 & Hk2 & Hcan2 & Hm2)).
  destruct (foldl (register_search queue qn _) (s1, evs1) players)
    as [s2 evs2]. cbn [fst snd] in *. subst evs2.
  split_and!.
  - done.
  - split; [done|]. intros pid q old. rewrite Hr2.
    case_bool_decide as Hnew.
    + intros [= <-]. destruct Hnew as [Hpid ->]. split_and!; [done..|].
      intros p Hp. rewrite Hr2. rewrite bool_decide_eq_true_2; [done|].
      split; [|done]. apply list_elem_of_In, in_map. by apply list_elem_of_In.
    + intros Hreg. destruct Hc1 as [_ Hc1].
      destruct (Hc1 _ _ _ Hreg) as (Hpid & Hnd & Hall).
      split_and!; [done..|]. intros p Hp. rewrite Hr2.
      rewrite bool_decide_eq_false_2; [by apply Hall|].
      intros [Hin ->]. apply Hiff1 in Hreg as [_ Hno]. apply Hno.
      split; [done|].
      apply list_elem_of_In, in_map_iff in Hin as (p' & Hid & Hp').
      apply list_elem_of_In in Hp'. exists p'. split; [done|].
      rewrite Hid. by apply search_pids_elem.
  - congruence.
  - intros p Hp.
    assert (player_id p ∈ map player_id players) as Hin
      by (apply list_elem_of_In, in_map; by apply list_elem_of_In).
    split_and!.
    + rewrite Hr2. by rewrite bool_decide_eq_true_2.
    + rewrite Hst2. by rewrite bool_decide_eq_true_2.
    + apply Hinf2. by left.
    + apply elem_of_app. left. apply elem_of_app. right. by apply Hm2.
  - intros pid q old Hnot. rewrite Hr2.
    rewrite bool_decide_eq_false_2 by done. apply Hiff1.
  - intros pid Hpid. rewrite Hst2. rewrite bool_decide_eq_false_2 by done.
    apply Hid1.
  - intros p old Hp Hreg. destruct (Hev1 p old Hp Hreg) as [Ha Hb].
    split; [apply elem_of_app; left; apply elem_of_app; by left|].
    intros p' Hp'. apply elem_of_app. left. apply elem_of_app. left.
    by apply Hb.
  - intros sid. rewrite !cancelled_searches_app, Hcan2. simpl.
    rewrite !app_nil_r. apply Hcan1.
  - eexists. split; [done|]. by apply Forall_app.
Qed.

Lemma start_search_registers_witness :
  let r := start_search SampleStore.service ∅ 0 77
             [Sample.alice; Sample.carol] "tmm2v2" in
  r.2 = None ∧ consistent r.1.1.
Proof.
  pose proof (start_search_registers SampleStore.service ∅ 0 77
                [Sample.alice; Sample.carol] "tmm2v2" Sample.tmm2v2
                consistent_sample) as H.
  cbv zeta in H. split; apply H;
    try (apply (bool_decide_unpack _); vm_compute; exact I);
    vm_compute; reflexivity.
Defined.

Lemma consistent_with_queues s qs : consistent s → consistent (with_queues s qs).
Proof. intros [Hnd Hc]. by split. Qed.

(** X13. A search started for a queue that the service does not know, by
    players without an active violation, raises [KeyError], but only after
    the searches that the players had under that name were cancelled: these
    are unregistered under all their players, who are sent stop messages.
    Nothing else is sent or cancelled, no search is registered or queued,
    and states only change from searching to idle. *)
Theorem start_search_unknown_queue s violations now fresh players qn :
  consistent s →
  get_violations violations now players = [] →
  Dict.get (queues s) qn = None →
  let r := start_search s violations now fresh players qn in
  r.2 = Some KeyError ∧ consistent r.1.1 ∧ same_but_searches s r.1.1 ∧
  only_idles s r.1.1 ∧ Forall (stop_event qn) r.1.2 ∧
  (∀ pid q old,
     reg r.1.1 pid q = Some old
     ↔ reg s pid q = Some old
       ∧ ¬ (q = qn ∧ ∃ p, p ∈ players ∧ player_id p ∈ search_pids old)) ∧
  (∀ p old, p ∈ players → reg s (player_id p) qn = Some old →
     EvSearchCancel (search_id old) ∈ r.1.2 ∧
     ∀ p', p' ∈ search_players old →
           EvWriteMessage (player_id p') (search_info qn "stop") ∈ r.1.2) ∧
  (∀ sid, sid ∈ cancelled_searches r.1.2 →
          ∃ p old, p ∈ players ∧ reg s (player_id p) qn = Some old
                   ∧ search_id old = sid).
Proof.
  intros Hc Hv Hq. cbv zeta. rewrite start_search_unfold by done.
  destruct (cancel_existing_fold qn players s [] Hc)
    as (Hc1 & Hf1 & Hid1 & (tail1 & Ht1 & Hk1 & Hcan1 & Hev1) & Hiff1).
  pose proof (cancel_existing_stops qn players s [] Hc (Forall_nil_2 _))
    as Hstops.
  destruct (foldl (cancel_existing qn) (s, []) players) as [s1 evs1].
  cbn [fst snd app] in *. subst tail1.
  destruct Hf1 as (Hrun1 & Hinf1 & Hq1). rewrite Hq1, Hq.
  by split_and!.
Qed.

Lemma start_search_unknown_queue_witness :
  let s := with_queues SampleStore.service
             [("ladder1v1", Sample.ladder1v1)] in
  let r := start_search s ∅ 0 77 [Sample.alice] "tmm2v2" in
  r.2 = Some KeyError ∧ cancelled_searches r.1.2 = [9].
Proof.
  split; [|by vm_compute].
  apply (start_search_unknown_queue
           (with_queues SampleStore.service [("ladder1v1", Sample.ladder1v1)])
           ∅ 0 77 [Sample.alice] "tmm2v2").
  - apply consistent_with_queues, consistent_sample.
  - vm_compute. reflexivity.
  - vm_compute. reflexivity.
Defined.

(** ** States and registry *)

Lemma no_searches_false s pid :
  no_searches s pid = false ↔ ∃ q search, reg s pid q = Some search.
Proof.
  rewrite <- not_true_iff_false, no_searches_reg. split.
  - intros Hn. unfold reg in *.
    destruct (default [] (_searches s !! pid)) as [|[q search] d].
    + by destruct Hn.
    + exists q, search. simpl. by rewrite decide_True.
  - intros (q & search & Hreg) Hn. by rewrite Hn in Hreg.
Qed.

Lemma coherent_ext s s' :
  coherent s → nodup_keys s' → (∀ pid q, reg s' pid q = reg s pid q) →
  states s' = states s → coherent s'.
Proof.
  intros [Hc Hst] Hnd Hr Hs. split; [by eapply consistent_ext|].
  intros pid. rewrite Hs, Hst. by rewrite (no_searches_ext s s' pid).
Qed.

Lemma coherent_searches_of s pid : coherent s → coherent (searches_of s pid).2.
Proof.
  intros Hc. destruct (searches_of_frame s pid) as (_ & Hs & Hnd).
  eapply coherent_ext; [exact Hc| | |done].
  - apply Hnd. by destruct Hc as [[? _] _].
  - intros. apply reg_searches_of.
Qed.

Lemma coherent__cancel_search s i qn :
  coherent s → coherent (_cancel_search s i qn).1.
Proof.
  intros [Hc Hst]. split; [by apply consistent__cancel_search|].
  destruct (_cancel_search_spec s i qn (proj1 Hc)) as (_ & _ & Hspec).
  destruct (reg s (player_id i) qn) as [search|] eqn:Ereg.
  - destruct Hspec as (_ & Hs & Hr). intros pid. rewrite Hs.
    destruct (decide (pid ∈ search_pids search)) as [Hin|Hout].
    + rewrite (bool_decide_eq_true_2 _ Hin). cbn [andb].
      destruct (no_searches (_cancel_search s i qn).1 pid) eqn:Eno; cbn [andb].
      * case_bool_decide as Hsearching; [done|]. split; [done|discriminate].
      * rewrite Hst. split; [done|]. intros _.
        apply no_searches_false in Eno as (q & old & Hreg).
        apply no_searches_false. exists q, old.
        rewrite Hr in Hreg. by case_bool_decide.
    + rewrite (bool_decide_eq_false_2 _ Hout). cbn [andb]. rewrite Hst.
      rewrite (no_searches_ext s (_cancel_search s i qn).1 pid); [done|].
      intros q. rewrite Hr. rewrite bool_decide_eq_false_2; [done|].
      by intros [_ ?].
  - destruct Hspec as (_ & Hs & Hr). intros pid. rewrite Hs, Hst.
    by rewrite (no_searches_ext s (_cancel_search s i qn).1 pid).
Qed.

Lemma coherent_cancel_named i acc qn :
  coherent acc.1 → coherent (cancel_named i acc qn).1.
Proof.
  destruct acc as [s evs]. rewrite cancel_named_fst. apply coherent__cancel_search.
Qed.

Lemma coherent_cancel_search s i qn :
  coherent s → coherent (cancel_search s i qn).1.
Proof.
  intros Hc. destruct qn as [qn|].
  - rewrite cancel_search_one. by apply coherent__cancel_search.
  - rewrite cancel_search_all_unfold.
    apply (foldl_invariant (λ acc, coherent acc.1)).
    + by apply coherent_searches_of.
    + intros acc q. apply coherent_cancel_named.
Qed.

Lemma coherent_on_connection_lost s player :
  coherent s → coherent (on_connection_lost s player).1.
Proof.
  intros Hc. destruct player as [player|]; [|done]. unfold on_connection_lost.
  pose proof (coherent_cancel_search s player None Hc) as Hc1.
  destruct (cancel_search_all_spec s player (proj1 Hc))
    as (_ & _ & _ & _ & Hnone & _).
  destruct (cancel_search s player None) as [s1 evs]. cbn [fst snd] in *.
  set (s2 := with_searches s1 (delete (player_id player) (_searches s1))).
  assert (coherent s2) as Hc2.
  { eapply coherent_ext; [exact Hc1| | |done].
    - apply nodup_keys_delete. by destruct Hc1 as [[? _] _].
    - by apply reg_delete. }
  clearbody s2. cbn [fst]. case_bool_decide; [|done].
  eapply coherent_ext; [exact Hc2| |done..]. by destruct Hc2 as [[? _] _].
Qed.

Lemma coherent_cancel_existing qn acc p :
  coherent acc.1 → coherent (cancel_existing qn acc p).1.
Proof.
  destruct acc as [s evs]. intros Hc. rewrite cancel_existing_named.
  apply coherent_cancel_named. by apply coherent_searches_of.
Qed.

(** Registering a search for a party none of whose players has a search for
    the queue keeps the registry consistent. *)
Lemma register_fold_consistent queue qn search s evs :
  consistent s →
  NoDup (map player_id (search_players search)) →
  (∀ pid old, reg s pid qn = Some old →
     ∀ p, p ∈ search_players search → player_id p ∉ search_pids old) →
  consistent (foldl (register_search queue qn search) (s, evs)
                    (search_players search)).1.
Proof.
  intros Hc Hnodup Hfree.
  destruct (register_search_fold queue qn search (search_players search)
              s evs (proj1 Hc)) as (Hnd2 & _ & _ & _ & _ & Hr2 & _).
  split; [done|]. intros pid q old. rewrite Hr2.
  case_bool_decide as Hnew.
  - intros [= <-]. destruct Hnew as [Hpid ->]. split_and!; [done..|].
    intros p Hp. rewrite Hr2. rewrite bool_decide_eq_true_2; [done|].
    split; [|done]. apply list_elem_of_In, in_map. by apply list_elem_of_In.
  - intros Hreg. destruct Hc as [_ Hc].
    destruct (Hc _ _ _ Hreg) as (Hpid & Hnd & Hall).
    split_and!; [done..|]. intros p Hp. rewrite Hr2.
    rewrite bool_decide_eq_false_2; [by apply Hall|].
    intros [Hin ->].
    apply list_elem_of_In, in_map_iff in Hin as (p' & Hid & Hp').
    apply list_elem_of_In in Hp'. apply (Hfree _ _ Hreg p' Hp').
    rewrite Hid. by apply search_pids_elem.
Qed.

Lemma coherent_start_search s violations now fresh players qn :
  coherent s → NoDup (map player_id players) →
  coherent (start_search s violations now fresh players qn).1.1.
Proof.
  intros Hc Hnodup.
  destruct (get_violations violations now players) as [|v vs] eqn:Hv;
    [|unfold start_search; by rewrite Hv].
  rewrite start_search_unfold by done.
  assert (coherent (foldl (cancel_existing qn) (s, []) players).1) as Hc1.
  { apply (foldl_invariant (λ acc, coherent acc.1)); [done|].
    intros acc p. apply coherent_cancel_existing. }
  destruct (cancel_existing_fold qn players s [] (proj1 Hc))
    as (_ & _ & _ & _ & Hiff1).
  destruct (foldl (cancel_existing qn) (s, []) players) as [s1 evs1].
  cbn [fst snd] in *.
  destruct (Dict.get (queues s1) qn) as [queue|]; [|done].
  pose proof (register_fold_consistent queue qn
                (new_search fresh players queue qn) s1 evs1 (proj1 Hc1)
                Hnodup) as Hc2. cbn [search_players new_search] in Hc2.
  destruct (register_search_fold queue qn (new_search fresh players queue qn)
              players s1 evs1 (proj1 (proj1 Hc1)))
    as (_ & _ & _ & _ & Hst2 & Hr2 & _).
  destruct (foldl (register_search queue qn _) (s1, evs1) players)
    as [s2 evs2]. cbn [fst snd] in *.
  split.
  - apply Hc2. intros pid old Hreg p Hp Hin.
    apply Hiff1 in Hreg as [_ Hno]. apply Hno. split; [done|]. by exists p.
  - intros pid. rewrite Hst2. destruct Hc1 as [_ Hst1].
    case_bool_decide as Hin.
    + split; [|done]. intros _. apply no_searches_false.
      exists qn, (new_search fresh players queue qn). rewrite Hr2.
      by rewrite bool_decide_eq_true_2.
    + rewrite Hst1. rewrite (no_searches_ext s1 s2 pid); [done|].
      intros q. rewrite Hr2. rewrite bool_decide_eq_false_2; [done|].
      by intros [? _].
Qed.

Lemma coherent_call s c : coherent s → well_formed c → coherent (call s c).1.
Proof.
  intros Hc Hwf. destruct c as [violations now fresh players qn|i qn|p rt|p|store];
    cbn [call].
  - by apply coherent_start_search.
  - by apply coherent_cancel_search.
  - destruct (write_rating_progress_frame s p rt) as (Hse & Hst & _).
    eapply coherent_ext; [exact Hc| | |done].
    + intros pid d. rewrite Hse. destruct Hc as [[Hnd _] _]. apply Hnd.
    + intros pid q. unfold reg. by rewrite Hse.
  - by apply coherent_on_connection_lost.
  - destruct (update_data_frame store s) as [(_ & _ & Hse & Hst) _].
    eapply coherent_ext; [exact Hc| | |done].
    + intros pid d. rewrite Hse. destruct Hc as [[Hnd _] _]. apply Hnd.
    + intros pid q. unfold reg. by rewrite Hse.
Qed.

Lemma coherent_sample : coherent SampleStore.service.
Proof.
  split; [exact consistent_sample|]. intros pid.
  unfold no_searches, SampleStore.service; simpl.
  destruct (decide (pid = 1)) as [->|H1];
    [split; intros _; vm_compute; reflexivity|].
  rewrite !lookup_insert_ne by done.
  destruct (decide (pid = 2)) as [->|H2];
    [split; intros _; vm_compute; reflexivity|].
  rewrite !lookup_singleton_ne by done. done.
Qed.

(** X14. The states of the players follow the registry through any sequence
    of calls to [start_search] (with parties that list no player twice),
    [cancel_search], [write_rating_progress], [on_connection_lost] and
    [update_data]: if, before, the registry is consistent and the players in
    state searching are exactly those with a registered search, then the
    same holds afterwards.  So none of these calls leaves a player searching
    without a search, or registered without searching. *)
Theorem run_coherent calls : ∀ s,
  coherent s → Forall well_formed calls → coherent (run s calls).1.
Proof.
  induction calls as [|c calls IH]; intros s Hc Hwf; [done|].
  apply Forall_cons in Hwf as [Hwf1 Hwf]. cbn [run].
  pose proof (coherent_call s c Hc Hwf1) as Hc1.
  destruct (call s c) as [s1 evs1]. cbn [fst] in Hc1.
  specialize (IH s1 Hc1 Hwf).
  by destruct (run s1 calls) as [s2 evs2].
Qed.

Lemma run_coherent_witness :
  coherent
    (run SampleStore.service
       [CancelSearch Sample.alice None;
        StartSearch ∅ 0 77 [Sample.alice; Sample.carol] "tmm2v2";
        UpdateData SampleStore.store;
        ConnectionLost (Some Sample.carol)]).1.
Proof.
  apply run_coherent; [exact coherent_sample|].
  repeat constructor; apply (bool_decide_unpack _); vm_compute; exact I.
Defined.

(** ** Refreshing the queues *)

Lemma add_map_pools_spec store pools : ∀ queue,
  let r := add_map_pools store queue pools in
  queue_name r.1.1 = queue_name queue ∧ queue_id r.1.1 = queue_id queue ∧
  featured_mod r.1.1 = featured_mod queue ∧
  rating_type r.1.1 = rating_type queue ∧
  team_size r.1.1 = team_size queue ∧ params r.1.1 = params queue ∧
  rating_peak r.1.1 = rating_peak queue ∧
  (r.2 = None ∨ r.2 = Some KeyError) ∧
  (r.2 = None
   ↔ ∀ assoc, assoc ∈ pools →
              is_Some (Dict.get (map_pool_maps store) assoc.1.1)) ∧
  ∃ added,
    map_pools r.1.1 = map_pools queue ++ added ∧
    Forall2 (loaded store) added (take (length added) pools) ∧
    (r.2 = None → length added = length pools).
Proof.
  induction pools as [|[[map_pool_id lo] hi] pools IH]; intros queue; cbv zeta.
  - simpl. split_and!; try done; [by left| |].
    + split; [|done]. intros _ assoc Hin. by apply elem_of_nil in Hin.
    + exists []. by rewrite app_nil_r.
  - simpl.
    destruct (Dict.get (map_pool_maps store) map_pool_id) as [[nm l]|] eqn:Eget.
    + match goal with
      | |- context [add_map_pools store ?q pools] =>
          destruct (IH q)
            as (H1 & H2 & H3 & H4 & H5 & H6 & H7 & Hor & Hiff & added & Ha & Hl & Hlen);
          destruct (add_map_pools store q pools) as [[q' evs] e]
      end.
      cbn [fst snd map_pools queue_name queue_id featured_mod rating_type
           team_size params rating_peak] in *.
      split_and!; try done.
      * rewrite Hiff. split.
        -- intros Hall assoc [->|Hin]%elem_of_cons; [by eexists|auto].
        -- intros Hall assoc Hin. apply Hall. by right.
      * exists (({| pool_id := map_pool_id; pool_name := nm; maps := l |},
                 lo, hi) :: added).
        split_and!.
        -- by rewrite Ha, <- app_assoc.
        -- simpl. constructor; [|done]. by exists nm, l.
        -- intros He. simpl. by rewrite Hlen.
    + simpl. split_and!; try done; [by right| |].
      * split; [done|]. intros Hall.
        destruct (Hall (map_pool_id, lo, hi)) as [x Hx]; [left|].
        simpl in Hx. congruence.
      * exists []. rewrite app_nil_r. split_and!; [done|constructor|done].
Qed.

(** One queue of the store. *)
Lemma update_queue_spec store s name info :
  let r := update_queue store s name info in
  (r.2 = None ∨ r.2 = Some KeyError) ∧
  (r.2 = None
   ↔ ∀ assoc, assoc ∈ info_map_pools info →
              is_Some (Dict.get (map_pool_maps store) assoc.1.1)) ∧
  (∀ name', name' ∈ Dict.keys (queues r.1.1)
            ↔ name' = name ∨ name' ∈ Dict.keys (queues s)) ∧
  ∃ queue',
    Dict.get (queues r.1.1) name = Some queue' ∧
    featured_mod queue' = info_mod info ∧
    rating_type queue' = info_rating_type info ∧
    team_size queue' = info_team_size info ∧
    (∃ added, map_pools queue' = added ∧
              Forall2 (loaded store) added
                      (take (length added) (info_map_pools info)) ∧
              (r.2 = None → length added = length (info_map_pools info))) ∧
    match Dict.get (queues s) name with
    | Some old =>
        queue_name queue' = queue_name old ∧ queue_id queue' = queue_id old ∧
        params queue' = params old
    | None =>
        queue_name queue' = name ∧ queue_id queue' = info_id info ∧
        params queue' = info_params info ∧ rating_peak queue' = None
    end.
Proof.
  cbv zeta. unfold update_queue.
  destruct (Dict.get (queues s) name) as [old|] eqn:Eold.
  - destruct (fetch_rating_peak store (info_rating_type info)) as [peak evs].
    match goal with
    | |- context [add_map_pools store ?q ?ps] =>
        destruct (add_map_pools_spec store ps q)
          as (H1 & H2 & H3 & H4 & H5 & H6 & H7 & Hor & Hiff & added & Ha & Hl & Hlen);
        destruct (add_map_pools store q ps) as [[q' evs'] e]
    end.
    cbn [fst snd map_pools queue_name queue_id featured_mod rating_type
         team_size params rating_peak app] in *.
    split_and!; [done|done| |].
    + intros name'. apply dict_keys_set.
    + exists q'. cbn [queues with_queues]. rewrite dict_get_set_eq.
      split_and!; try done. by exists added.
  - match goal with
    | |- context [add_map_pools store ?q ?ps] =>
        destruct (add_map_pools_spec store ps q)
          as (H1 & H2 & H3 & H4 & H5 & H6 & H7 & Hor & Hiff & added & Ha & Hl & Hlen);
        destruct (add_map_pools store q ps) as [[q' evs'] e]
    end.
    cbn [fst snd map_pools queue_name queue_id featured_mod rating_type
         team_size params rating_peak app] in *.
    split_and!; [done|done| |].
    + intros name'. apply dict_keys_set.
    + exists q'. cbn [queues with_queues]. rewrite dict_get_set_eq.
      split_and!; try done. by exists added.
Qed.

Lemma update_queues_result store infos : ∀ s,
  let r := update_queues store s infos in
  (r.2 = None ∨ r.2 = Some KeyError) ∧
  (r.2 = None ↔ pools_known store infos) ∧
  (∀ name', name' ∈ Dict.keys (queues s) →
            name' ∈ Dict.keys (queues r.1.1)) ∧
  (r.2 = None →
   ∀ name', name' ∈ Dict.keys (queues r.1.1)
            ↔ name' ∈ Dict.keys infos ∨ name' ∈ Dict.keys (queues s)).
Proof.
  induction infos as [|[name info] infos IH]; intros s; cbv zeta.
  - simpl. split_and!; [by left| |done|].
    + split; [|done]. intros _ ??? Hin. by apply elem_of_nil in Hin.
    + intros _ name'. split; [by right|]. by intros [?%elem_of_nil|?].
  - simpl.
    destruct (update_queue_spec store s name info) as (Hor1 & Hiff1 & Hk1 & _).
    destruct (update_queue store s name info) as [[s1 evs1] e1].
    cbn [fst snd] in *.
    destruct e1 as [e1|].
    + cbn [fst snd]. split_and!.
      * destruct Hor1 as [|]; [done|by right].
      * split; [done|]. intros Hall.
        assert (Some e1 = None) as Habs; [|done].
        apply Hiff1. intros assoc Hin. apply (Hall name info assoc); [left|done].
      * intros name' Hin. apply Hk1. by right.
      * done.
    + destruct (IH s1) as (Hor2 & Hiff2 & Hk2 & Hall2).
      destruct (update_queues store s1 infos) as [[s2 evs2] e2].
      cbn [fst snd] in *. split_and!.
      * done.
      * rewrite Hiff2. split.
        -- intros Hall name' info' assoc [[= -> ->]|Hin]%elem_of_cons Hassoc.
           ++ by apply Hiff1.
           ++ by eapply Hall.
        -- intros Hall name' info' assoc Hin. eapply Hall. by right.
      * intros name' Hin. apply Hk2, Hk1. by right.
      * intros He name'. rewrite (Hall2 He), Hk1, elem_of_cons. tauto.
Qed.

Lemma update_queues_entry store infos name info : ∀ s,
  NoDup (Dict.keys infos) →
  Dict.get infos name = Some info →
  (update_queues store s infos).2 = None →
  ∃ queue',
    Dict.get (queues (update_queues store s infos).1.1) name = Some queue' ∧
    featured_mod queue' = info_mod info ∧
    rating_type queue' = info_rating_type info ∧
    team_size queue' = info_team_size info ∧
    Forall2 (loaded store) (map_pools queue') (info_map_pools info) ∧
    match Dict.get (queues s) name with
    | Some old =>
        queue_name queue' = queue_name old ∧ queue_id queue' = queue_id old ∧
        params queue' = params old
    | None =>
        queue_name queue' = name ∧ queue_id queue' = info_id info ∧
        params queue' = info_params info ∧ rating_peak queue' = None
    end.
Proof.
  induction infos as [|[name0 info0] infos IH]; intros s Hnd Hget Hok;
    simpl in *; [done|].
  apply NoDup_cons in Hnd as [Hnot Hnd].
  case_decide as Hname.
  - simplify_eq.
    destruct (update_queue_spec store s name info)
      as (_ & _ & _ & q' & Hq' & Hm & Hrt & Hts & (added & Ha & Hl & Hlen) & Hold).
    destruct (update_queue store s name info) as [[s1 evs1] [e|]]; [done|].
    pose proof (update_queues_other store infos name s1 Hnot) as Hother.
    destruct (update_queues store s1 infos) as [[s2 evs2] e2].
    cbn [fst snd] in *. exists q'. rewrite Hother. split_and!; try done.
    subst added. rewrite Hlen, firstn_all in Hl; done.
  - pose proof (update_queue_other store s name0 info0 name Hname) as H1.
    destruct (update_queue store s name0 info0) as [[s1 evs1] [e|]]; [done|].
    cbn [fst snd] in H1. rewrite <- H1.
    specialize (IH s1 Hnd Hget).
    destruct (update_queues store s1 infos) as [[s2 evs2] e2].
    cbn [fst snd] in *. by apply IH.
Qed.

Lemma update_data_success store s :
  (update_data store s).2 = None →
  (update_queues store s (db_queues store)).2 = None ∧
  queues (update_data store s).1.1
  = filter (λ kv, Dict.mem (db_queues store) kv.1 = true)
           (queues (update_queues store s (db_queues store)).1.1).
Proof.
  unfold update_data.
  destruct (update_queues store s (db_queues store)) as [[s1 evs1] [e|]];
    [done|].
  intros _. split; [done|]. apply remove_absent_queues_filter.
Qed.

(** X15. After a refresh that raises nothing, the service has a queue for
    exactly the names that the store lists.  The queue of a listed name has
    the featured mod, rating type and team size of the store; a queue that
    existed before keeps its name, id and params (they are not refreshed),
    and a new queue takes the store's, with no rating peak yet. *)
Theorem update_data_refreshes store s name info :
  NoDup (Dict.keys (db_queues store)) →
  Dict.get (db_queues store) name = Some info →
  (update_data store s).2 = None →
  let s' := (update_data store s).1.1 in
  (∀ name', is_Some (Dict.get (queues s') name')
            ↔ is_Some (Dict.get (db_queues store) name')) ∧
  ∃ queue',
    Dict.get (queues s') name = Some queue' ∧
    featured_mod queue' = info_mod info ∧
    rating_type queue' = info_rating_type info ∧
    team_size queue' = info_team_size info ∧
    match Dict.get (queues s) name with
    | Some old =>
        queue_name queue' = queue_name old ∧ queue_id queue' = queue_id old ∧
        params queue' = params old
    | None =>
        queue_name queue' = name ∧ queue_id queue' = info_id info ∧
        params queue' = info_params info ∧ rating_peak queue' = None
    end.
Proof.
  intros Hnd Hget Hok. cbv zeta.
  destruct (update_data_success store s Hok) as [Hok1 ->].
  destruct (update_queues_result store (db_queues store) s)
    as (_ & _ & _ & Hkeys). specialize (Hkeys Hok1).
  split.
  - intros name'.
    destruct (Dict.mem (db_queues store) name') eqn:Emem.
    + rewrite dict_get_filter_in by done.
      rewrite !dict_get_keys, Hkeys.
      assert (name' ∈ Dict.keys (db_queues store)) as Hin.
      { apply dict_get_keys. unfold Dict.mem in Emem.
        by destruct (Dict.get (db_queues store) name'). }
      clear -Hin. tauto.
    + rewrite dict_get_filter_out by done. unfold Dict.mem in Emem.
      destruct (Dict.get (db_queues store) name'); [done|].
      split; by intros [? ?].
  - destruct (update_queues_entry store (db_queues store) name info s
                Hnd Hget Hok1)
      as (q' & Hq' & Hm & Hrt & Hts & _ & Hold).
    exists q'. rewrite dict_get_filter_in by (by eapply dict_mem_get).
    by split_and!.
Qed.

Lemma update_data_refreshes_witness :
  ∃ queue',
    Dict.get (queues (update_data SampleStore.store SampleStore.service).1.1)
             "ladder1v1" = Some queue' ∧
    featured_mod queue' = "ladder1v1".
Proof.
  destruct (update_data_refreshes SampleStore.store SampleStore.service
              "ladder1v1" SampleStore.ladder1v1_info)
    as (_ & q' & Hq' & Hm & _).
  - apply (bool_decide_unpack _). vm_compute. exact I.
  - vm_compute. reflexivity.
  - vm_compute. reflexivity.
  - exists q'. by split.
Defined.

(** X16. After a refresh that raises nothing, the map pools of a queue are
    those of its associations in the store, in their order, each with the
    name and the maps that the store has for the pool and with the rating
    band of the association: the pools are rebuilt, not added to what the
    queue had. *)
Theorem update_data_rebuilds_pools store s name info :
  NoDup (Dict.keys (db_queues store)) →
  Dict.get (db_queues store) name = Some info →
  (update_data store s).2 = None →
  ∃ queue',
    Dict.get (queues (update_data store s).1.1) name = Some queue' ∧
    Forall2 (loaded store) (map_pools queue') (info_map_pools info).
Proof.
  intros Hnd Hget Hok.
  destruct (update_data_success store s Hok) as [Hok1 ->].
  destruct (update_queues_entry store (db_queues store) name info s
              Hnd Hget Hok1) as (q' & Hq' & _ & _ & _ & Hpools & _).
  exists q'. rewrite dict_get_filter_in by (by eapply dict_mem_get). done.
Qed.

Lemma update_data_rebuilds_pools_witness :
  ∃ queue',
    Dict.get (queues (update_data SampleStore.store SampleStore.service).1.1)
             "ladder1v1" = Some queue' ∧
    Forall2 (loaded SampleStore.store) (map_pools queue') [(1, None, None)].
Proof.
  apply (update_data_rebuilds_pools SampleStore.store SampleStore.service
           "ladder1v1" SampleStore.ladder1v1_info).
  - apply (bool_decide_unpack _). vm_compute. exact I.
  - vm_compute. reflexivity.
  - vm_compute. reflexivity.
Defined.


(** ** The game object *)

Section GameOptions.
Import Games.

Lemma option_insert_lookup (m : gmap Z (gmap string Z)) k key value k' key' :
  (match <[k := <[key := value]> (default ∅ (m !! k))]> m !! k' with
   | Some inner => inner !! key'
   | None => None
   end)
  = if bool_decide (k' = k ∧ key' = key) then Some value
    else match m !! k' with
         | Some inner => inner !! key'
         | None => None
         end.
Proof.
  destruct (decide (k' = k)) as [->|Hk].
  - rewrite lookup_insert_eq. destruct (decide (key' = key)) as [->|Hkey].
    + rewrite lookup_insert_eq. by rewrite bool_decide_eq_true_2.
    + rewrite lookup_insert_ne by done.
      rewrite bool_decide_eq_false_2 by (by intros [_ ?]).
      by destruct (m !! k).
  - rewrite lookup_insert_ne by done.
    by rewrite bool_decide_eq_false_2 by (by intros [? _]).
Qed.

(** X18. Player options and army options are two independent two-level
    dictionaries: reading back what was set gives the value, setting an
    option changes no other key, player or army, an option that was never
    set reads as [None] (the [KeyError] is swallowed), and setting a player
    option never shows among the army options or the other way round, also
    for equal ids. *)
Theorem options_round_trip g id key value id' key' :
  get_player_option (set_player_option g id key value) id' key'
  = (if bool_decide (id' = id ∧ key' = key) then Some value
     else get_player_option g id' key') ∧
  get_army_option (set_army_option g id key value) id' key'
  = (if bool_decide (id' = id ∧ key' = key) then Some value
     else get_army_option g id' key') ∧
  get_army_option (set_player_option g id key value) id' key'
  = get_army_option g id' key' ∧
  get_player_option (set_army_option g id key value) id' key'
  = get_player_option g id' key' ∧
  get_player_option (new (uuid g)) id' key' = None ∧
  get_army_option (new (uuid g)) id' key' = None.
Proof.
  split_and!; try done.
  - unfold get_player_option, set_player_option. cbn [_player_options with_player_options].
    apply option_insert_lookup.
  - unfold get_army_option, set_army_option. cbn [_army_options with_army_options].
    apply option_insert_lookup.
Qed.

End GameOptions.

Section GameResults.
Import Games.

Lemma highest_from (reports : list Report) : ∀ start,
  0 ≤ start →
  foldl (λ score (result : Report), Z.max score result.2) start reports
  = Z.max start (highest reports).
Proof.
  unfold highest. induction reports as [|r reports IH]; intros start Hs; simpl.
  - lia.
  - rewrite (IH (Z.max start r.2)), (IH (Z.max 0 r.2)) by lia. lia.
Qed.

Lemma highest_spec (reports : list Report) :
  0 ≤ highest reports ∧
  (∀ r, r ∈ reports → r.2 ≤ highest reports) ∧
  (highest reports = 0 ∨ ∃ r, r ∈ reports ∧ r.2 = highest reports).
Proof.
  induction reports as [|r reports (IH0 & IHall & IHex)].
  - split_and!; [done| |by left]. intros r Hr. by apply elem_of_nil in Hr.
  - assert (highest (r :: reports) = Z.max (Z.max 0 r.2) (highest reports))
      as -> by (unfold highest at 1; cbn [foldl]; apply highest_from; lia).
    split_and!.
    + lia.
    + intros r' [->|Hr']%elem_of_cons; [lia|]. specialize (IHall r' Hr'). lia.
    + destruct (decide (highest reports ≤ r.2)) as [Hle|Hgt].
      * destruct (decide (r.2 ≤ 0)) as [Hneg|Hpos]; [left; lia|].
        right. exists r. split; [left|lia].
      * destruct IHex as [H0|(r' & Hr' & Heq)]; [lia|].
        right. exists r'. split; [by right|lia].
Qed.

(** X19. [get_army_result] raises [KeyError] exactly when nothing was
    reported for the army.  Otherwise it returns the highest score reported
    for it, but never less than 0: the answer is at least every reported
    score, and it is 0 or one of the reported scores, so an army with only
    negative scores gets 0. *)
Theorem army_result_highest g army :
  match get_army_result g army with
  | inl e => e = KeyError ∧ _results g !! army = None
  | inr score =>
      ∃ reports,
        _results g !! army = Some reports ∧
        0 ≤ score ∧
        (∀ r, r ∈ reports → r.2 ≤ score) ∧
        (score = 0 ∨ ∃ r, r ∈ reports ∧ r.2 = score)
  end.
Proof.
  unfold get_army_result. destruct (_results g !! army) as [reports|]; [|done].
  exists reports. split; [done|]. apply highest_spec.
Qed.

(** X20. [add_result] fails its assertion exactly when the army is not the
    [Army] option of a current player of the game.  Otherwise the report is
    appended to the reports of the army, after those it had: the result of
    the army becomes the larger of its old result (0 if it had none) and the
    reported score, so a report never lowers a result; the results of other
    armies, the players and the state are unchanged. *)
Theorem add_result_raises_result g reporter army result_type score :
  match add_result g reporter army result_type score with
  | inl e => e = AssertionError ∧ army ∉ armies g
  | inr g' =>
      army ∈ armies g ∧
      _results g' !! army
      = Some (default [] (_results g !! army)
              ++ [(reporter, result_type, score)]) ∧
      get_army_result g' army
      = inr (Z.max (match get_army_result g army with
                    | inr old => old
                    | inl _ => 0
                    end) score) ∧
      (∀ army', army' ≠ army →
                get_army_result g' army' = get_army_result g army') ∧
      players g' = players g ∧ armies g' = armies g ∧ state g' = state g
  end.
Proof.
  unfold add_result. case_bool_decide as Harmy; [|done].
  split_and!; try done.
  - cbn [_results with_results]. by rewrite lookup_insert_eq.
  - unfold get_army_result. cbn [_results with_results].
    rewrite lookup_insert_eq. f_equal.
    rewrite foldl_app. cbn [foldl snd].
    by destruct (_results g !! army).
  - intros army' Hne. unfold get_army_result. cbn [_results with_results].
    by rewrite lookup_insert_ne.
Qed.

End GameResults.

Section GameLife.
Import Games.

Lemma collect_results_spec g : ∀ pids,
  match collect_results g pids with
  | inl e =>
      e = KeyError ∧
      ∃ pid, pid ∈ pids ∧
             _results g !! get_player_option g pid "Army" = None
  | inr rows =>
      rows.*1 = pids ∧
      ∀ pid score, (pid, score) ∈ rows →
        get_army_result g (get_player_option g pid "Army") = inr score
  end.
Proof.
  induction pids as [|pid pids IH]; simpl.
  - split; [done|]. intros pid score Hin. by apply elem_of_nil in Hin.
  - destruct (get_army_result g (get_player_option g pid "Army"))
      as [e|score] eqn:Eres.
    + unfold get_army_result in Eres.
      destruct (_results g !! get_player_option g pid "Army") eqn:Hnone;
        [done|]. injection Eres as <-.
      split; [done|]. exists pid. split; [left|done].
    + destruct (collect_results g pids) as [e|rows].
      * destruct IH as [-> (pid' & Hin & Hnone)]. split; [done|].
        exists pid'. split; [by right|done].
      * destruct IH as [Hfst Hall]. split; [by rewrite fmap_cons, Hfst|].
        intros pid' score' [[= -> ->]|Hin]%elem_of_cons; [done|by apply Hall].
Qed.

Lemma on_game_end_spec batch_ok g :
  on_game_end batch_ok g
  = inr (with_state g ENDED,
         EvSetEndTime (uuid g) :: EvPersistScores (uuid g) []
         :: (if batch_ok then [] else [EvLogCritical]) ++ [EvRateGame]).
Proof.
  unfold on_game_end, persist_results, players.
  cbn [state with_state uuid]. by rewrite elements_empty.
Qed.

(** X21. [persist_results] writes one batch with a row for every current
    player of the game, carrying the result of the player's army, and
    raises [KeyError] instead when the army of some player has no report.
    But [on_game_end] sets the state to ended before it persists, and an
    ended game has no players: the batch that the end of a game writes is
    always empty, whatever was reported, and [on_game_end] never raises. *)
Theorem game_end_persists_nothing batch_ok g :
  match persist_results batch_ok g with
  | inl e =>
      e = KeyError ∧
      ∃ pid, pid ∈ players g ∧
             _results g !! get_player_option g pid "Army" = None
  | inr evs =>
      ∃ rows,
        evs = EvPersistScores (uuid g) rows
              :: (if batch_ok then [] else [EvLogCritical]) ∧
        rows.*1 = elements (players g) ∧
        ∀ pid score, (pid, score) ∈ rows →
          get_army_result g (get_player_option g pid "Army") = inr score
  end ∧
  on_game_end batch_ok g
  = inr (with_state g ENDED,
         EvSetEndTime (uuid g) :: EvPersistScores (uuid g) []
         :: (if batch_ok then [] else [EvLogCritical]) ++ [EvRateGame]) ∧
  players (with_state g ENDED) = ∅.
Proof.
  split_and!; [|apply on_game_end_spec|done].
  unfold persist_results.
  pose proof (collect_results_spec g (elements (players g))) as Hc.
  destruct (collect_results g (elements (players g))) as [e|rows].
  - destruct Hc as [-> (pid & Hin & Hnone)]. split; [done|].
    exists pid. split; [by apply elem_of_elements|done].
  - destruct Hc as [Hfst Hall]. by exists rows.
Qed.

Lemma elem_of_connections (m : gmap Z GameConnection) conn :
  conn ∈ (map_to_list m).*2 ↔ ∃ k, m !! k = Some conn.
Proof.
  rewrite list_elem_of_fmap. split.
  - intros ([k c] & -> & Hin). exists k. by apply elem_of_map_to_list.
  - intros (k & Hk). exists (k, conn). split; [done|].
    by apply elem_of_map_to_list.
Qed.

(** X22. [remove_game_connection] fails its assertion when the connection is
    not among the connections of the game, and raises [KeyError] when it is
    but no connection is stored for its player.  Otherwise it deletes the
    entry of the connection's player; while a connection remains nothing
    else changes, in particular the players of a live game stay those
    frozen at launch; when the last connection goes the game is ended: the
    end time is written, an empty batch of scores is persisted and the game
    is rated, and from then on the game has no players. *)
Theorem remove_connection_ends_game batch_ok g conn :
  match remove_game_connection batch_ok g conn with
  | inl e =>
      (e = AssertionError ∧ ∀ k, _connections g !! k ≠ Some conn) ∨
      (e = KeyError ∧ _connections g !! conn_player conn = None
       ∧ ∃ k, _connections g !! k = Some conn)
  | inr (g', evs) =>
      (∃ k, _connections g !! k = Some conn) ∧
      is_Some (_connections g !! conn_player conn) ∧
      _connections g' = delete (conn_player conn) (_connections g) ∧
      if bool_decide (_connections g' = ∅) then
        state g' = ENDED ∧ players g' = ∅ ∧
        evs = EvSetEndTime (uuid g) :: EvPersistScores (uuid g) []
              :: (if batch_ok then [] else [EvLogCritical]) ++ [EvRateGame]
      else
        g' = with_connections g (delete (conn_player conn) (_connections g))
        ∧ evs = [] ∧ (state g = LIVE → players g' = players g)
  end.
Proof.
  unfold remove_game_connection. case_bool_decide as Hin.
  - apply elem_of_connections in Hin.
    destruct (_connections g !! conn_player conn) as [c|] eqn:Ec;
      [|right; by split_and!].
    case_bool_decide as Hsize.
    + rewrite on_game_end_spec. cbn [_connections with_connections] in *.
      apply map_size_empty_iff in Hsize.
      split_and!; [done|by eexists|done|].
      cbn [_connections with_state with_connections].
      by rewrite bool_decide_eq_true_2.
    + cbn [_connections with_connections] in *.
      split_and!; [done|by eexists|done|].
      rewrite bool_decide_eq_false_2; [|by rewrite <- map_size_empty_iff].
      split_and!; [done..|]. intros Hlive. unfold players.
      cbn [state with_connections _players]. by rewrite Hlive.
  - left. split; [done|]. intros k Hk. apply Hin, elem_of_connections.
    by exists k.
Qed.

(** X23. A connection is added only when it is connected to the host and
    the game is in the lobby; a wrong connection state is reported before a
    wrong game state.  It is stored under its player, in place of any
    connection the player had, and the players of the lobby are the players
    of the connections.  [launch] fails its assertion outside the lobby;
    in the lobby it makes the game live with exactly the players connected
    at that moment, and they stay the players of the game however the
    connections change afterwards. *)
Theorem lobby_to_live g conn :
  match add_game_connection g conn with
  | inl e =>
      (e = GameError "Invalid GameConnectionState"
       ∧ connected_to_host conn = false) ∨
      (e = GameError "Invalid GameState"
       ∧ connected_to_host conn = true ∧ state g ≠ LOBBY)
  | inr g' =>
      connected_to_host conn = true ∧ state g = LOBBY ∧ state g' = LOBBY ∧
      _connections g' = <[conn_player conn := conn]> (_connections g) ∧
      players g' = {[conn_player conn]} ∪ players g
  end ∧
  match launch g with
  | inl e => e = AssertionError ∧ state g ≠ LOBBY
  | inr g' =>
      state g = LOBBY ∧ state g' = LIVE ∧
      players g' = dom (_connections g) ∧
      _connections g' = _connections g ∧
      ∀ connections, players (with_connections g' connections)
                     = dom (_connections g)
  end.
Proof.
  split.
  - unfold add_game_connection.
    destruct (connected_to_host conn); cbn [negb]; [|by left].
    case_bool_decide as Hst; [right; by split_and!|].
    assert (state g = LOBBY) as Hlobby by (by destruct (state g)).
    split_and!; try done.
    unfold players. cbn [state with_connections _connections]. rewrite Hlobby.
    by rewrite dom_insert_L.
  - unfold launch. case_bool_decide as Hst; [|done].
    split_and!; try done.
    + unfold players at 1. cbn [state with_state with_players _players].
      unfold players. by rewrite Hst.
    + intros connections. unfold players at 1.
      cbn [state with_state with_players with_connections _players].
      unfold players. by rewrite Hst.
Qed.

End GameLife.

Section GameScores.
Import Games.

(** X24. [addResultPlayer] records a result and a score for a player unless
    the player already has the result victory: then the report is dropped.
    So a victory is final through any sequence of later reports, while any
    other result is replaced by the next report; the entries of other
    players are never touched. *)
Theorem victory_is_final g player faresult score :
  let g' := addResultPlayer g player faresult score in
  (gameFaResult g !! player = Some "victory" → g' = g) ∧
  (gameFaResult g !! player ≠ Some "victory" →
   gameFaResult g' !! player = Some faresult ∧
   gameResult g' !! player = Some score) ∧
  (∀ other, other ≠ player →
            gameFaResult g' !! other = gameFaResult g !! other ∧
            gameResult g' !! other = gameResult g !! other) ∧
  (gameFaResult g !! player = Some "victory" →
   ∀ reports : list (string * Z),
     foldl (λ g r, addResultPlayer g player r.1 r.2) g reports = g).
Proof.
  cbv zeta. split_and!.
  - intros Hv. unfold addResultPlayer. rewrite Hv.
    by rewrite bool_decide_eq_false_2 by (by intros ?).
  - intros Hv. unfold addResultPlayer.
    destruct (gameFaResult g !! player) as [old|] eqn:Eold.
    + rewrite bool_decide_eq_true_2 by congruence.
      cbn [gameFaResult gameResult with_fa_results].
      by rewrite !lookup_insert_eq.
    + cbn [gameFaResult gameResult with_fa_results].
      by rewrite !lookup_insert_eq.
  - intros other Hne. unfold addResultPlayer.
    destruct (gameFaResult g !! player) as [old|]; [case_bool_decide|];
      cbn [gameFaResult gameResult with_fa_results];
      rewrite ?lookup_insert_ne by done; done.
  - intros Hv reports. induction reports as [|r reports IH]; [done|].
    cbn [foldl]. unfold addResultPlayer at 2. rewrite Hv.
    by rewrite bool_decide_eq_false_2 by (by intros ?).
Qed.

Lemma checkScore_spec g player other :
  gameResult (checkScore g player) !! other
  = if bool_decide (other = player ∧ gameResult g !! other = None)
    then Some (-1) else gameResult g !! other.
Proof.
  unfold checkScore. destruct (decide (other = player)) as [->|Hne].
  - destruct (gameResult g !! player) as [sc|] eqn:E.
    + rewrite E. by rewrite bool_decide_eq_false_2 by (by intros [_ ?]).
    + cbn [gameResult with_fa_results]. rewrite lookup_insert_eq.
      by rewrite bool_decide_eq_true_2.
  - rewrite bool_decide_eq_false_2 by (by intros [? _]).
    destruct (gameResult g !! player); [done|].
    cbn [gameResult with_fa_results]. by rewrite lookup_insert_ne.
Qed.

Lemma checkScore_fold pids : ∀ g other,
  gameResult (foldl checkScore g pids) !! other
  = if bool_decide (other ∈ pids ∧ gameResult g !! other = None)
    then Some (-1) else gameResult g !! other.
Proof.
  induction pids as [|pid pids IH]; intros g other; cbn [foldl].
  - rewrite bool_decide_eq_false_2; [done|]. by intros [?%elem_of_nil _].
  - rewrite IH, checkScore_spec.
    destruct (gameResult g !! other) as [sc|] eqn:E.
    + rewrite (bool_decide_eq_false_2 (other = pid ∧ _)) by (by intros [_ ?]).
      by rewrite !bool_decide_eq_false_2 by (by intros [_ ?]).
    + destruct (decide (other = pid)) as [->|Hne].
      * rewrite (bool_decide_eq_true_2 (pid = pid ∧ _)) by done.
        rewrite bool_decide_eq_false_2 by (by intros [_ ?]).
        rewrite bool_decide_eq_true_2; [done|]. split; [left|done].
      * rewrite (bool_decide_eq_false_2 (other = pid ∧ _)) by (by intros [? _]).
        apply (f_equal (λ b : bool, if b then Some (-1) else None)).
        apply bool_decide_ext. rewrite elem_of_cons. clear -Hne. tauto.
Qed.

Lemma checkNoScore_players g : players (checkNoScore g) = players g.
Proof.
  assert (∀ pids g0, players (foldl checkScore g0 pids) = players g0) as Hframe.
  { induction pids as [|pid pids IH]; intros g0; [done|].
    cbn [foldl]. rewrite IH. unfold checkScore.
    by destruct (gameResult g0 !! pid). }
  apply Hframe.
Qed.

(** X25. [checkNoScore] gives the score -1 to every current player of the
    game that has no score, and changes nothing else: scores that were
    reported are kept, and somebody who is not a player of the game gets no
    score.  Afterwards every player of the game has a score, and running it
    again changes no score. *)
Theorem check_no_score_fills g other :
  gameResult (checkNoScore g) !! other
  = (if bool_decide (other ∈ players g ∧ gameResult g !! other = None)
     then Some (-1) else gameResult g !! other) ∧
  (other ∈ players g → is_Some (gameResult (checkNoScore g) !! other)) ∧
  gameResult (checkNoScore (checkNoScore g)) !! other
  = gameResult (checkNoScore g) !! other.
Proof.
  assert (∀ g other, gameResult (checkNoScore g) !! other
          = if bool_decide (other ∈ players g ∧ gameResult g !! other = None)
            then Some (-1) else gameResult g !! other) as Hspec.
  { intros g0 other0. unfold checkNoScore. rewrite checkScore_fold.
    apply (f_equal (λ b : bool,
             if b then Some (-1) else gameResult g0 !! other0)).
    apply bool_decide_ext. by rewrite elem_of_elements. }
  split_and!.
  - apply Hspec.
  - intros Hin. rewrite Hspec. case_bool_decide as Hb; [by eexists|].
    destruct (gameResult g !! other); [by eexists|]. by destruct Hb.
  - rewrite (Hspec (checkNoScore g)). rewrite bool_decide_eq_false_2; [done|].
    intros [Hin Hnone]. rewrite checkNoScore_players in Hin.
    rewrite Hspec in Hnone.
    case_bool_decide as Hb; [done|]. apply Hb. by split.
Qed.

End GameScores.

Section GamePermutations.
Import Games.
Context {A : Type}.
Implicit Types items l : list A.

Lemma without_delete items i : without items i = delete i items.
Proof. unfold without. by rewrite delete_take_drop. Qed.

Lemma length_without items i x :
  items !! i = Some x → S (length (without items i)) = length items.
Proof.
  intros Hi. rewrite without_delete, length_delete by (by eexists).
  apply lookup_lt_Some in Hi. lia.
Qed.

Lemma permutations_upto_elem n : ∀ items,
  (length items ≤ n)%nat →
  ∀ l, l ∈ permutations_upto n items ↔ items ≡ₚ l.
Proof.
  induction n as [|n IH]; intros items Hlen l.
  - destruct items as [|a items]; [|simpl in Hlen; lia]. simpl.
    rewrite list_elem_of_singleton. split; [by intros ->|].
    intros H. by apply Permutation_nil_l in H.
  - destruct items as [|a items].
    { simpl. rewrite list_elem_of_singleton. split; [by intros ->|].
      intros H. by apply Permutation_nil_l in H. }
    set (its := a :: items) in *.
    change (permutations_upto (S n) its)
      with (flat_map
              (λ i, match its !! i with
                    | Some x => map (cons x) (permutations_upto n (without its i))
                    | None => []
                    end) (seq 0 (length its))).
    rewrite list_elem_of_In, in_flat_map. split.
    + intros (i & Hi & Hl). destruct (its !! i) as [x|] eqn:Ex; [|done].
      apply in_map_iff in Hl as (l' & <- & Hl').
      apply list_elem_of_In, IH in Hl'.
      * rewrite <- Hl', without_delete. by apply delete_Permutation.
      * pose proof (length_without its i x Ex). lia.
    + intros Hperm. destruct l as [|x l'].
      { apply Permutation_nil_r in Hperm. done. }
      assert (x ∈ its) as Hx by (rewrite Hperm; left).
      apply list_elem_of_lookup in Hx as (i & Ex). exists i. split.
      * apply in_seq. apply lookup_lt_Some in Ex. lia.
      * rewrite Ex. apply in_map, list_elem_of_In, IH.
        -- pose proof (length_without its i x Ex). lia.
        -- rewrite without_delete. apply (Permutation_cons_inv (a:=x)).
           rewrite <- Hperm. symmetry. by apply delete_Permutation.
Qed.

Lemma length_flat_map_const {B} (f : nat → list B) k idxs :
  (∀ i, i ∈ idxs → length (f i) = k) →
  length (flat_map f idxs) = (length idxs * k)%nat.
Proof.
  induction idxs as [|i idxs IH]; intros Hall; [done|].
  simpl. rewrite length_app, IH, Hall; [done|left|].
  intros j Hj. apply Hall. by right.
Qed.

Lemma permutations_upto_length n : ∀ items,
  (length items ≤ n)%nat →
  length (permutations_upto n items) = fact (length items).
Proof.
  induction n as [|n IH]; intros items Hlen.
  - by destruct items as [|a items]; [|simpl in Hlen; lia].
  - destruct items as [|a items]; [done|].
    set (its := a :: items) in *.
    change (permutations_upto (S n) its)
      with (flat_map
              (λ i, match its !! i with
                    | Some x => map (cons x) (permutations_upto n (without its i))
                    | None => []
                    end) (seq 0 (length its))).
    rewrite (length_flat_map_const _ (fact (length items))).
    + rewrite length_seq. subst its. simpl. lia.
    + intros i Hi. apply list_elem_of_In, in_seq in Hi.
      destruct (lookup_lt_is_Some_2 its i) as [x Ex]; [lia|].
      rewrite Ex, length_map, IH.
      * pose proof (length_without its i x Ex) as Hl. subst its.
        simpl in Hl. f_equal. lia.
      * pose proof (length_without its i x Ex). lia.
Qed.

(** X26. [permutations] yields exactly the permutations of its argument: a
    list is yielded if and only if it is a rearrangement of the items, and
    the number of lists yielded is the factorial of the number of items (so
    equal items give repeated lists).  The empty list has the one, empty,
    permutation. *)
Theorem permutations_complete items :
  (∀ l, l ∈ permutations items ↔ items ≡ₚ l) ∧
  length (permutations items) = fact (length items) ∧
  permutations (@nil A) = [[]].
Proof.
  split_and!; [|by apply permutations_upto_length|done].
  intros l. by apply permutations_upto_elem.
Qed.

End GamePermutations.

(** ** Reading the store *)

Lemma info_of_rows_snoc rows row :
  info_of_rows (rows ++ [row])
  = Some {| info_id := row_id row; info_mod := row_gamemod row;
            info_rating_type := row_rating_type row;
            info_team_size := row_team_size row;
            info_params := match row_params row with
                           | Params parsed => Some parsed
                           | _ => None
                           end;
            info_map_pools := map row_map_pool rows ++ [row_map_pool row] |}.
Proof. unfold info_of_rows. by rewrite last_snoc, map_app. Qed.

Lemma info_of_rows_pools rows :
  match info_of_rows rows with
  | Some info => info_map_pools info
  | None => []
  end = map row_map_pool rows.
Proof.
  unfold info_of_rows. destruct (last rows) eqn:E; [done|].
  apply last_None in E. by subst rows.
Qed.

Lemma rows_of_snoc name rows row :
  rows_of name (rows ++ [row])
  = rows_of name rows
    ++ (if decide (row_technical_name row = name) then [row] else []).
Proof.
  unfold rows_of. rewrite filter_app. by f_equal.
Qed.

Lemma unloadable_snoc name rows row :
  unloadable name (rows ++ [row])
  ↔ unloadable name rows
    ∨ (row_technical_name row = name ∧ row_params row = BadParams).
Proof.
  unfold unloadable. rewrite Exists_app, Exists_cons, Exists_nil. tauto.
Qed.

(** What the loop of [fetch_matchmaker_queues] has built after the rows. *)
Lemma fetch_queue_rows_spec rows :
  let r := foldl fetch_queue_row (∅, [], []) rows in
  (∀ name, name ∈ r.1.1 ↔ unloadable name rows) ∧
  NoDup (Dict.keys r.1.2) ∧
  (∀ name, Dict.get r.1.2 name
           = if bool_decide (name ∈ r.1.1) then None
             else info_of_rows (rows_of name rows)) ∧
  length r.2 = size r.1.1 ∧
  Forall (λ ev, ev = EvLog WARNING "Unable to load queue") r.2.
Proof.
  induction rows as [|row rows IH] using rev_ind; cbv zeta.
  - simpl. split_and!; try done.
    + intros name. split; [by intros ?%elem_of_empty|].
      intros H. by apply Exists_nil in H.
    + constructor.
  - rewrite foldl_app. cbn [foldl].
    destruct (foldl fetch_queue_row (∅, [], []) rows) as [[errored qs] evs].
    cbn [fst snd] in IH. destruct IH as (Herr & Hnd & Hget & Hlen & Hevs).
    unfold fetch_queue_row. case_bool_decide as Hin.
    + (* the queue has failed before: the row is skipped *)
      cbn [fst snd]. split_and!; try done.
      * intros name. rewrite unloadable_snoc, Herr. split; [by left|].
        intros [?|[<- _]]; [done|]. by apply Herr.
      * intros name. rewrite Hget, rows_of_snoc. case_bool_decide; [done|].
        destruct (decide (row_technical_name row = name)) as [<-|]; [done|].
        by rewrite app_nil_r.
    + assert (∀ name, name ≠ row_technical_name row →
                rows_of name (rows ++ [row]) = rows_of name rows) as Hother.
      { intros name Hne. rewrite rows_of_snoc.
        rewrite decide_False by done. by rewrite app_nil_r. }
      assert (match Dict.get qs (row_technical_name row) with
              | Some info => info_map_pools info
              | None => []
              end = map row_map_pool (rows_of (row_technical_name row) rows))
        as Hpools.
      { rewrite Hget, bool_decide_eq_false_2 by done.
        apply info_of_rows_pools. }
      assert (∀ params, params = row_params row → params ≠ BadParams →
        let r :=
          (errored,
           Dict.set qs (row_technical_name row)
             {| info_id := row_id row; info_mod := row_gamemod row;
                info_rating_type := row_rating_type row;
                info_team_size := row_team_size row;
                info_params := match params with
                               | Params parsed => Some parsed
                               | _ => None
                               end;
                info_map_pools :=
                  match Dict.get qs (row_technical_name row) with
                  | Some info => info_map_pools info
                  | None => []
                  end ++ [row_map_pool row] |}, evs) in
        (∀ name, name ∈ r.1.1 ↔ unloadable name (rows ++ [row])) ∧
        NoDup (Dict.keys r.1.2) ∧
        (∀ name, Dict.get r.1.2 name
                 = if bool_decide (name ∈ r.1.1) then None
                   else info_of_rows (rows_of name (rows ++ [row]))) ∧
        length r.2 = size r.1.1 ∧
        Forall (λ ev, ev = EvLog WARNING "Unable to load queue") r.2) as Hgood.
      { intros params Hp Hok. cbv zeta. cbn [fst snd]. split_and!; try done.
        - intros name. rewrite unloadable_snoc, Herr. split; [by left|].
          intros [?|[_ Hbad]]; [done|]. congruence.
        - by apply dict_nodup_set.
        - intros name.
          destruct (decide (name = row_technical_name row)) as [->|Hne].
          + rewrite dict_get_set_eq, bool_decide_eq_false_2 by done.
            rewrite rows_of_snoc, decide_True by done.
            rewrite info_of_rows_snoc, Hpools. by subst params.
          + rewrite dict_get_set_ne by done. rewrite Hget. by rewrite Hother. }
      destruct (row_params row) eqn:Eparams.
      * by apply (Hgood NoParams).
      * by apply (Hgood (Params parsed)).
      * cbn [fst snd]. split_and!.
        -- intros name. rewrite unloadable_snoc, elem_of_union,
             elem_of_singleton, Herr. split.
           ++ intros [->|?]; [by right|by left].
           ++ intros [?|[<- _]]; [by right|by left].
        -- by apply dict_nodup_del.
        -- intros name.
           destruct (decide (name = row_technical_name row)) as [->|Hne].
           ++ rewrite dict_get_del_eq by done.
              rewrite bool_decide_eq_true_2; [done|].
              apply elem_of_union_l. by apply elem_of_singleton.
           ++ rewrite dict_get_del_ne by done. rewrite Hget, Hother by done.
              apply (f_equal (λ b : bool,
                       if b then None else info_of_rows (rows_of name rows))).
              apply bool_decide_ext.
              rewrite elem_of_union, elem_of_singleton. clear -Hne. tauto.
        -- rewrite length_app, size_union, size_singleton, Hlen; [simpl; lia|].
           apply disjoint_singleton_l. done.
        -- apply Forall_app. split; [done|]. by constructor.
Qed.

(** X27. [fetch_matchmaker_queues] returns a dictionary with one entry for
    every queue that has a row and no row whose params fail to parse: a
    queue with such a row is left out altogether, also when other rows of
    it were read before, and one warning is logged per queue left out.  The
    entry of a queue has the id, mod, rating type, team size and params of
    its last row and the map pool associations of all its rows, in the
    order of the rows. *)
Theorem fetch_matchmaker_queues_loads rows :
  let r := fetch_matchmaker_queues rows in
  NoDup (Dict.keys r.1) ∧
  (∀ name, Dict.get r.1 name
           = if bool_decide (unloadable name rows) then None
             else info_of_rows (rows_of name rows)) ∧
  (∀ name, is_Some (Dict.get r.1 name)
           ↔ rows_of name rows ≠ [] ∧ ¬ unloadable name rows) ∧
  (∀ name info, Dict.get r.1 name = Some info →
                info_map_pools info = map row_map_pool (rows_of name rows)) ∧
  length r.2
  = size (list_to_set
            (map row_technical_name
                 (filter (λ row, row_params row = BadParams) rows))
          : gset string).
Proof.
  cbv zeta. unfold fetch_matchmaker_queues.
  destruct (fetch_queue_rows_spec rows) as (Herr & Hnd & Hget & Hlen & _).
  destruct (foldl fetch_queue_row (∅, [], []) rows) as [[errored qs] evs].
  cbn [fst snd] in *.
  assert (∀ name, Dict.get qs name
            = if bool_decide (unloadable name rows) then None
              else info_of_rows (rows_of name rows)) as Hget'.
  { intros name. rewrite Hget.
    apply (f_equal (λ b : bool,
             if b then None else info_of_rows (rows_of name rows))).
    apply bool_decide_ext, Herr. }
  split_and!; [done|done| | |].
  - intros name. rewrite Hget'. case_bool_decide as Hbad.
    + split; [by intros [? ?]|by intros [_ ?]].
    + unfold info_of_rows. destruct (last (rows_of name rows)) eqn:El.
      * split; [|by eexists]. intros _. split; [|done].
        intros Hnil. by rewrite Hnil in El.
      * apply last_None in El. split; [by intros [? ?]|by intros [? _]].
  - intros name info. rewrite Hget'. case_bool_decide; [done|].
    unfold info_of_rows. destruct (last (rows_of name rows)); [|done].
    by intros [= <-].
  - rewrite Hlen. f_equal. apply set_eq. intros name.
    rewrite Herr, elem_of_list_to_set, list_elem_of_fmap.
    unfold unloadable. rewrite Exists_exists. split.
    + intros (row & Hin & <- & Hbad). exists row. split; [done|].
      by apply list_elem_of_filter.
    + intros (row & -> & [Hbad Hin]%list_elem_of_filter). by exists row.
Qed.

Lemma pool_of_rows_snoc rows row :
  pool_of_rows (rows ++ [row])
  = Some ((default (mp_name row, []) (pool_of_rows rows)).1,
          (default (mp_name row, []) (pool_of_rows rows)).2 ++ maps_of_row row).
Proof.
  destruct rows as [|first rows]; simpl.
  - by rewrite app_nil_r.
  - by rewrite flat_map_app, app_assoc; simpl; rewrite app_nil_r.
Qed.

Lemma pool_rows_snoc id rows row :
  pool_rows id (rows ++ [row])
  = pool_rows id rows ++ (if decide (mp_id row = id) then [row] else []).
Proof. unfold pool_rows. rewrite filter_app. by f_equal. Qed.

(** One row: the pool of the row gets the row's maps, after those it had. *)
Lemma fetch_pool_row_spec pools evs row :
  NoDup (Dict.keys pools) →
  let r := fetch_pool_row (pools, evs) row in
  NoDup (Dict.keys r.1) ∧
  Dict.get r.1 (mp_id row)
  = Some ((default (mp_name row, []) (Dict.get pools (mp_id row))).1,
          (default (mp_name row, []) (Dict.get pools (mp_id row))).2
          ++ maps_of_row row) ∧
  (∀ id, id ≠ mp_id row → Dict.get r.1 id = Dict.get pools id) ∧
  length r.2 = (length evs + if warned row then 1 else 0)%nat.
Proof.
  intros Hnd. cbv zeta. unfold fetch_pool_row.
  set (pools1 := if Dict.mem pools (mp_id row) then pools
                 else Dict.set pools (mp_id row) (mp_name row, [])).
  assert (NoDup (Dict.keys pools1)) as Hnd1.
  { subst pools1. destruct (Dict.mem pools (mp_id row)); [done|].
    by apply dict_nodup_set. }
  assert (Dict.get pools1 (mp_id row)
          = Some (default (mp_name row, []) (Dict.get pools (mp_id row))))
    as Hget1.
  { subst pools1. unfold Dict.mem.
    destruct (Dict.get pools (mp_id row)) as [e|] eqn:E; [done|].
    by rewrite dict_get_set_eq. }
  assert (∀ id, id ≠ mp_id row → Dict.get pools1 id = Dict.get pools id)
    as Hother1.
  { intros id Hne. subst pools1. destruct (Dict.mem pools (mp_id row)); [done|].
    by rewrite dict_get_set_ne. }
  clearbody pools1. rewrite Hget1. cbn [default from_option id].
  destruct (default (mp_name row, []) (Dict.get pools (mp_id row)))
    as [name map_list]. cbn [fst snd].
  unfold maps_of_row, warned.
  destruct (mp_map_id row) as [map_id|];
    [|destruct (mp_map_params row) as [[generated|map_type|]|]];
    cbn [fst snd]; rewrite ?app_nil_r.
  all: split_and!.
  all: try (apply dict_nodup_set).
  all: rewrite ?dict_get_set_eq; try done.
  all: try (intros id Hne; rewrite ?dict_get_set_ne by done; by apply Hother1).
  all: rewrite ?length_app; simpl; lia.
Qed.

Lemma fetch_pool_rows_spec rows :
  let r := foldl fetch_pool_row ([], []) rows in
  NoDup (Dict.keys r.1) ∧
  (∀ id, Dict.get r.1 id = pool_of_rows (pool_rows id rows)) ∧
  length r.2 = length (filter (λ row, warned row = true) rows).
Proof.
  induction rows as [|row rows IH] using rev_ind; cbv zeta.
  - simpl. split_and!; [constructor|done..].
  - rewrite foldl_app. cbn [foldl].
    destruct (foldl fetch_pool_row ([], []) rows) as [pools evs].
    cbn [fst snd] in IH. destruct IH as (Hnd & Hget & Hlen).
    destruct (fetch_pool_row_spec pools evs row Hnd)
      as (Hnd' & Hrow & Hother & Hlen').
    split_and!.
    + done.
    + intros id. rewrite pool_rows_snoc.
      destruct (decide (mp_id row = id)) as [<-|Hne].
      * rewrite Hrow, pool_of_rows_snoc. by rewrite Hget.
      * rewrite app_nil_r, Hother by done. apply Hget.
    + rewrite Hlen', Hlen, filter_app, length_app. f_equal.
      rewrite filter_cons, filter_nil. by destruct (warned row).
Qed.

(** X28. [fetch_map_pools] returns one entry for every pool id among the
    rows, also for a pool whose rows carry no map.  The entry has the name
    of the first row of the pool and, in the order of the rows, the map of
    each row that has a map id and the generated map of each row without a
    map id whose params are of type neroxis.  A row without a map id whose
    params have another type or cannot be read adds no map and logs one
    warning; the pool and its other maps are kept. *)
Theorem fetch_map_pools_groups rows :
  let r := fetch_map_pools rows in
  NoDup (Dict.keys r.1) ∧
  (∀ id, Dict.get r.1 id = pool_of_rows (pool_rows id rows)) ∧
  (∀ id, is_Some (Dict.get r.1 id) ↔ ∃ row, row ∈ rows ∧ mp_id row = id) ∧
  (∀ id name map_list, Dict.get r.1 id = Some (name, map_list) →
     head (mp_name <$> pool_rows id rows) = Some name ∧
     map_list = flat_map maps_of_row (pool_rows id rows)) ∧
  length r.2 = length (filter (λ row, warned row = true) rows).
Proof.
  cbv zeta. unfold fetch_map_pools.
  destruct (fetch_pool_rows_spec rows) as (Hnd & Hget & Hlen).
  split_and!; [done|done| | |done].
  - intros id. rewrite Hget. unfold pool_of_rows.
    destruct (pool_rows id rows) as [|first rs] eqn:E.
    + split; [by intros [? ?]|]. intros (row & Hin & Hid).
      assert (row ∈ pool_rows id rows) as Hrow
        by (by apply list_elem_of_filter).
      rewrite E in Hrow. by apply elem_of_nil in Hrow.
    + split; [|by eexists]. intros _.
      assert (first ∈ pool_rows id rows) as Hfirst by (rewrite E; left).
      apply list_elem_of_filter in Hfirst as [Hid Hin]. by exists first.
  - intros id name map_list. rewrite Hget. unfold pool_of_rows.
    destruct (pool_rows id rows) as [|first rs]; [done|].
    by intros [= <- <-].
Qed.

(** ** Popping the queues: who is handed what *)

Lemma add_matches_from_prefix env queues1v1 : ∀ matches_tmm,
  ∃ extra,
    add_matches_from env matches_tmm queues1v1 = matches_tmm ++ extra ∧
    Forall (λ m, ∃ queue, queue ∈ queues1v1
                          ∧ m ∈ find_matches1v1 env (queue_name queue)) extra.
Proof.
  induction queues1v1 as [|queue rest IH]; intros matches_tmm; simpl.
  - exists []. by rewrite app_nil_r.
  - destruct (IH (matches_tmm
                  ++ filter (λ m, has_no_overlap m
                                    (searches_in_matches matches_tmm) = true)
                       (find_matches1v1 env (queue_name queue))))
      as (extra & Heq & Hall).
    eexists. split; [by rewrite Heq, <- app_assoc|].
    apply Forall_app. split.
    + apply Forall_forall. intros m [_ Hin]%list_elem_of_filter.
      exists queue. split; [left|done].
    + eapply Forall_impl; [exact Hall|]. intros m (q & Hq & Hm).
      exists q. split; [by right|done].
Qed.

(** X29. In a pop, the matches that the team matchmaker picks are all kept,
    in their order and before any 1v1 match; what is added after them comes
    from [find_matches1v1] of a 1v1 queue of the service.  Every queue of
    the service is then handed its share exactly once, in the order of the
    queues and also when the share is empty: the picked matches whose first
    team is of that queue, in the order they were picked.  A picked match of
    a queue that the service does not have is handed to nobody. *)
Theorem pop_dispatch env s :
  let matches_tmm :=
    pick_noncolliding_games env
      (flat_map (λ queue, find_matches env (queue_name queue))
                (_queues_without1v1 s)) in
  let out := _queue_pop_iteration env s in
  (∃ extra,
     picked_matches env s = matches_tmm ++ extra ∧
     Forall (λ m, ∃ queue, queue ∈ Dict.values (queues s)
                           ∧ team_size queue = 1
                           ∧ m ∈ find_matches1v1 env (queue_name queue))
            extra) ∧
  out.*1 = queue_name <$> Dict.values (queues s) ∧
  (∀ name ms, (name, ms) ∈ out →
     ms = filter (λ m, team_queue m.1 = name) (picked_matches env s)) ∧
  (∀ m, m ∈ picked_matches env s →
     (∃ name ms, (name, ms) ∈ out ∧ m ∈ ms)
     ↔ ∃ queue, queue ∈ Dict.values (queues s)
                ∧ queue_name queue = team_queue m.1).
Proof.
  cbv zeta. split_and!.
  - unfold picked_matches, _add_matches_from1v1.
    destruct (add_matches_from_prefix env (_1v1queues s)
                (pick_noncolliding_games env
                   (flat_map (λ queue, find_matches env (queue_name queue))
                             (_queues_without1v1 s))))
      as (extra & Heq & Hall).
    exists extra. split; [done|].
    eapply Forall_impl; [exact Hall|]. intros m (q & Hq & Hm).
    apply list_elem_of_filter in Hq as [Hsize Hq]. by exists q.
  - unfold _queue_pop_iteration, _found_matches.
    rewrite <- list_fmap_compose. done.
  - intros name ms Hin. unfold _queue_pop_iteration, _found_matches in Hin.
    apply list_elem_of_fmap in Hin as (queue & [= -> ->] & _). done.
  - intros m Hm. unfold _queue_pop_iteration, _found_matches.
    fold (picked_matches env s). split.
    + intros (name & ms & Hin & Hms).
      apply list_elem_of_fmap in Hin as (queue & [= -> ->] & Hq).
      apply list_elem_of_filter in Hms as [Hname _]. by exists queue.
    + intros (queue & Hq & Hname).
      exists (queue_name queue),
        (filter (λ m, team_queue m.1 = queue_name queue) (picked_matches env s)).
      split.
      * apply list_elem_of_fmap. by exists queue.
      * by apply list_elem_of_filter.
Qed.

(** ** The game history *)

Section GameHistory.
Import Db.

Lemma query_spec table now player_id queue_id limit :
  let rows := query table now player_id queue_id limit in
  let recent row :=
    playerId row = player_id ∧ one_day_before now ≤ startTime row
    ∧ matchmaker_queue_id row = queue_id in
  (length rows ≤ Z.to_nat limit)%nat ∧
  (∀ row, row ∈ rows → row ∈ table ∧ recent row) ∧
  (∀ row row', row ∈ rows → row' ∈ table → recent row' → row' ∉ rows →
               startTime row' ≤ startTime row) ∧
  ((length rows < Z.to_nat limit)%nat →
   ∀ row', row' ∈ table → recent row' → row' ∈ rows).
Proof.
  unfold query.
  set (key := λ row : GameRow, inject_Z (- startTime row)).
  set (key' := λ row : GameRow, inject_Z (- game_id row)).
  set (matching := filter (λ row, playerId row = player_id
                                  ∧ one_day_before now ≤ startTime row
                                  ∧ matchmaker_queue_id row = queue_id) table).
  set (l := sorted key (sorted key' matching)).
  assert (Hl : ∀ row, row ∈ l ↔ row ∈ table
                 ∧ (playerId row = player_id
                    ∧ one_day_before now ≤ startTime row
                    ∧ matchmaker_queue_id row = queue_id)).
  { intros row. unfold l.
    rewrite (sorted_perm key (sorted key' matching)), (sorted_perm key' matching).
    unfold matching. rewrite list_elem_of_filter. tauto. }
  cbv zeta. split_and!.
  - rewrite length_take. lia.
  - intros row Hrow. apply Hl. by apply (subseteq_take (Z.to_nat limit) l).
  - intros row row' Hrow Hrow' Hrecent Hout.
    assert (Hin : row' ∈ take (Z.to_nat limit) l ++ drop (Z.to_nat limit) l)
      by (rewrite take_drop; apply Hl; done).
    apply elem_of_app in Hin as [Hin|Hin]; [done|].
    pose proof (sorted_take_drop key l (Z.to_nat limit) row row'
                  (sorted_sorted key (sorted key' matching)) Hrow Hin) as Hle.
    unfold key_le, key in Hle. rewrite <- Zle_Qle in Hle. lia.
  - intros Hlen row' Hrow' Hrecent.
    rewrite take_ge; [by apply Hl|].
    rewrite length_take in Hlen. lia.
Qed.

(** X30. [get_game_history] lists, player after player in the order of the
    party, the maps of at most [limit] games of each player: games of that
    player for the queue that started within the last day, and none of the
    games left out started later than one that is listed; when fewer than
    [limit] are listed for a player, these are all such games.  So the
    history has at most [limit] entries per player, a game that two players
    of the party played counts once for each, and a limit of zero gives
    the empty history.  The limit is not negative. *)
Theorem game_history_recent table now players queue_id limit :
  0 ≤ limit →
  let history := get_game_history table now players queue_id limit in
  let recent player row :=
    playerId row = player_id player ∧ one_day_before now ≤ startTime row
    ∧ matchmaker_queue_id row = queue_id in
  (length history ≤ length players * Z.to_nat limit)%nat ∧
  (limit = 0 → history = []) ∧
  history
  = flat_map (λ player,
                mapId <$> query table now (player_id player) queue_id limit)
             players ∧
  ∀ player,
    let rows := query table now (player_id player) queue_id limit in
    (length rows ≤ Z.to_nat limit)%nat ∧
    (∀ row, row ∈ rows → row ∈ table ∧ recent player row) ∧
    (∀ row row', row ∈ rows → row' ∈ table → recent player row' →
                 row' ∉ rows → startTime row' ≤ startTime row) ∧
    ((length rows < Z.to_nat limit)%nat →
     ∀ row', row' ∈ table → recent player row' → row' ∈ rows).
Proof.
  intros Hnonneg. cbv zeta. split_and!; [| |done|].
  - unfold get_game_history. induction players as [|p players IH]; [done|].
    cbn [flat_map length]. rewrite length_app, length_map.
    destruct (query_spec table now (player_id p) queue_id limit) as [Hlen _].
    lia.
  - intros Hlimit. unfold get_game_history.
    induction players as [|p players IH]; [done|].
    cbn [flat_map]. rewrite IH, app_nil_r.
    destruct (query_spec table now (player_id p) queue_id limit) as [Hlen _].
    replace (Z.to_nat limit) with 0%nat in Hlen by lia.
    by destruct (query table now (player_id p) queue_id limit);
      [|simpl in Hlen; lia].
  - intros player. apply query_spec.
Qed.

Lemma game_history_recent_witness :
  get_game_history SampleHistory.table 2000
    [Sample.alice; Sample.bob] 1 1 = [7; 7]
  ∧ (length (get_game_history SampleHistory.table 2000
               [Sample.alice; Sample.bob] 1 1) ≤ 2 * Z.to_nat 1)%nat.
Proof.
  split; [by vm_compute|].
  apply (game_history_recent SampleHistory.table 2000
           [Sample.alice; Sample.bob] 1 1).
  lia.
Defined.

End GameHistory.
